(** * PostgreSQL adapters of the crystal repository: a shallow embedding

    The development follows the TypeScript sources:
    - the node-postgres adaptor (pooled TCP; [src/unnamed/part_005]),
    - [utils/pg-adapters/src/adaptors/postgres.ts] (tagged template),
    - the PGlite adaptor (WASM, single connection; [src/unnamed/part_004]),
    - [utils/pg-adapters/src/lru-prepared-statements.ts],
    - [grafast/dataplan-pg/src/pgSubscriber.ts].

    Asynchronous code is embedded sequentially: every [await] is taken to
    settle before the next statement of the same function runs, and the
    statements a function sends to its connection are recorded in order.
    An [async] call whose promise is not awaited runs at once as far as its
    first [await]; what follows that [await] runs once the caller has
    reached an [await] of its own or has returned, and before the next
    operation from outside begins. *)

From Stdlib Require Import String Ascii List Bool Arith Lia ZArith DecimalString
  DecimalNat.
Import ListNotations.
#[local] Set Warnings "-register-all".
Open Scope string_scope.

(** ** JavaScript values, strings and errors *)

(** Template-literal rendering of a non-negative integer ([`${txLevel}`]). *)
Definition string_of_nat (n : nat) : string :=
  NilEmpty.string_of_uint (Nat.to_uint n).

(** [s.includes(sub)] *)
Fixpoint includes (s sub : string) : bool :=
  String.prefix sub s ||
  match s with
  | EmptyString => false
  | String _ rest => includes rest sub
  end.

(** [s.replace(/c/g, by)] for a one-character pattern. *)
Fixpoint replace_all (c : ascii) (by_ : string) (s : string) : string :=
  match s with
  | EmptyString => EmptyString
  | String a rest =>
      if Ascii.eqb a c then by_ ++ replace_all c by_ rest
      else String a (replace_all c by_ rest)
  end.

(** ASCII lower-casing; SQL key words and unquoted identifiers are read by
    the server without regard to letter case. *)
Definition lower_ascii (a : ascii) : ascii :=
  let n := nat_of_ascii a in
  if ((65 <=? n) && (n <=? 90))%nat then ascii_of_nat (n + 32) else a.

Fixpoint lower (s : string) : string :=
  match s with
  | EmptyString => EmptyString
  | String a rest => String (lower_ascii a) (lower rest)
  end.

(** Two statement texts that differ at most in letter case. *)
Definition same_sql (a b : string) : Prop := lower a = lower b.

(** A value as JavaScript code hands it to a driver or to [formatValue].
    [JDate] carries the result of [toISOString()], [JObject] the result of
    [JSON.stringify], [JOther] the result of [String(value)] (numbers,
    bigints, [undefined]). *)
Inductive JsValue : Type :=
| JNull
| JString (s : string)
| JBool (b : bool)
| JDate (iso : string)
| JArray (items : list JsValue)
| JObject (json : string)
| JOther (str : string).

(** A thrown value; [message] is [None] when the value has no such property. *)
Record JsError : Type := mkError { message : option string }.

Definition Error (msg : string) : JsError := mkError (Some msg).

(** How an [async] call settles. *)
Inductive Outcome (A : Type) : Type :=
| Returned (a : A)
| Threw (e : JsError).
Arguments Returned {A} a.
Arguments Threw {A} e.

(** ** JSON.stringify on arrays of strings *)

Inductive Json : Type :=
| JsonString (s : string)
| JsonArray (items : list Json).

Definition hex_digit (n : nat) : ascii :=
  if (n <? 10)%nat then ascii_of_nat (48 + n) else ascii_of_nat (87 + n).

(** QuoteJSONString, one code unit at a time. *)
Definition json_escape (a : ascii) : string :=
  let n := nat_of_ascii a in
  if (n =? 8)%nat then "\b"
  else if (n =? 9)%nat then "\t"
  else if (n =? 10)%nat then "\n"
  else if (n =? 12)%nat then "\f"
  else if (n =? 13)%nat then "\r"
  else if (n =? 34)%nat then String (ascii_of_nat 92) (String a EmptyString)
  else if (n =? 92)%nat then "\\"
  else if (n <? 32)%nat then
    "\u00" ++ String (hex_digit (n / 16)) (String (hex_digit (n mod 16)) EmptyString)
  else String a EmptyString.

Fixpoint json_escape_all (s : string) : string :=
  match s with
  | EmptyString => EmptyString
  | String a rest => json_escape a ++ json_escape_all rest
  end.

Definition json_quote (s : string) : string :=
  String (ascii_of_nat 34) (json_escape_all s ++ String (ascii_of_nat 34) EmptyString).

Fixpoint JSON_stringify (j : Json) : string :=
  match j with
  | JsonString s => json_quote s
  | JsonArray items => "[" ++ String.concat "," (map JSON_stringify items) ++ "]"
  end.

(** The array of [[key, value]] pairs the adaptors build in [pgSettingsEntries]. *)
Definition entries_json (entries : list (string * string)) : Json :=
  JsonArray (map (fun kv => JsonArray [JsonString (fst kv); JsonString (snd kv)]) entries).

(** ** Statements sent to a connection, and the monad of the envelopes *)

Module Conn.
Local Open Scope list_scope.

(** One statement as a driver receives it: [{ text, values }]. *)
Record Query : Type := mkQuery { text : string; values : list JsValue }.

(** A statement without bound values ([pglite.exec(text)], [{ text }]). *)
Definition stmt (t : string) : Query := mkQuery t [].

(** A result row: column name to nullable text. *)
Definition Row : Type := list (string * option string).
Definition Rows : Type := list Row.

(** The connection seen from the adaptor: its answer to a statement, given
    the statements it has received so far. *)
Definition Server : Type := list Query -> Query -> Outcome Rows.

(** An [async] computation on one connection: from the statements sent so
    far to how it settles and the statements it sent itself, in order. *)
Definition M (A : Type) : Type := list Query -> Outcome A * list Query.

Definition ret {A} (a : A) : M A := fun _ => (Returned a, []).

Definition throw {A} (e : JsError) : M A := fun _ => (Threw e, []).

Definition bind {A B} (m : M A) (k : A -> M B) : M B :=
  fun h =>
    let (r, sent) := m h in
    match r with
    | Returned a => let (r', sent') := k a (h ++ sent) in (r', sent ++ sent')
    | Threw e => (Threw e, sent)
    end.

(** [try { m } catch (e) { handler(e) }] *)
Definition try_catch {A} (m : M A) (handler : JsError -> M A) : M A :=
  fun h =>
    let (r, sent) := m h in
    match r with
    | Returned a => (Returned a, sent)
    | Threw e => let (r', sent') := handler e (h ++ sent) in (r', sent ++ sent')
    end.

(** [try { m } finally { f }]: [f] always runs; when it throws, its error
    is the one that propagates. *)
Definition try_finally {A} (m : M A) (f : M unit) : M A :=
  fun h =>
    let (r, sent) := m h in
    let (r', sent') := f (h ++ sent) in
    match r' with
    | Returned _ => (r, sent ++ sent')
    | Threw e => (Threw e, sent ++ sent')
    end.

(** Sending one statement and awaiting its result. *)
Definition query (server : Server) (q : Query) : M Rows :=
  fun h => (server h q, [q]).

(** The server accepts the statements of [l] one after the other, starting
    from the statements [h] already sent. *)
Fixpoint accepts (server : Server) (h l : list Query) : bool :=
  match l with
  | [] => true
  | q :: rest =>
      match server h q with
      | Returned _ => accepts server (h ++ [q]) rest
      | Threw _ => false
      end
  end.

(** A server that accepts every statement and returns no row. *)
Definition accepting : Server := fun _ _ => Returned [].

(** A server that refuses the statements whose text is [refused], with the
    error [e], and accepts the others. *)
Definition refusing (refused : string) (e : JsError) : Server :=
  fun _ q => if String.eqb (text q) refused then Threw e else Returned [].

End Conn.

Declare Scope conn_scope.
Delimit Scope conn_scope with conn.
Notation "x <- m ;; k" := (Conn.bind m (fun x => k))
  (at level 61, m at next level, right associativity) : conn_scope.
Notation "m ;;; k" := (Conn.bind m (fun _ => k))
  (at level 61, right associativity) : conn_scope.

(** [value == null] filters of the three [withPgClient] implementations:
    the entries of [pgSettings] bound to a value, in enumeration order. *)
Fixpoint pgSettingsEntries (pgSettings : list (string * option string))
  : list (string * string) :=
  match pgSettings with
  | [] => []
  | (key, None) :: rest => pgSettingsEntries rest
  | (key, Some value) :: rest => (key, value) :: pgSettingsEntries rest
  end.

(** ** The node-postgres adaptor *)

Module NodePostgres.
Import Conn.

(** What [createNodePostgresPgClient] closes over, the connection apart. *)
Record NodePostgresPgClient : Type := mkClient {
  txLevel : nat;
  alwaysQueue : bool;
  alreadyInTransaction : bool
}.

Section WithServer.
Variable server : Server.
Local Open Scope conn_scope.

(** [`tx${txLevel === 0 ? "" : txLevel}`] *)
Definition tx_name (txLevel : nat) : string :=
  "tx" ++ (if (txLevel =? 0)%nat then "" else string_of_nat txLevel).

(** [withTransaction] of the client; the per-client queue only delays the
    body until earlier operations have settled. *)
Definition withTransaction {T} (c : NodePostgresPgClient)
    (callback : NodePostgresPgClient -> M T) : M T :=
  let top := (txLevel c =? 0)%nat && negb (alreadyInTransaction c) in
  (if top then query server (stmt "begin")
   else query server (stmt ("savepoint " ++ tx_name (txLevel c)))) ;;;
  try_catch
    (let newClient :=
       mkClient (txLevel c + 1) (alwaysQueue c) (alreadyInTransaction c) in
     innerResult <- callback newClient ;;
     (if top then query server (stmt "commit")
      else query server (stmt ("release savepoint " ++ tx_name (txLevel c)))) ;;;
     ret innerResult)
    (fun e =>
       try_catch
         ((if top then query server (stmt "rollback")
           else query server
                  (stmt ("rollback to savepoint " ++ tx_name (txLevel c)))) ;;;
          ret tt)
         (fun _e2 => ret tt) ;;;
       throw e).

Definition set_config_text : string :=
  "select set_config(el->>0, el->>1, true) from json_array_elements($1::json) el".

(** [makeNodePostgresWithPgClient_inner]; [pgSettings] is [None] for [null]. *)
Definition makeNodePostgresWithPgClient_inner {T}
    (pgSettings : option (list (string * option string)))
    (callback : NodePostgresPgClient -> M T)
    (alwaysQueue alreadyInTransaction : bool) : M T :=
  let entries :=
    match pgSettings with
    | Some settings => pgSettingsEntries settings
    | None => []
    end in
  if (0 <? length entries)%nat then
    query server
      (stmt (if alreadyInTransaction then "savepoint tx" else "begin")) ;;;
    try_catch
      (query server
         (mkQuery set_config_text [JString (JSON_stringify (entries_json entries))]) ;;;
       let client := mkClient 1 alwaysQueue alreadyInTransaction in
       result <- callback client ;;
       query server
         (stmt (if alreadyInTransaction then "release savepoint tx" else "commit")) ;;;
       ret result)
      (fun e =>
         query server
           (stmt (if alreadyInTransaction then "rollback to savepoint tx"
                  else "rollback")) ;;;
         throw e)
  else
    let client := mkClient 0 alwaysQueue alreadyInTransaction in
    callback client.

(** [withPgClient] of [createPgPoolFromPool]: a connection is checked out,
    the envelope runs on it, the connection is released. *)
Definition withPgClient {T}
    (pgSettings : option (list (string * option string)))
    (callback : NodePostgresPgClient -> M T) : M T :=
  makeNodePostgresWithPgClient_inner pgSettings callback false false.

End WithServer.
End NodePostgres.

(** ** The postgres.js adaptor *)

Module PostgresJs.
Import Conn.

(** What [createPostgresJsPgClient] closes over: whether [sql] is the
    transaction-scoped handle of a [begin] block, and [alwaysQueue]. *)
Record PostgresJsPgClient : Type := mkClient {
  inTransaction : bool;
  alwaysQueue : bool
}.

Section WithServer.
Variable server : Server.
Local Open Scope conn_scope.

(** Modelled from the spec: the driver's native transaction primitive
    [sql.begin] (package [postgres], not part of the sources).  Section 4.2:
    a real [BEGIN]; on success, commit; on error, roll back, then re-raise;
    section 4.3: rollback failures are swallowed so that the original error
    propagates. *)
Definition sql_begin {T} (body : M T) : M T :=
  query server (stmt "BEGIN") ;;;
  try_catch
    (result <- body ;;
     query server (stmt "COMMIT") ;;;
     ret result)
    (fun e =>
       try_catch (query server (stmt "ROLLBACK") ;;; ret tt) (fun _ => ret tt) ;;;
       throw e).

Definition set_config_text : string :=
  "SELECT set_config(el->>0, el->>1, true) FROM json_array_elements($1::json) el".

(** [withPgClient] of [createPostgresJsAdapter]; the pool-wide queue only
    delays the body until earlier operations have settled. *)
Definition withPgClient {T} (config_alwaysQueue : bool)
    (pgSettings : option (list (string * option string)))
    (callback : PostgresJsPgClient -> M T) : M T :=
  match pgSettings with
  | Some ((_ :: _) as settings) =>
      sql_begin
        (let entries := pgSettingsEntries settings in
         (if (0 <? length entries)%nat then
            query server
              (mkQuery set_config_text
                 [JString (JSON_stringify (entries_json entries))]) ;;; ret tt
          else ret tt) ;;;
         let client := mkClient true config_alwaysQueue in
         callback client)
  | _ =>
      let client := mkClient false config_alwaysQueue in
      callback client
  end.

End WithServer.
End PostgresJs.

(** ** The PGlite adaptor *)

Module PGlite.
Import Conn.

(** What [createPGlitePgClient] closes over, and whether [query] has been
    replaced by the one that runs on the transaction handle. *)
Record PGlitePgClient : Type := mkClient {
  txLevel : nat;
  alreadyInTransaction : bool;
  queryOnTransaction : bool
}.

Section WithServer.
Variable server : Server.
Local Open Scope conn_scope.

(** Modelled from the spec: the driver's native transaction primitive
    [pglite.transaction] (package [@electric-sql/pglite], not part of the
    sources).  Section 4.3, first row of the table: [BEGIN] on entry,
    [COMMIT] on success, [ROLLBACK] on error; rollback failures are swallowed
    so that the original error propagates. *)
Definition pglite_transaction {T} (body : M T) : M T :=
  query server (stmt "BEGIN") ;;;
  try_catch
    (result <- body ;;
     query server (stmt "COMMIT") ;;;
     ret result)
    (fun e =>
       try_catch (query server (stmt "ROLLBACK") ;;; ret tt) (fun _ => ret tt) ;;;
       throw e).

(** Modelled from the spec: [pglite.runExclusive] (same package), the
    driver's exclusive-execution primitive of section 4.6; with one caller at
    a time it runs its argument. *)
Definition runExclusive {T} (body : M T) : M T := body.

Definition tx_name (txLevel : nat) : string :=
  "tx" ++ (if (txLevel =? 0)%nat then "" else string_of_nat txLevel).

Definition withTransaction {T} (c : PGlitePgClient)
    (callback : PGlitePgClient -> M T) : M T :=
  if (txLevel c =? 0)%nat && negb (alreadyInTransaction c) then
    pglite_transaction
      (let txClient := mkClient 1 false true in
       callback txClient)
  else
    query server (stmt ("SAVEPOINT " ++ tx_name (txLevel c))) ;;;
    try_catch
      (let newClient := mkClient (txLevel c + 1) (alreadyInTransaction c) false in
       result <- callback newClient ;;
       query server (stmt ("RELEASE SAVEPOINT " ++ tx_name (txLevel c))) ;;;
       ret result)
      (fun error =>
         try_catch
           (query server
              (stmt ("ROLLBACK TO SAVEPOINT " ++ tx_name (txLevel c))) ;;;
            ret tt)
           (fun rollbackError => ret tt) ;;;
         throw error).

Definition set_config_text : string :=
  "SELECT set_config(el->>0, el->>1, false) FROM json_array_elements($1::json) el".

Definition current_setting_text : string :=
  "SELECT current_setting($1, true) as value".

(** [pgSettings[key]] *)
Fixpoint lookup (key : string) (pgSettings : list (string * option string))
  : option string :=
  match pgSettings with
  | [] => None
  | (k, v) :: rest => if String.eqb k key then v else lookup key rest
  end.

(** [result.rows[0]?.value ?? null] *)
Definition first_value (rows : Rows) : option string :=
  match rows with
  | [] => None
  | row :: _ => lookup "value" row
  end.

(** The loop that reads the current value of every setting about to change;
    [pgSettings[key]], for [key] taken from [Object.keys(pgSettings)], is the
    value of that entry. *)
Fixpoint read_original (pgSettings : list (string * option string))
  : M (list (string * option string)) :=
  match pgSettings with
  | [] => ret []
  | (key, Some _) :: rest =>
      result <- query server (mkQuery current_setting_text [JString key]) ;;
      more <- read_original rest ;;
      ret ((key, first_value result) :: more)
  | (key, None) :: rest => read_original rest
  end.

(** The loop that resets every setting whose original value was [null]. *)
Fixpoint reset_null (pgSettings : list (string * option string))
    (originalSettings : list (string * option string)) : M unit :=
  match originalSettings with
  | [] => ret tt
  | (key, value) :: rest =>
      match value, lookup key pgSettings with
      | None, Some _ =>
          let escapedKey := replace_all (ascii_of_nat 34) (String (ascii_of_nat 34) (String (ascii_of_nat 34) EmptyString)) key in
          query server
            (stmt ("RESET " ++ String (ascii_of_nat 34)
                     (escapedKey ++ String (ascii_of_nat 34) EmptyString))) ;;;
          reset_null pgSettings rest
      | _, _ => reset_null pgSettings rest
      end
  end.

(** [withPgClient] of [createPGLiteAdapter]. *)
Definition withPgClient {T}
    (pgSettings : option (list (string * option string)))
    (callback : PGlitePgClient -> M T) : M T :=
  match pgSettings with
  | Some ((_ :: _) as settings) =>
      runExclusive
        (originalSettings <- read_original settings ;;
         try_finally
           (let entries := pgSettingsEntries settings in
            (if (0 <? length entries)%nat then
               query server
                 (mkQuery set_config_text
                    [JString (JSON_stringify (entries_json entries))]) ;;; ret tt
             else ret tt) ;;;
            let client := mkClient 0 false false in
            callback client)
           (if (0 <? length originalSettings)%nat then
              let restoreEntries := pgSettingsEntries originalSettings in
              (if (0 <? length restoreEntries)%nat then
                 query server
                   (mkQuery set_config_text
                      [JString (JSON_stringify (entries_json restoreEntries))]) ;;;
                 ret tt
               else ret tt) ;;;
              reset_null settings originalSettings
            else ret tt))
  | _ =>
      let client := mkClient 0 false false in
      callback client
  end.

End WithServer.
End PGlite.

(** ** The transition table of the nested-transaction state machine, as the
    specification writes it (section 4.3) *)

Module TransactionTable.

(** Savepoint naming: [tx] at L0 in pre-existing mode, otherwise [tx{N}]
    with [N] the pre-call level. *)
Definition savepoint (level : nat) : string :=
  match level with
  | 0 => "tx"
  | S _ => "tx" ++ string_of_nat level
  end.

Definition on_enter (level : nat) (preExisting : bool) : string :=
  match level, preExisting with
  | 0, false => "BEGIN"
  | _, _ => "SAVEPOINT " ++ savepoint level
  end.

Definition on_commit (level : nat) (preExisting : bool) : string :=
  match level, preExisting with
  | 0, false => "COMMIT"
  | _, _ => "RELEASE SAVEPOINT " ++ savepoint level
  end.

Definition on_error (level : nat) (preExisting : bool) : string :=
  match level, preExisting with
  | 0, false => "ROLLBACK"
  | _, _ => "ROLLBACK TO SAVEPOINT " ++ savepoint level
  end.

Section Protocol.
Import Conn.
Local Open Scope list_scope.
Variable server : Server.

(** What one call [run] does on the connection, for the statements [enter],
    [commit] and [rollback] and the callback [body] already applied to its
    client: [enter] is sent first; when the server accepts it the callback
    runs; when the callback returns, [commit] is sent, and [rollback] after
    it if the server refuses [commit]; when the callback throws, [rollback]
    is sent and the callback's error is rethrown. *)
Definition runs_as {T} (enter commit rollback : string) (body run : M T)
    (h : list Query) : Prop :=
  match server h (stmt enter) with
  | Threw e => run h = (Threw e, [stmt enter])
  | Returned _ =>
      match body (h ++ [stmt enter]) with
      | (Returned v, sent) =>
          match server (h ++ stmt enter :: sent) (stmt commit) with
          | Returned _ =>
              run h = (Returned v, stmt enter :: sent ++ [stmt commit])
          | Threw e =>
              run h
              = (Threw e, stmt enter :: sent ++ [stmt commit; stmt rollback])
          end
      | (Threw e, sent) =>
          run h = (Threw e, stmt enter :: sent ++ [stmt rollback])
      end
  end.

(** The shape the adaptors share: a statement on entry, the callback, a
    statement on success, and on error a statement whose own failure is
    swallowed before the error is rethrown. *)
Definition bracket {T} (enter commit rollback : string) (body : M T) : M T :=
  bind (query server (stmt enter)) (fun _ =>
  try_catch
    (bind body (fun result =>
     bind (query server (stmt commit)) (fun _ => ret result)))
    (fun e =>
       bind (try_catch (bind (query server (stmt rollback)) (fun _ => ret tt))
                       (fun _ => ret tt))
            (fun _ => throw e))).

Variable Client : Type.
Variable level : Client -> nat.
Variable preExisting : Client -> bool.
Variable with_transaction : forall T, Client -> (Client -> M T) -> M T.

(** Every call follows the table, up to the letter case of the statements,
    and its callback runs one level deeper. *)
Definition follows_table : Prop :=
  forall T (c : Client) (callback : Client -> M T) (h : list Query),
  exists (enter commit rollback : string) (inner : Client),
    same_sql enter (on_enter (level c) (preExisting c)) /\
    same_sql commit (on_commit (level c) (preExisting c)) /\
    same_sql rollback (on_error (level c) (preExisting c)) /\
    level inner = level c + 1 /\
    preExisting inner = preExisting c /\
    runs_as enter commit rollback (callback inner)
      (with_transaction T c callback) h.

End Protocol.
End TransactionTable.


(** ** What an envelope sends itself *)

Module Envelope.
Import Conn.
Local Open Scope list_scope.

(** A statement that calls [set_config], in either letter case. *)
Definition is_set_config (q : Query) : bool :=
  String.prefix "select set_config(" (lower (text q)).

(** The bound parameter the adaptors build from [entries]. *)
Definition payload (entries : list (string * string)) : list JsValue :=
  [JString (JSON_stringify (entries_json entries))].

(** The statements with which the PGlite adaptor reads the current value of
    every setting it is about to change. *)
Definition current_setting_probes (pgSettings : list (string * option string))
  : list Query :=
  map (fun kv => mkQuery PGlite.current_setting_text [JString (fst kv)])
      (pgSettingsEntries pgSettings).

(** Every statement that [run] sends itself, before and after the callback
    (or without reaching it), satisfies [P]; the statements of the callback
    are the callback's. *)
Definition own_statements {C T A} (P : Query -> Prop) (run : M A)
    (callback : C -> M T) (h : list Query) : Prop :=
  exists pre post : list Query,
    Forall P pre /\ Forall P post /\
    (snd (run h) = pre ++ post \/
     exists client : C,
       snd (run h) = pre ++ snd (callback client (h ++ pre)) ++ post).

(** [m] sends only statements that satisfy [P]. *)
Definition quiet {A} (P : Query -> Prop) (m : M A) : Prop :=
  forall h, Forall P (snd (m h)).

(** [own_statements] from every starting point. *)
Definition own {C T A} (P : Query -> Prop) (callback : C -> M T) (m : M A)
  : Prop :=
  forall h, own_statements P m callback h.

(** A [set_config] statement carries one parameter, the JSON array of a
    non-empty list of pairs whose keys [pgSettings] binds to a value. *)
Definition carries_bound_keys (pgSettings : list (string * option string))
    (q : Query) : Prop :=
  is_set_config q = true ->
  exists entries : list (string * string),
    entries <> [] /\
    values q = payload entries /\
    forall key value, In (key, value) entries ->
      exists bound, In (key, Some bound) pgSettings.

(** A server that accepts every statement, whatever it answers. *)
Definition obliging (server : Server) : Prop :=
  forall h q, exists rows, server h q = Returned rows.

(** A server that accepts every statement and answers [value] when asked
    for the current value of a setting. *)
Definition answering (value : option string) : Server :=
  fun _ q =>
    if String.eqb (text q) PGlite.current_setting_text
    then Returned [[("value", value)]]
    else Returned [].

(** The [RESET] of a setting, its name between double quotes with every
    double quote doubled. *)
Definition reset_statement (key : string) : Query :=
  let quote := ascii_of_nat 34 in
  stmt ("RESET "
          ++ String quote
               (replace_all quote (String quote (String quote EmptyString)) key
                  ++ String quote EmptyString)).

(** The settings of [originalSettings] that had no value. *)
Definition without_value (originalSettings : list (string * option string))
  : list string :=
  map fst
    (filter (fun kv => match snd kv with None => true | Some _ => false end)
       originalSettings).

(** The statements that give the settings back what [originalSettings]
    holds: one [set_config] statement for the settings that had a value, if
    there is one, then a [RESET] for each setting that had none. *)
Definition restore_statements (originalSettings : list (string * option string))
  : list Query :=
  match pgSettingsEntries originalSettings with
  | [] => []
  | entries => [mkQuery PGlite.set_config_text (payload entries)]
  end ++ map reset_statement (without_value originalSettings).

End Envelope.

(** ** MD5, as [crypto.createHash("md5")] computes it (RFC 1321) *)

Module Md5.
Local Open Scope Z_scope.

Definition mask32 (x : Z) : Z := x mod 4294967296.

Definition rotl32 (x : Z) (n : Z) : Z :=
  mask32 (Z.lor (Z.shiftl x n) (Z.shiftr x (32 - n))).

Definition not32 (x : Z) : Z := Z.lxor x 4294967295.

(** [floor(2^32 * abs(sin(i + 1)))] for [i] from 0 to 63. *)
Definition K : list Z :=
    [3614090360; 3905402710; 606105819; 3250441966;
     4118548399; 1200080426; 2821735955; 4249261313;
     1770035416; 2336552879; 4294925233; 2304563134;
     1804603682; 4254626195; 2792965006; 1236535329;
     4129170786; 3225465664; 643717713; 3921069994;
     3593408605; 38016083; 3634488961; 3889429448;
     568446438; 3275163606; 4107603335; 1163531501;
     2850285829; 4243563512; 1735328473; 2368359562;
     4294588738; 2272392833; 1839030562; 4259657740;
     2763975236; 1272893353; 4139469664; 3200236656;
     681279174; 3936430074; 3572445317; 76029189;
     3654602809; 3873151461; 530742520; 3299628645;
     4096336452; 1126891415; 2878612391; 4237533241;
     1700485571; 2399980690; 4293915773; 2240044497;
     1873313359; 4264355552; 2734768916; 1309151649;
     4149444226; 3174756917; 718787259; 3951481745].

Definition shifts : list Z :=
    [7; 12; 17; 22; 7; 12; 17; 22; 7; 12; 17; 22; 7; 12; 17; 22; 5; 9; 14; 20; 5; 9; 14; 20; 5; 9; 14; 20; 5; 9; 14; 20; 4; 11; 16; 23; 4; 11; 16; 23; 4; 11; 16; 23; 4; 11; 16; 23; 6; 10; 15; 21; 6; 10; 15; 21; 6; 10; 15; 21; 6; 10; 15; 21].

Definition bytes_of_string (s : string) : list Z :=
  map (fun a => Z.of_nat (nat_of_ascii a)) (list_ascii_of_string s).

(** The eight bytes of a length in bits, least significant first. *)
Definition length_bytes (bits : Z) : list Z :=
  map (fun i => Z.shiftr bits (8 * Z.of_nat i) mod 256) (seq 0 8).

(** The message followed by [0x80], zeros up to 56 modulo 64, and its length. *)
Definition pad (message : list Z) : list Z :=
  let len := length message in
  let zeros := ((64 + 55 - len mod 64) mod 64)%nat in
  (message ++ 128 :: repeat 0 zeros ++ length_bytes (8 * Z.of_nat len))%list.

(** Little-endian 32-bit words. *)
Fixpoint words (bytes : list Z) : list Z :=
  match bytes with
  | b0 :: b1 :: b2 :: b3 :: rest =>
      (b0 + 256 * b1 + 65536 * b2 + 16777216 * b3) :: words rest
  | _ => []
  end.

Record State : Type := mkState { a0 : Z; b0 : Z; c0 : Z; d0 : Z }.

Definition initial : State :=
  mkState 1732584193 4023233417 2562383102 271733878.

Definition round (M : list Z) (st : State) (i : nat) : State :=
  let '(mkState A B C D) := st in
  let '(F, g) :=
    if (i <? 16)%nat then (Z.lor (Z.land B C) (Z.land (not32 B) D), i)
    else if (i <? 32)%nat then
      (Z.lor (Z.land D B) (Z.land (not32 D) C), ((5 * i + 1) mod 16)%nat)
    else if (i <? 48)%nat then
      (Z.lxor (Z.lxor B C) D, ((3 * i + 5) mod 16)%nat)
    else (Z.lxor C (Z.lor B (not32 D)), ((7 * i) mod 16)%nat) in
  let F' := mask32 (F + A + nth i K 0 + nth g M 0) in
  mkState D (mask32 (B + rotl32 F' (nth i shifts 0))) B C.

Definition compress (st : State) (M : list Z) : State :=
  let '(mkState A B C D) := fold_left (round M) (seq 0 64) st in
  mkState (mask32 (a0 st + A)) (mask32 (b0 st + B))
          (mask32 (c0 st + C)) (mask32 (d0 st + D)).

Fixpoint process (fuel : nat) (ws : list Z) (st : State) : State :=
  match fuel, ws with
  | S fuel', _ :: _ => process fuel' (skipn 16 ws) (compress st (firstn 16 ws))
  | _, _ => st
  end.

Definition hex_char (n : Z) : ascii :=
  if n <? 10 then ascii_of_nat (Z.to_nat (48 + n))
  else ascii_of_nat (Z.to_nat (87 + n)).

Definition hex_byte (b : Z) : string :=
  String (hex_char (b / 16)) (String (hex_char (b mod 16)) EmptyString).

Definition hex_word (w : Z) : string :=
  (hex_byte (w mod 256) ++ hex_byte (Z.shiftr w 8 mod 256) ++
   hex_byte (Z.shiftr w 16 mod 256) ++ hex_byte (Z.shiftr w 24 mod 256))%string.

(** [crypto.createHash("md5").update(s).digest("hex")] *)
Definition md5_hex (s : string) : string :=
  let ws := words (pad (bytes_of_string s)) in
  let '(mkState A B C D) := process (length ws) ws initial in
  (hex_word A ++ hex_word B ++ hex_word C ++ hex_word D)%string.

End Md5.

(** ** JavaScript [Map] with string keys: entries in insertion order *)

Module JsMap.
Local Open Scope list_scope.

Section MapOps.
Context {V : Type}.

Fixpoint map_get (key : string) (m : list (string * V)) : option V :=
  match m with
  | [] => None
  | (k, v) :: rest => if String.eqb k key then Some v else map_get key rest
  end.

(** [m.set(key, value)]: a present key keeps its place, a new one goes last. *)
Fixpoint map_set (key : string) (value : V) (m : list (string * V))
  : list (string * V) :=
  match m with
  | [] => [(key, value)]
  | (k, v) :: rest =>
      if String.eqb k key then (k, value) :: rest
      else (k, v) :: map_set key value rest
  end.

Fixpoint map_delete (key : string) (m : list (string * V)) : list (string * V) :=
  match m with
  | [] => []
  | (k, v) :: rest =>
      if String.eqb k key then rest else (k, v) :: map_delete key rest
  end.

End MapOps.

End JsMap.

(** ** The LRU prepared-statement manager *)

Module Lru.
Export JsMap.
Local Open Scope list_scope.

Record PreparedStatement : Type := mkStatement {
  name : string;
  text : string;
  paramCount : nat
}.


(** *** The bounded LRU map *)

(** Modelled from the spec: the class [LRU] of package [@graphile/lru],
    which the sources import and do not contain.  Section 3 calls it the
    bounded LRU map of a connection state; section 4.4 has a lookup touch it
    (the source's [state.lru.get(key)] under the comment "Update LRU") and an
    insertion into a full map make the least recently used key fall out.
    Entries are kept most recently used first; [set] on a present key
    replaces its value where it stands. *)
Definition LRU : Type := list (string * PreparedStatement).

Definition lru_get (key : string) (lru : LRU) : option PreparedStatement * LRU :=
  match map_get key lru with
  | Some v => (Some v, (key, v) :: map_delete key lru)
  | None => (None, lru)
  end.

Definition lru_set (maxLength : nat) (key : string) (value : PreparedStatement)
    (lru : LRU) : LRU :=
  match map_get key lru with
  | Some _ => map_set key value lru
  | None =>
      if (length lru =? maxLength)%nat then (key, value) :: removelast lru
      else (key, value) :: lru
  end.

Record ConnectionState : Type := mkState {
  lru : LRU;
  statements : list (string * PreparedStatement);
  counter : nat
}.

(** [generateStatementKey] *)
Definition generateStatementKey (text : string) (paramCount : nat) : string :=
  let hash := Md5.md5_hex (text ++ ":" ++ string_of_nat paramCount) in
  String.substring 0 16 hash.

(** [formatValue] *)
Fixpoint formatValue (value : JsValue) : string :=
  match value with
  | JNull => "NULL"
  | JString s => "'" ++ replace_all "'"%char "''" s ++ "'"
  | JBool b => if b then "TRUE" else "FALSE"
  | JDate iso => "'" ++ iso ++ "'"
  | JArray items => "ARRAY[" ++ String.concat "," (map formatValue items) ++ "]"
  | JObject json => "'" ++ replace_all "'"%char "''" json ++ "'::jsonb"
  | JOther str => str
  end%string.

(** *** Executors and results *)

(** One call [executor(text, values)]; [sent_values] is [None] when the
    second argument is left out. *)
Record Call : Type := mkCall {
  sent_text : string;
  sent_values : option (list JsValue)
}.

Definition Row : Type := list (string * JsValue).

Record QueryResult : Type := mkQueryResult {
  rows : list Row;
  count : option Z;
  rowCount : option Z;
  affectedRows : option Z
}.

(** The executor handed to the manager: how a call settles, given the calls
    made before it. *)
Definition QueryExecutor : Type := list Call -> Call -> Outcome QueryResult.

(** A row as the manager returns it: the driver's object, or
    [Object.values(row)] in array mode. *)
Inductive ResultRow : Type :=
| AsObject (row : Row)
| AsArray (cells : list JsValue).

Record Result : Type := mkResult {
  result_rows : list ResultRow;
  result_rowCount : option Z
}.

(** [a ?? b] *)
Definition orElse {A} (a b : option A) : option A :=
  match a with
  | Some _ => a
  | None => b
  end.

Definition to_result (arrayMode : bool) (result : QueryResult) : Result :=
  mkResult
    (if arrayMode then map (fun row => AsArray (map snd row)) (rows result)
     else map AsObject (rows result))
    (orElse (count result) (orElse (rowCount result) (affectedRows result))).

Definition to_outcome (arrayMode : bool) (r : Outcome QueryResult)
  : Outcome Result :=
  match r with
  | Returned result => Returned (to_result arrayMode result)
  | Threw e => Threw e
  end.

(** *** The two process-wide tables and the world of the manager *)

Inductive ClientKey : Type :=
| StringKey (s : string)
| ObjectKey (identity : nat).

(** [connectionStates] is the [WeakMap] of the object keys that are alive,
    [stringKeyStates] the [Map] of the string keys, oldest first. *)
Record Tables : Type := mkTables {
  connectionStates : list (nat * ConnectionState);
  stringKeyStates : list (string * ConnectionState)
}.

(** [log] holds the executor calls made so far, [draws] counts the calls of
    [Math.random()]. *)
Record World : Type := mkWorld {
  tables : Tables;
  log : list Call;
  draws : nat
}.

Definition empty_world : World := mkWorld (mkTables [] []) [] 0.

Fixpoint weak_get (identity : nat) (m : list (nat * ConnectionState))
  : option ConnectionState :=
  match m with
  | [] => None
  | (k, v) :: rest => if (k =? identity)%nat then Some v else weak_get identity rest
  end.

Fixpoint weak_set (identity : nat) (value : ConnectionState)
    (m : list (nat * ConnectionState)) : list (nat * ConnectionState) :=
  match m with
  | [] => [(identity, value)]
  | (k, v) :: rest =>
      if (k =? identity)%nat then (k, value) :: rest
      else (k, v) :: weak_set identity value rest
  end.

Fixpoint weak_delete (identity : nat) (m : list (nat * ConnectionState))
  : list (nat * ConnectionState) :=
  match m with
  | [] => []
  | (k, v) :: rest =>
      if (k =? identity)%nat then rest else (k, v) :: weak_delete identity rest
  end.

(** [storage.get(clientKey)] *)
Definition storage_get (clientKey : ClientKey) (t : Tables)
  : option ConnectionState :=
  match clientKey with
  | StringKey s => map_get s (stringKeyStates t)
  | ObjectKey o => weak_get o (connectionStates t)
  end.

(** [storage.set(clientKey, state)] *)
Definition storage_set (clientKey : ClientKey) (state : ConnectionState)
    (t : Tables) : Tables :=
  match clientKey with
  | StringKey s => mkTables (connectionStates t) (map_set s state (stringKeyStates t))
  | ObjectKey o => mkTables (weak_set o state (connectionStates t)) (stringKeyStates t)
  end.

(** [storage.delete(clientKey)] *)
Definition storage_delete (clientKey : ClientKey) (t : Tables) : Tables :=
  match clientKey with
  | StringKey s => mkTables (connectionStates t) (map_delete s (stringKeyStates t))
  | ObjectKey o => mkTables (weak_delete o (connectionStates t)) (stringKeyStates t)
  end.

(** The state object is mutated in place: a change shows in the table as
    long as the table still holds the object under [clientKey]. *)
Definition write_back (clientKey : ClientKey) (state : ConnectionState)
    (t : Tables) : Tables :=
  match storage_get clientKey t with
  | Some _ => storage_set clientKey state t
  | None => t
  end.

(** [getConnectionState] *)
Definition getConnectionState (clientKey : ClientKey) (t : Tables)
  : ConnectionState * Tables :=
  match storage_get clientKey t with
  | Some state => (state, t)
  | None =>
      let state := mkState [] [] 0 in
      (state, storage_set clientKey state t)
  end.

(** [cleanupStringStates] *)
Definition cleanupStringStates (t : Tables) : Tables :=
  if (100 <? length (stringKeyStates t))%nat then
    match stringKeyStates t with
    | (oldestKey, _) :: _ =>
        mkTables (connectionStates t) (map_delete oldestKey (stringKeyStates t))
    | [] => t
    end
  else t.

(** *** The manager *)

Section Manager.
(** The arguments of [createLRUPreparedStatementManager], the identifier it
    draws for itself, and the outcomes of [Math.random() < 0.01], call by
    call. *)
Variable maxPreparedStatements : nat.
Variable statementPrefix : string.
Variable managerId : string.
Variable lucky : nat -> bool.

Definition record_call (call : Call) (w : World) : World :=
  mkWorld (tables w) (log w ++ [call]) (draws w).

Definition with_tables (t : Tables) (w : World) : World :=
  mkWorld t (log w) (draws w).

(** The [finally] block of [executeQuery]. *)
Definition finally_block (clientKey : ClientKey) (w : World) : World :=
  match clientKey with
  | StringKey _ =>
      let w' := mkWorld (tables w) (log w) (draws w + 1) in
      if lucky (draws w) then with_tables (cleanupStringStates (tables w')) w'
      else w'
  | ObjectKey _ => w
  end.

(** A caller that has returned the promise of this call from inside its
    [try] runs its own [finally] block as soon as this call reaches its
    first [await]. *)
Definition run_pending (pending : bool) (clientKey : ClientKey) (w : World)
  : World :=
  if pending then finally_block clientKey w else w.

(** The scan for the statement to evict: the statements in insertion order,
    each looked up in the LRU with [get]. *)
Fixpoint evict_scan (remaining : list (string * PreparedStatement)) (l : LRU)
  : option (string * PreparedStatement) * LRU :=
  match remaining with
  | [] => (None, l)
  | (k, v) :: rest =>
      match lru_get k l with
      | (Some _, l') => evict_scan rest l'
      | (None, l') => (Some (k, v), l')
      end
  end.

(** "Check if we need to evict": the state after the check and the call it
    made, if any. *)
Definition evict (state : ConnectionState)
  : ConnectionState * option Call :=
  if (maxPreparedStatements <? length (statements state))%nat then
    match evict_scan (statements state) (lru state) with
    | (Some (k, v), l) =>
        (mkState l (map_delete k (statements state)) (counter state),
         Some (mkCall ("DEALLOCATE " ++ name v) None))
    | (None, l) => (mkState l (statements state) (counter state), None)
    end
  else (state, None).

Definition falsy (queryName : option string) : bool :=
  match queryName with
  | None => true
  | Some s => String.eqb s ""
  end.

Definition does_not_exist (err : JsError) : bool :=
  match message err with
  | Some m => includes m "does not exist"
  | None => false
  end.

Definition execute_text (stmt : PreparedStatement) (values : list JsValue)
  : string :=
  if (0 <? length values)%nat then
    "EXECUTE " ++ name stmt ++ "(" ++ String.concat ", " (map formatValue values) ++ ")"
  else "EXECUTE " ++ name stmt.

(** "Execute prepared statement": the [try], its [catch] and its [finally].
    [retry] is the recursive call [this.executeQuery(...)], whose promise is
    returned without being awaited. *)
Definition execute_step
    (retry : World -> option (Outcome Result * World))
    (executor : QueryExecutor) (pending : bool) (clientKey : ClientKey)
    (state : ConnectionState) (key : string) (stmt : PreparedStatement)
    (values : list JsValue) (arrayMode : bool) (w : World)
  : option (Outcome Result * World) :=
  let call := mkCall (execute_text stmt values) None in
  let answer := executor (log w) call in
  let w1 := run_pending pending clientKey (record_call call w) in
  match answer with
  | Returned result =>
      let w2 := with_tables (write_back clientKey state (tables w1)) w1 in
      Some (Returned (to_result arrayMode result), finally_block clientKey w2)
  | Threw err =>
      if does_not_exist err then
        let state' :=
          mkState (lru state) (map_delete key (statements state)) (counter state) in
        retry (with_tables (write_back clientKey state' (tables w1)) w1)
      else
        let w2 := with_tables (write_back clientKey state (tables w1)) w1 in
        Some (Threw err, finally_block clientKey w2)
  end.

(** [executeQuery]; [fuel] bounds the depth of the recursive retries, and
    the result is [None] when it does not suffice. *)
Fixpoint executeQuery (fuel : nat) (pending : bool) (clientKey : ClientKey)
    (queryName : option string) (queryText : string) (values : list JsValue)
    (executor : QueryExecutor) (arrayMode : bool) (w : World)
  : option (Outcome Result * World) :=
  match fuel with
  | 0 => None
  | S fuel' =>
      if falsy queryName || (length values =? 0)%nat then
        let call := mkCall queryText (Some values) in
        let answer := executor (log w) call in
        let w1 := run_pending pending clientKey (record_call call w) in
        Some (to_outcome arrayMode answer, w1)
      else
        let (state, t) := getConnectionState clientKey (tables w) in
        let w0 := with_tables t w in
        let key := generateStatementKey queryText (length values) in
        match map_get key (statements state) with
        | None =>
            let stmtName :=
              (statementPrefix ++ "_" ++ managerId ++ "_"
                 ++ string_of_nat (counter state))%string in
            let state1 := mkState (lru state) (statements state) (counter state + 1) in
            let prepare :=
              mkCall ("PREPARE " ++ stmtName ++ " AS " ++ queryText) None in
            let prepared := executor (log w0) prepare in
            let w1 := run_pending pending clientKey (record_call prepare w0) in
            match prepared with
            | Returned _ =>
                let stmt := mkStatement stmtName queryText (length values) in
                let state2 :=
                  mkState (lru_set maxPreparedStatements key stmt (lru state1))
                          (map_set key stmt (statements state1))
                          (counter state1) in
                let (state3, deallocate) := evict state2 in
                let w2 :=
                  match deallocate with
                  | Some call => record_call call w1
                  | None => w1
                  end in
                execute_step
                  (executeQuery fuel' true clientKey queryName queryText values
                     executor arrayMode)
                  executor false clientKey state3 key stmt values arrayMode w2
            | Threw err =>
                let direct := mkCall queryText (Some values) in
                let answer := executor (log w1) direct in
                let w2 := with_tables (write_back clientKey state1 (tables w1)) w1 in
                Some (to_outcome arrayMode answer, record_call direct w2)
            end
        | Some stmt =>
            let state1 :=
              mkState (snd (lru_get key (lru state))) (statements state)
                      (counter state) in
            execute_step
              (executeQuery fuel' true clientKey queryName queryText values
                 executor arrayMode)
              executor pending clientKey state1 key stmt values arrayMode w0
        end
  end.

(** [cleanupConnection]: a [DEALLOCATE] for every statement of the state,
    failures logged and passed over. *)
Definition cleanupConnection (clientKey : ClientKey) (w : World) : World :=
  match storage_get clientKey (tables w) with
  | Some state =>
      let calls :=
        map (fun kv => mkCall ("DEALLOCATE " ++ name (snd kv)) None)
            (statements state) in
      mkWorld (storage_delete clientKey (tables w)) (log w ++ calls) (draws w)
  | None => w
  end.

(** [cleanupAll]: a [DEALLOCATE] for every statement of every string-keyed
    state, failures logged and passed over, then [stringKeyStates.clear()];
    the [WeakMap] of the object keys cannot be iterated and is left as it
    is. *)
Definition cleanupAll (w : World) : World :=
  let calls :=
    flat_map
      (fun entry =>
         map (fun kv => mkCall ("DEALLOCATE " ++ name (snd kv)) None)
             (statements (snd entry)))
      (stringKeyStates (tables w)) in
  mkWorld (mkTables (connectionStates (tables w)) []) (log w ++ calls) (draws w).

(** One value of the map that [getStats] returns; [stats_statements] is its
    property [statements]. *)
Record Stats : Type := mkStats {
  lruSize : nat;
  maxSize : nat;
  stats_statements : list string
}.

(** [getStats]: an entry for every string key, none for the object keys. *)
Definition getStats (w : World) : list (string * Stats) :=
  fold_left
    (fun stats entry =>
       map_set (fst entry)
         (mkStats (length (lru (snd entry))) maxPreparedStatements
            (map fst (statements (snd entry))))
         stats)
    (stringKeyStates (tables w)) [].

(** One call of [executeQuery] from outside the manager. *)
Record Request : Type := mkRequest {
  clientKey : ClientKey;
  queryName : option string;
  queryText : string;
  values : list JsValue;
  arrayMode : bool
}.

(** A sequence of calls, each awaited before the next is made; [None] when
    one of them does not complete within [fuel] nested retries. *)
Fixpoint run (fuel : nat) (executor : QueryExecutor) (requests : list Request)
    (w : World) : option World :=
  match requests with
  | [] => Some w
  | r :: rest =>
      match executeQuery fuel false (clientKey r) (queryName r) (queryText r)
              (values r) executor (arrayMode r) w with
      | Some (_, w') => run fuel executor rest w'
      | None => None
      end
  end.

End Manager.

(** An executor that accepts every call and returns no row. *)
Definition accepting : QueryExecutor :=
  fun _ _ => Returned (mkQueryResult [] None None None).

(** An executor that refuses the first [EXECUTE] it receives with the error
    [err] and accepts every other call. *)
Definition losing_once (err : JsError) : QueryExecutor :=
  fun history call =>
    if String.prefix "EXECUTE" (sent_text call)
       && negb (existsb (fun c => String.prefix "EXECUTE" (sent_text c)) history)
    then Threw err
    else Returned (mkQueryResult [] None None None).

(** A world whose only connection, ["pglite-static"], holds the prepared
    statement of [select $1] with one value, and no executor call yet. *)
Definition one_statement_world : World :=
  let key := generateStatementKey "select $1" 1 in
  let stmt := mkStatement "pglite_abc123_0" "select $1" 1 in
  mkWorld
    (mkTables [] [("pglite-static", mkState [(key, stmt)] [(key, stmt)] 1)])
    [] 0.

(** A named query with one value on the connection [clientKey]. *)
Definition named_query (clientKey : string) (queryText : string) : Request :=
  mkRequest (StringKey clientKey) (Some "q") queryText [JOther "1"] false.


(** [Math.random()] never below 0.01. *)
Definition never_lucky : nat -> bool := fun _ => false.


(** An executor that refuses every [PREPARE] with the error [err] and
    accepts every other call. *)
Definition refusing_prepare (err : JsError) : QueryExecutor :=
  fun _ call =>
    if String.prefix "PREPARE" (sent_text call) then Threw err
    else Returned (mkQueryResult [] None None None).

(** Five named queries on one connection: Q1, Q2, Q1 again, Q3, Q4. *)
Definition five_queries : list Request :=
  map (named_query "pglite-static")
    ["select 1 where $1 = 1"; "select 2 where $1 = 1"; "select 1 where $1 = 1";
     "select 3 where $1 = 1"; "select 4 where $1 = 1"].

(** The statement key of a request. *)
Definition key_of (r : Request) : string :=
  generateStatementKey (queryText r) (length (values r)).

(** The statement keys a state holds, in insertion order. *)
Definition statement_keys (state : ConnectionState) : list string :=
  map fst (statements state).

(** The shape [executeQuery] keeps: statement keys are distinct, and
    neither the statement map nor the LRU holds more than [bound] entries. *)
Definition state_ok (bound : nat) (state : ConnectionState) : Prop :=
  NoDup (statement_keys state) /\
  length (statements state) <= bound /\
  length (lru state) <= bound.

Definition tables_ok (bound : nat) (t : Tables) : Prop :=
  Forall (fun kv => state_ok bound (snd kv)) (stringKeyStates t) /\
  Forall (fun kv => state_ok bound (snd kv)) (connectionStates t).

Definition world_ok (bound : nat) (w : World) : Prop :=
  tables_ok bound (tables w).

(** The name of the statement number [i] of a manager:
    [`${statementPrefix}_${managerId}_${i}`]. *)
Definition statement_name (statementPrefix managerId : string) (i : nat)
  : string :=
  (statementPrefix ++ "_" ++ managerId ++ "_" ++ string_of_nat i)%string.




(** The tables are maps: no key occurs twice. *)
Definition distinct_keys (t : Tables) : Prop :=
  NoDup (map fst (stringKeyStates t)) /\ NoDup (map fst (connectionStates t)).

(** The [DEALLOCATE] calls for the statements of a state, in insertion
    order. *)
Definition deallocations (state : ConnectionState) : list Call :=
  map (fun kv => mkCall ("DEALLOCATE " ++ name (snd kv)) None) (statements state).

(** The direct call of a request: its text with its values. *)
Definition direct_call (r : Request) : Call :=
  mkCall (queryText r) (Some (values r)).

(** The calls of [w'] are those of [w] followed by others. *)
Definition extends (w w' : World) : Prop := exists l, log w' = log w ++ l.

(** The [n] keys used last in [uses] (oldest use first), last used first. *)
Fixpoint most_recent (n : nat) (uses : list string) : list string :=
  match n with
  | 0 => []
  | S n' =>
      match rev uses with
      | [] => []
      | k :: _ =>
          k :: most_recent n' (filter (fun k' => negb (String.eqb k' k)) uses)
      end
  end.

End Lru.

(** ** The LISTEN/NOTIFY subscriber *)

Module Subscriber.
Import JsMap.
Local Open Scope list_scope.

(** *** JavaScript objects used as maps: keys in property order *)

(** The array index a property name denotes, if it is one: a canonical
    decimal numeral below [2^32 - 1]. *)
Definition array_index (key : string) : option N :=
  match NilEmpty.uint_of_string key with
  | Some u =>
      let n := N.of_uint u in
      if String.eqb (NilEmpty.string_of_uint (N.to_uint n)) key
         && (n <? 4294967295)%N
      then Some n else None
  | None => None
  end.

Section Objects.
Context {V : Type}.

Fixpoint obj_get (key : string) (o : list (string * V)) : option V :=
  match o with
  | [] => None
  | (k, v) :: rest => if String.eqb k key then Some v else obj_get key rest
  end.

(** Where a new property goes: array indices first, in ascending order,
    then the other names in order of creation. *)
Fixpoint obj_insert (key : string) (value : V) (o : list (string * V))
  : list (string * V) :=
  match o with
  | [] => [(key, value)]
  | (k, v) :: rest =>
      match array_index key, array_index k with
      | Some n, Some m =>
          if (n <? m)%N then (key, value) :: o
          else (k, v) :: obj_insert key value rest
      | Some _, None => (key, value) :: o
      | None, _ => (k, v) :: obj_insert key value rest
      end
  end.

Fixpoint obj_replace (key : string) (value : V) (o : list (string * V))
  : list (string * V) :=
  match o with
  | [] => []
  | (k, v) :: rest =>
      if String.eqb k key then (k, value) :: rest
      else (k, v) :: obj_replace key value rest
  end.

(** [o[key] = value] *)
Definition obj_set (key : string) (value : V) (o : list (string * V))
  : list (string * V) :=
  match obj_get key o with
  | Some _ => obj_replace key value o
  | None => obj_insert key value o
  end.

(** [delete o[key]] *)
Fixpoint obj_delete (key : string) (o : list (string * V)) : list (string * V) :=
  match o with
  | [] => []
  | (k, v) :: rest =>
      if String.eqb k key then rest else (k, v) :: obj_delete key rest
  end.

End Objects.

(** *** State *)

(** The identity of an unlisten function a pool has returned. *)
Definition Handle : Type := nat.

(** What a parked [next()] is resolved with: a payload, by [recv], or the
    [finished] result, by [doFinally]. *)
Inductive Delivered : Type :=
| Payload (payload : option string)
| Finished (value : option JsValue).

(** The closure of one iterator returned by [subscribe]. *)
Record Consumer : Type := mkConsumer {
  topicString : string;
  stack : list (option string);
  queue : list nat;
  finished : option (option JsValue)
}.

Record PgSubscriber : Type := mkSubscriber {
  topics : list (string * list nat);
  listeners : list (string * nat);
  alive : bool;
  unlisteners : list (string * Handle);
  consumers : list (nat * Consumer);
  deferreds : nat
}.

(** What the subscriber does to the world around it, in order. *)
Inductive Effect : Type :=
| PoolListen (topic : string)
| UnlistenCalled (topic : string) (handle : Handle)
| Resolved (deferred : nat) (value : Delivered)
| ReturnCalled (consumer : nat).

Record World : Type := mkWorld {
  subscriber : PgSubscriber;
  effects : list Effect
}.

Definition fresh : World := mkWorld (mkSubscriber [] [] true [] [] 0) [].

Fixpoint consumer_get (c : nat) (m : list (nat * Consumer)) : option Consumer :=
  match m with
  | [] => None
  | (k, v) :: rest => if (k =? c)%nat then Some v else consumer_get c rest
  end.

Fixpoint consumer_set (c : nat) (value : Consumer) (m : list (nat * Consumer))
  : list (nat * Consumer) :=
  match m with
  | [] => [(c, value)]
  | (k, v) :: rest =>
      if (k =? c)%nat then (k, value) :: rest
      else (k, v) :: consumer_set c value rest
  end.

(** [array.indexOf(c)] followed by [array.splice(idx, 1)], when found. *)
Fixpoint remove_first (c : nat) (array : list nat) : option (list nat) :=
  match array with
  | [] => None
  | x :: rest =>
      if (x =? c)%nat then Some rest
      else option_map (cons x) (remove_first c rest)
  end.

(** The properties every object inherits from [Object.prototype]:
    [this.topics[name]] is a function or an object for these names even
    when no topic of that name has been stored. *)
Definition inherited (name : string) : bool :=
  existsb (String.eqb name)
    ["constructor"; "__defineGetter__"; "__defineSetter__"; "hasOwnProperty";
     "__lookupGetter__"; "__lookupSetter__"; "isPrototypeOf";
     "propertyIsEnumerable"; "toString"; "valueOf"; "__proto__";
     "toLocaleString"].

Definition set_subscriber (s : PgSubscriber) (w : World) : World :=
  mkWorld s (effects w).

Definition emit (e : Effect) (w : World) : World :=
  mkWorld (subscriber w) (effects w ++ [e]).

Definition set_topics (t : list (string * list nat)) (s : PgSubscriber)
  : PgSubscriber :=
  mkSubscriber t (listeners s) (alive s) (unlisteners s) (consumers s)
    (deferreds s).

Definition set_unlisteners (u : list (string * Handle)) (s : PgSubscriber)
  : PgSubscriber :=
  mkSubscriber (topics s) (listeners s) (alive s) u (consumers s) (deferreds s).

Definition set_consumer (c : nat) (con : Consumer) (s : PgSubscriber)
  : PgSubscriber :=
  mkSubscriber (topics s) (listeners s) (alive s) (unlisteners s)
    (consumer_set c con (consumers s)) (deferreds s).

(** What [next()] gives its caller: a value, the [finished] result, or a
    promise that a later [recv] or [doFinally] resolves. *)
Inductive NextResult : Type :=
| Value (payload : option string)
| Done (value : option JsValue)
| Parked (deferred : nat)
| NoSuchConsumer.

Inductive Op : Type :=
| Subscribe (topic : string)
| Next (consumer : nat)
| Return (consumer : nat) (value : option JsValue)
| Throw (consumer : nat)
| Notify (topic : string) (payload : option string)
| Release.


Section WithPool.
(** The pool: how [pgPool.listen(topic, ...)] settles and how a call of an
    unlisten function settles, given what has happened so far. *)
Variable pool_listen : list Effect -> string -> Outcome Handle.
Variable run_unlisten : list Effect -> Handle -> Outcome unit.

(** The private method [listen]: the pool is called at once; the entry is
    stored when the call has settled. *)
Definition listen (topic : string) (w : World) : World :=
  let answer := pool_listen (effects w) topic in
  let w1 := emit (PoolListen topic) w in
  match answer with
  | Returned unlisten =>
      set_subscriber
        (set_unlisteners (map_set topic unlisten (unlisteners (subscriber w1)))
           (subscriber w1)) w1
  | Threw _ => w1
  end.

(** The private method [unlisten] up to its [await]: the stored function,
    if there is one, is called. *)
Definition unlisten_call (topic : string) (w : World)
  : option (Outcome unit) * World :=
  match map_get topic (unlisteners (subscriber w)) with
  | Some unlisten =>
      (Some (run_unlisten (effects w) unlisten),
       emit (UnlistenCalled topic unlisten) w)
  | None => (None, w)
  end.

(** The rest of [unlisten], once the call has settled: the entry is deleted
    when the call has succeeded. *)
Definition unlisten_settle (pending : option (string * Outcome unit))
    (w : World) : World :=
  match pending with
  | Some (topic, Returned _) =>
      set_subscriber
        (set_unlisteners (map_delete topic (unlisteners (subscriber w)))
           (subscriber w)) w
  | _ => w
  end.

(** [doFinally] of the iterator [c]: the world after it, and the call of
    [unlisten] it has left unsettled, if any. *)
Definition doFinally (c : nat) (value : option JsValue) (w : World)
  : World * option (string * Outcome unit) :=
  let s := subscriber w in
  match consumer_get c (consumers s) with
  | None => (w, None)
  | Some con =>
      match finished con with
      | Some _ => (w, None)
      | None =>
          let topic := topicString con in
          let con' := mkConsumer topic (stack con) [] (Some value) in
          let w1 :=
            fold_left (fun w' p => emit (Resolved p (Finished value)) w')
              (queue con) w in
          let s1 :=
            mkSubscriber (topics s)
              (filter (fun l => negb (String.eqb (fst l) topic && (snd l =? c)%nat))
                 (listeners s))
              (alive s) (unlisteners s) (consumer_set c con' (consumers s))
              (deferreds s) in
          match obj_get topic (topics s) with
          | Some array =>
              match remove_first c array with
              | Some [] =>
                  let w2 :=
                    set_subscriber (set_topics (obj_delete topic (topics s)) s1) w1 in
                  match unlisten_call topic w2 with
                  | (Some answer, w3) => (w3, Some (topic, answer))
                  | (None, w3) => (w3, None)
                  end
              | Some array' =>
                  (set_subscriber
                     (set_topics (obj_replace topic array' (topics s)) s1) w1,
                   None)
              | None => (set_subscriber s1 w1, None)
              end
          | None => (set_subscriber s1 w1, None)
          end
      end
  end.

(** [subscribe] *)
Definition subscribe (topic : string) (w : World) : Outcome nat * World :=
  let s := subscriber w in
  if negb (alive s) then
    (Threw (Error "This PgSubscriber has been released."), w)
  else
    let c := length (consumers s) in
    let s1 :=
      mkSubscriber (topics s) (listeners s ++ [(topic, c)]) (alive s)
        (unlisteners s) (consumers s ++ [(c, mkConsumer topic [] [] None)])
        (deferreds s) in
    match obj_get topic (topics s) with
    | Some array =>
        (Returned c,
         set_subscriber
           (set_topics (obj_replace topic (array ++ [c]) (topics s)) s1) w)
    | None =>
        if inherited topic then
          (Threw (Error "this.topics[topic].push is not a function"),
           set_subscriber s1 w)
        else
          (Returned c,
           listen topic
             (set_subscriber (set_topics (obj_set topic [c] (topics s)) s1) w))
    end.

(** [next] of the iterator [c] *)
Definition next (c : nat) (w : World) : NextResult * World :=
  let s := subscriber w in
  match consumer_get c (consumers s) with
  | None => (NoSuchConsumer, w)
  | Some con =>
      match stack con, finished con with
      | value :: rest, _ =>
          (Value value,
           set_subscriber
             (set_consumer c
                (mkConsumer (topicString con) rest (queue con) (finished con)) s)
             w)
      | [], Some value => (Done value, w)
      | [], None =>
          let waiting := deferreds s in
          let s1 :=
            mkSubscriber (topics s) (listeners s) (alive s) (unlisteners s)
              (consumer_set c
                 (mkConsumer (topicString con) [] (queue con ++ [waiting]) None)
                 (consumers s))
              (S waiting) in
          (Parked waiting, set_subscriber s1 w)
      end
  end.

(** [recv] of the iterator [c] *)
Definition recv (c : nat) (payload : option string) (w : World) : World :=
  let s := subscriber w in
  match consumer_get c (consumers s) with
  | None => w
  | Some con =>
      match queue con with
      | first :: rest =>
          emit (Resolved first (Payload payload))
            (set_subscriber
               (set_consumer c
                  (mkConsumer (topicString con) (stack con) rest (finished con)) s)
               w)
      | [] =>
          set_subscriber
            (set_consumer c
               (mkConsumer (topicString con) (stack con ++ [payload]) []
                  (finished con)) s)
            w
      end
  end.

(** A notification of the pool: [eventEmitter.emit(topic, payload)] calls
    the listeners of the topic in the order of their registration. *)
Definition notify (topic : string) (payload : option string) (w : World)
  : World :=
  fold_left
    (fun w' l => if String.eqb (fst l) topic then recv (snd l) payload w' else w')
    (listeners (subscriber w)) w.

(** [return] and [throw] of an iterator, called by a consumer: [doFinally],
    and the rest of the [unlisten] it has started once that has settled. *)
Definition finish (c : nat) (value : option JsValue) (w : World) : World :=
  let (w', pending) := doFinally c value w in
  unlisten_settle pending w'.

(** The inner loop of [release] over the live array [this.topics[topic]]:
    the iterator at index [i] is returned, which may splice it out of the
    array, and the index moves on. *)
Fixpoint return_all (fuel : nat) (topic : string) (i : nat) (w : World)
    (pending : list (string * Outcome unit))
  : World * list (string * Outcome unit) :=
  match fuel with
  | 0 => (w, pending)
  | S fuel' =>
      match obj_get topic (topics (subscriber w)) with
      | Some array =>
          match nth_error array i with
          | Some c =>
              let (w', p) := doFinally c None (emit (ReturnCalled c) w) in
              return_all fuel' topic (S i) w'
                (pending ++ match p with Some x => [x] | None => [] end)
          | None => (w, pending)
          end
      | None => (w, pending)
      end
  end.

(** The outer loop of [release] over [Object.keys(this.topics)]. *)
Fixpoint release_topics (keys : list string) (w : World)
    (pending : list (string * Outcome unit))
  : World * list (string * Outcome unit) :=
  match keys with
  | [] => (w, pending)
  | topic :: rest =>
      let size :=
        match obj_get topic (topics (subscriber w)) with
        | Some array => length array
        | None => 0
        end in
      let (w1, pending1) := return_all size topic 0 w pending in
      let w2 :=
        set_subscriber
          (set_topics (obj_delete topic (topics (subscriber w1))) (subscriber w1))
          w1 in
      release_topics rest w2 pending1
  end.

(** [release].  Up to its first [await] it runs without interruption; the
    calls of [unlisten] that [doFinally] has started settle at that [await],
    which comes after the first entry of [unlisteners] has been called. *)
Definition release (w : World) : Outcome unit * World :=
  let s := subscriber w in
  if alive s then
    let w0 :=
      set_subscriber
        (mkSubscriber (topics s) (listeners s) false (unlisteners s)
           (consumers s) (deferreds s)) w in
    let (w1, pending) := release_topics (map fst (topics s)) w0 [] in
    let w3 :=
      match unlisteners (subscriber w1) with
      | [] => w1
      | (topic, unlisten) :: _ =>
          let w2 :=
            fold_left (fun w' p => unlisten_settle (Some p) w') pending
              (emit (UnlistenCalled topic unlisten) w1) in
          fold_left (fun w' entry => emit (UnlistenCalled (fst entry) (snd entry)) w')
            (map_delete topic (unlisteners (subscriber w2))) w2
      end in
    (Returned tt, set_subscriber (set_unlisteners [] (subscriber w3)) w3)
  else (Returned tt, w).

(** One operation on the subscriber, its result left aside. *)
Definition step (op : Op) (w : World) : World :=
  match op with
  | Subscribe topic => snd (subscribe topic w)
  | Next c => snd (next c w)
  | Return c value => finish c value w
  | Throw c => finish c None w
  | Notify topic payload => notify topic payload w
  | Release => snd (release w)
  end.

Definition run (ops : list Op) (w : World) : World :=
  fold_left (fun w' op => step op w') ops w.

End WithPool.

(** Whether the topic has a list of consumers. *)
Definition has_consumers (topic : string) (s : PgSubscriber) : bool :=
  match obj_get topic (topics s) with
  | Some _ => true
  | None => false
  end.









(** A pool whose [listen] always succeeds, with a new unlisten function
    each time, and whose unlisten functions always succeed. *)
Definition reliable_listen : list Effect -> string -> Outcome Handle :=
  fun history _ => Returned (length history).

Definition reliable_unlisten : list Effect -> Handle -> Outcome unit :=
  fun _ _ => Returned tt.

(** What [next()] settles with. *)
Inductive IteratorValue : Type :=
| PayloadValue (payload : option string)
| ReturnValue (value : option JsValue)
| ResultObject (done : bool) (value : option JsValue).

Record IteratorResult : Type := mkIteratorResult {
  done : bool;
  value : IteratorValue
}.

(** The result of [next()] when it does not have to wait: a buffered
    payload, or the [finished] object. *)
Definition immediate_result (r : NextResult) : option IteratorResult :=
  match r with
  | Value payload => Some (mkIteratorResult false (PayloadValue payload))
  | Done value => Some (mkIteratorResult true (ReturnValue value))
  | Parked _ | NoSuchConsumer => None
  end.

(** The result of a [next()] that has waited, once its promise is resolved:
    [{ done: false, value }] with whatever the promise was resolved with, a
    payload or the [finished] object. *)
Definition parked_result (d : Delivered) : IteratorResult :=
  match d with
  | Payload payload => mkIteratorResult false (PayloadValue payload)
  | Finished value => mkIteratorResult false (ResultObject true value)
  end.

(** [n] calls of [next()] on the iterator [c], each awaited. *)
Fixpoint nexts (n : nat) (c : nat) (w : World) : list NextResult * World :=
  match n with
  | 0 => ([], w)
  | S n' =>
      let (r, w1) := next c w in
      let (rs, w2) := nexts n' c w1 in
      (r :: rs, w2)
  end.

(** Notifications of the pool, one after the other. *)
Definition notify_all (notifications : list (string * option string))
    (w : World) : World :=
  fold_left (fun w' n => notify (fst n) (snd n) w') notifications w.

(** The payloads notified on [topic], in order. *)
Definition payloads_of (topic : string)
    (notifications : list (string * option string)) : list (option string) :=
  map snd (filter (fun n => String.eqb (fst n) topic) notifications).

(** The iterators are numbered in the order of their creation, and a
    listener belongs to an iterator that exists. *)
Definition tidy (s : PgSubscriber) : Prop :=
  Forall (fun kv => fst kv < length (consumers s)) (consumers s) /\
  Forall (fun l => snd l < length (consumers s)) (listeners s).

(** A pool whose [listen] always fails. *)
Definition failing_listen (err : JsError)
  : list Effect -> string -> Outcome Handle :=
  fun _ _ => Threw err.

End Subscriber.

(** ** Releasing a pool *)

Module Pool.
Local Open Scope list_scope.

(** What a call of [release] does outside the adaptor. *)
Inductive Effect : Type :=
| ReleaseCallback
| PoolEnd (pool : nat)
| SqlEnd (sql : nat).

(** *** [createPgPoolFromPool] *)

(** The variable [released] of the closure. *)
Record PgPoolFromPool : Type := mkPgPool { released : bool }.

Definition created : PgPoolFromPool := mkPgPool false.

(** [releaseOnce]; [release] is how the call of the function given to
    [createPgPoolFromPool] ends (by default it does nothing and returns). *)
Definition releaseOnce (release : Outcome unit) (p : PgPoolFromPool)
  : Outcome unit * PgPoolFromPool * list Effect :=
  if released p then
    (Threw (Error "Release called twice on the same PgPool"), p, [])
  else
    (release, mkPgPool true, [ReleaseCallback]).

(** *** [createNodePostgresAdapter] *)

(** The variable [pool] of the closure; [None] is [null]. *)
Record NodePostgresAdapter : Type := mkNodeAdapter { pool : option nat }.

(** [release]; [config_pool] is [config.pool], [ended] how [pool.end()]
    settles. *)
Definition node_release (config_pool : option nat) (ended : Outcome unit)
    (a : NodePostgresAdapter)
  : Outcome unit * NodePostgresAdapter * list Effect :=
  match pool a, config_pool with
  | Some p, None =>
      match ended with
      | Returned _ => (Returned tt, mkNodeAdapter None, [PoolEnd p])
      | Threw e => (Threw e, a, [PoolEnd p])
      end
  | _, _ => (Returned tt, a, [])
  end.

(** *** [createPostgresJsAdapter] *)

(** The variable [sql] of the closure, and the world of the LRU manager. *)
Record PostgresJsAdapter : Type := mkPostgresJsAdapter {
  sql : option nat;
  manager : Lru.World
}.

(** [release]; the statements of the connection are deallocated through
    [cleanupConnection], then the instance is ended if the adaptor made it. *)
Definition postgresjs_release (config_sql : option nat) (ended : Outcome unit)
    (a : PostgresJsAdapter)
  : Outcome unit * PostgresJsAdapter * list Effect :=
  match sql a with
  | Some s =>
      let cleaned := Lru.cleanupConnection (Lru.ObjectKey s) (manager a) in
      match config_sql with
      | None =>
          match ended with
          | Returned _ =>
              (Returned tt, mkPostgresJsAdapter None cleaned, [SqlEnd s])
          | Threw e => (Threw e, mkPostgresJsAdapter (Some s) cleaned, [SqlEnd s])
          end
      | Some _ => (Returned tt, mkPostgresJsAdapter (Some s) cleaned, [])
      end
  | None => (Returned tt, a, [])
  end.

End Pool.

(** ** Quoted literals and identifiers, as the server reads them *)

Module Quoting.

(** What follows an opening quote [q]: the characters up to the closing
    quote, where [q] twice in a row stands for one [q], and the text after
    the closing quote; nothing when the closing quote is missing. *)
Fixpoint read_quoted (q : ascii) (s : string) : option (string * string) :=
  match s with
  | EmptyString => None
  | String a rest =>
      if Ascii.eqb a q then
        match rest with
        | String b rest' =>
            if Ascii.eqb b q then
              option_map (fun r => (String q (fst r), snd r)) (read_quoted q rest')
            else Some (EmptyString, rest)
        | EmptyString => Some (EmptyString, EmptyString)
        end
      else option_map (fun r => (String a (fst r), snd r)) (read_quoted q rest)
  end.

(** A text that starts with the quote [q]: what it quotes, and what
    follows. *)
Definition read_literal (q : ascii) (s : string) : option (string * string) :=
  match s with
  | String a rest => if Ascii.eqb a q then read_quoted q rest else None
  | EmptyString => None
  end.

(** The digits of [digest("hex")]. *)
Definition is_hex_digit (a : ascii) : bool :=
  existsb (Ascii.eqb a) (list_ascii_of_string "0123456789abcdef").

End Quoting.

(** ** Services: [config.ts], [makePgService.ts] and [pgServices.ts] *)

Module Services.
Local Open Scope list_scope.

(** *** The three adaptors of a configuration *)

(** [!config.adapter || config.adapter === "node-postgres"]; [adapter] is
    [None] for [undefined]. *)
Definition isNodePostgresConfig (adapter : option string) : bool :=
  match adapter with
  | None => true
  | Some a => String.eqb a EmptyString || String.eqb a "node-postgres"
  end.

(** [config.adapter === "postgres.js"] *)
Definition isPostgresJsConfig (adapter : option string) : bool :=
  match adapter with
  | None => false
  | Some a => String.eqb a "postgres.js"
  end.

(** [config.adapter === "pglite"] *)
Definition isPGLiteConfig (adapter : option string) : bool :=
  match adapter with
  | None => false
  | Some a => String.eqb a "pglite"
  end.

Inductive AdapterKind : Type :=
| NodePostgresKind
| PostgresJsKind
| PGLiteKind.

(** Whether the pool an adaptor factory returns has a [listen] method:
    [createNodePostgresAdapter] returns [withPgClient], [getPoolSize] and
    [release] only; the other two factories return [listen] as well. *)
Definition has_listen (kind : AdapterKind) : bool :=
  match kind with
  | NodePostgresKind => false
  | PostgresJsKind | PGLiteKind => true
  end.

(** *** [makePgService] *)

(** [schemas]: one name or an array of names. *)
Inductive Schemas : Type :=
| OneSchema (schema : string)
| ManySchemas (schemas : list string).

(** The properties of the configuration that [makePgService] reads: [None]
    is [undefined]; [pgSettingsKey] is [Some None] for a value that is not a
    string; [superuserPool] says whether a pool is given. *)
Record PgServiceConfig : Type := mkConfig {
  adapter : option string;
  name : option string;
  schemas : option Schemas;
  withPgClientKey : option string;
  pgSettingsKey : option (option string);
  pgSubscriberKey : option string;
  pubsub : option bool;
  pgSettings : option (list (string * option string));
  superuserPool : bool;
  superuserConnectionString : option string
}.

(** What the function [release] of a service releases. *)
Inductive Releaser : Type :=
| ReleasePool
| ReleaseSuperuserPool
| ReleaseSubscriber.

Record PgServiceConfiguration : Type := mkService {
  service_name : string;
  service_schemas : list string;
  service_withPgClientKey : string;
  service_pgSettingsKey : option string;
  service_pgSubscriberKey : string;
  service_kind : AdapterKind;
  service_pgSubscriber : bool;
  service_superuserPgPool : bool;
  releasers : list Releaser
}.

(** [name === "main" ? key : `${name}_${key}`] *)
Definition default_key (name key : string) : string :=
  if String.eqb name "main" then key else (name ++ "_" ++ key)%string.

(** A string is truthy when it is not empty. *)
Definition truthy (s : option string) : bool :=
  match s with
  | Some a => negb (String.eqb a EmptyString)
  | None => false
  end.

Definition missing_key_message : string :=
  ("makePgService called with pgSettings but no pgSettingsKey - please indicate where the settings should be stored, e.g. 'pgSettingsKey: "
     ++ String (ascii_of_nat 34) "pgSettings"
     ++ String (ascii_of_nat 34) "' (must be unique across sources)")%string.

Section MakePgService.
(** [JSON.stringify(config)] *)
Variable stringify : PgServiceConfig -> string.

Definition makePgService (config : PgServiceConfig)
  : Outcome PgServiceConfiguration :=
  let name := match name config with Some n => n | None => "main" end in
  let withPgClientKey :=
    match withPgClientKey config with
    | Some k => k
    | None => default_key name "withPgClient"
    end in
  let pgSettingsKey :=
    match pgSettingsKey config with
    | Some k => k
    | None => Some (default_key name "pgSettings")
    end in
  let pgSubscriberKey :=
    match pgSubscriberKey config with
    | Some k => k
    | None => default_key name "pgSubscriber"
    end in
  let pubsub := match pubsub config with Some b => b | None => true end in
  match pgSettings config, pgSettingsKey with
  | Some _, None => Threw (Error missing_key_message)
  | _, _ =>
      let made : option (AdapterKind * bool * list Releaser) :=
        if isNodePostgresConfig (adapter config) then
          if superuserPool config || truthy (superuserConnectionString config)
          then Some (NodePostgresKind, true, [ReleasePool; ReleaseSuperuserPool])
          else Some (NodePostgresKind, false, [ReleasePool])
        else if isPostgresJsConfig (adapter config) then
          Some (PostgresJsKind, false, [ReleasePool])
        else if isPGLiteConfig (adapter config) then
          Some (PGLiteKind, false, [ReleasePool])
        else None in
      match made with
      | None =>
          Threw (Error ("Unknown adapter type in config: " ++ stringify config))
      | Some (kind, superuser, releasers) =>
          let subscriber := pubsub && has_listen kind in
          Returned
            (mkService name
               match schemas config with
               | Some (ManySchemas l) => l
               | Some (OneSchema s) => [s]
               | None => ["public"]
               end
               withPgClientKey
               pgSettingsKey pgSubscriberKey kind subscriber superuser
               (if subscriber then releasers ++ [ReleaseSubscriber]
                else releasers))
      end
  end.

End MakePgService.

(** [release] of a service: the releasers in reverse order, each awaited;
    [settles] is how the call of each settles.  The result is how the call
    settles and the releasers that have been called. *)
Fixpoint call_in_order (rs : list Releaser) (settles : Releaser -> Outcome unit)
  : Outcome unit * list Releaser :=
  match rs with
  | [] => (Returned tt, [])
  | r :: rest =>
      match settles r with
      | Returned _ =>
          let (out, called) := call_in_order rest settles in
          (out, r :: called)
      | Threw e => (Threw e, [r])
      end
  end.

Definition release (service : PgServiceConfiguration)
    (settles : Releaser -> Outcome unit) : Outcome unit * list Releaser :=
  call_in_order (rev (releasers service)) settles.

End Services.

(** ** The listener of the pooled TCP pool *)

Module PoolListener.

(** How soon the listener of the pooled TCP pool tries again after its
    connection has failed [retryCount] times before:
    [Math.min(1000 * Math.pow(2, retryCount), 30000)], in milliseconds. *)
Definition reconnect_delay (retryCount : nat) : Z :=
  Z.min (1000 * 2 ^ Z.of_nat retryCount) 30000.

(** The statements of the listener of the pooled TCP pool: the channel
    between double quotes, with every double quote doubled. *)
Definition escapedChannel (channel : string) : string :=
  let quote := ascii_of_nat 34 in
  replace_all quote (String quote (String quote EmptyString)) channel.

Definition listen_text (channel : string) : string :=
  ("LISTEN " ++ String (ascii_of_nat 34)
     (escapedChannel channel ++ String (ascii_of_nat 34) EmptyString))%string.

Definition unlisten_text (channel : string) : string :=
  ("UNLISTEN " ++ String (ascii_of_nat 34)
     (escapedChannel channel ++ String (ascii_of_nat 34) EmptyString))%string.

End PoolListener.

(** ** The cache of [withPgClient] functions ([pgServices.ts]) *)

Module ServiceCache.
Local Open Scope list_scope.
Local Open Scope Z_scope.

(** A configuration object: its identity, [config.name], and whether it has
    a [pgPool]. *)
Record Configuration : Type := mkConfiguration {
  identity : nat;
  config_name : string;
  pgPool : bool
}.

(** The closure of one [withPgClient] function: the configuration it was
    made for, [cachedValue.retainers] and [released]. *)
Record Retained : Type := mkRetained {
  config : nat;
  retainers : Z;
  released : bool
}.

(** What has happened to the functions, in order: a function is handed to a
    caller, a caller releases it, the cache forgets it. *)
Inductive Event : Type :=
| Issued (function : nat)
| Dropped (function : nat)
| Forgotten (configuration function : nat).

(** [cache] is [withPgClientDetailsByConfigCache], from the identity of a
    configuration to the number of its function; [functions] holds the
    closures of the functions made so far; [timers] holds the time-outs that
    have not fired yet, oldest first: they all wait equally long, so they
    fire in the order in which they were set. *)
Record World : Type := mkWorld {
  cache : list (nat * nat);
  functions : list Retained;
  timers : list nat;
  log : list Event
}.

Definition empty : World := mkWorld [] [] [] [].

Fixpoint cache_get (key : nat) (m : list (nat * nat)) : option nat :=
  match m with
  | [] => None
  | (k, v) :: rest => if (k =? key)%nat then Some v else cache_get key rest
  end.

Fixpoint cache_set (key value : nat) (m : list (nat * nat)) : list (nat * nat) :=
  match m with
  | [] => [(key, value)]
  | (k, v) :: rest =>
      if (k =? key)%nat then (k, value) :: rest
      else (k, v) :: cache_set key value rest
  end.

Fixpoint cache_delete (key : nat) (m : list (nat * nat)) : list (nat * nat) :=
  match m with
  | [] => []
  | (k, v) :: rest =>
      if (k =? key)%nat then rest else (k, v) :: cache_delete key rest
  end.

(** A change of the closure of the function [h]. *)
Fixpoint adjust (h : nat) (change : Retained -> Retained) (l : list Retained)
  : list Retained :=
  match l, h with
  | [], _ => []
  | x :: rest, O => change x :: rest
  | x :: rest, S h' => x :: adjust h' change rest
  end.

Definition retain (r : Retained) : Retained :=
  mkRetained (config r) (retainers r + 1) (released r).

Definition unretain (r : Retained) : Retained :=
  mkRetained (config r) (retainers r - 1) (released r).

Definition mark_released (r : Retained) : Retained :=
  mkRetained (config r) (retainers r) true.

(** [getWithPgClientFromPgService] *)
Definition getWithPgClientFromPgService (c : Configuration) (w : World)
  : Outcome nat * World :=
  match cache_get (identity c) (cache w) with
  | Some existing =>
      (Returned existing,
       mkWorld (cache w) (adjust existing retain (functions w)) (timers w)
         (log w ++ [Issued existing]))
  | None =>
      if pgPool c then
        let withPgClient := length (functions w) in
        (Returned withPgClient,
         mkWorld (cache_set (identity c) withPgClient (cache w))
           (functions w ++ [mkRetained (identity c) 1 false]) (timers w)
           (log w ++ [Issued withPgClient]))
      else
        (Threw (Error ("PgServiceConfiguration '" ++ config_name c
                         ++ "' is missing pgPool")%string), w)
  end.

(** [withPgClient.release()]: the count goes down and a time-out is set. *)
Definition release (h : nat) (w : World) : World :=
  mkWorld (cache w) (adjust h unretain (functions w)) (timers w ++ [h])
    (log w ++ [Dropped h]).

(** The oldest time-out fires. *)
Definition timeout (w : World) : World :=
  match timers w with
  | [] => w
  | h :: rest =>
      match nth_error (functions w) h with
      | Some r =>
          if (retainers r =? 0) && negb (released r) then
            mkWorld (cache_delete (config r) (cache w))
              (adjust h mark_released (functions w)) rest
              (log w ++ [Forgotten (config r) h])
          else mkWorld (cache w) (functions w) rest (log w)
      | None => mkWorld (cache w) (functions w) rest (log w)
      end
  end.

(** What happens to the cache: a call of [getWithPgClientFromPgService], a
    call of [release] on a function that has been made, a time-out. *)
Inductive Op : Type :=
| Get (c : Configuration)
| Release (function : nat)
| Timeout.

Definition step (op : Op) (w : World) : World :=
  match op with
  | Get c => snd (getWithPgClientFromPgService c w)
  | Release h => if (h <? length (functions w))%nat then release h w else w
  | Timeout => timeout w
  end.

Definition run (ops : list Op) (w : World) : World :=
  fold_left (fun w' op => step op w') ops w.

(** How often the function [h] has been handed out, and how often it has
    been released. *)
Definition issued (h : nat) (l : list Event) : Z :=
  Z.of_nat (length (filter (fun e => match e with
                                     | Issued h' => (h' =? h)%nat
                                     | _ => false
                                     end) l)).

Definition dropped (h : nat) (l : list Event) : Z :=
  Z.of_nat (length (filter (fun e => match e with
                                     | Dropped h' => (h' =? h)%nat
                                     | _ => false
                                     end) l)).

(** The cache holds the functions that are not released, each under its
    own configuration; the count of every function is the number of times
    it has been handed out less the number of times it has been released;
    and nothing has happened yet to a function that has not been made. *)
Definition consistent (w : World) : Prop :=
  NoDup (map fst (cache w)) /\
  (forall c h, cache_get c (cache w) = Some h ->
     exists r, nth_error (functions w) h = Some r /\
               config r = c /\ released r = false) /\
  (forall h r, nth_error (functions w) h = Some r -> released r = false ->
     cache_get (config r) (cache w) = Some h) /\
  (forall h r, nth_error (functions w) h = Some r ->
     retainers r = issued h (log w) - dropped h (log w)) /\
  (forall h, (length (functions w) <= h)%nat ->
     issued h (log w) = 0 /\ dropped h (log w) = 0).

End ServiceCache.
(** * Theorems *)

(** ** Strings *)

Lemma lower_app (a b : string) : lower (a ++ b) = (lower a ++ lower b)%string.
Proof.
  induction a as [|x a IH]; simpl; [reflexivity|].
  now rewrite IH.
Qed.

Lemma same_sql_app (a a' b : string) :
  same_sql a a' -> same_sql (a ++ b) (a' ++ b).
Proof.
  unfold same_sql. intros H. now rewrite !lower_app, H.
Qed.

(** ** The monad of the envelopes *)

Module ConnFacts.
Import Conn.
Local Open Scope list_scope.

Lemma app_cons_assoc {A} (h : list A) (x : A) (l : list A) :
  (h ++ [x]) ++ l = h ++ x :: l.
Proof. now rewrite <- app_assoc. Qed.

End ConnFacts.

Module TransactionFacts.
Import Conn TransactionTable.
Local Open Scope list_scope.
Local Open Scope conn_scope.

Section WithServer.
Variable server : Server.

Lemma bracket_runs_as {T} enter commit rollback (body : M T) h :
  runs_as server enter commit rollback body
    (bracket server enter commit rollback body) h.
Proof.
  unfold runs_as, bracket, bind, try_catch, query, ret, throw.
  destruct (server h (stmt enter)) as [rows|e]; [|reflexivity].
  destruct (body (h ++ [stmt enter])) as [[v|e] sent]; simpl.
  - rewrite <- app_assoc; simpl.
    destruct (server (h ++ stmt enter :: sent) (stmt commit)) as [rows'|e'];
      simpl.
    + reflexivity.
    + rewrite <- !app_assoc; simpl.
      destruct (server _ (stmt rollback)); simpl;
        rewrite ?app_nil_r, <- ?app_assoc; reflexivity.
  - rewrite <- !app_assoc; simpl.
    destruct (server _ (stmt rollback)); simpl; rewrite ?app_nil_r; reflexivity.
Qed.

Lemma node_follows_table :
  follows_table server NodePostgres.NodePostgresPgClient
    NodePostgres.txLevel NodePostgres.alreadyInTransaction
    (@NodePostgres.withTransaction server).
Proof.
  intros T [lvl aq pre] callback h; simpl.
  destruct lvl as [|n]; [destruct pre|].
  - exists "savepoint tx", "release savepoint tx", "rollback to savepoint tx",
      (NodePostgres.mkClient 1 aq true).
    repeat split. apply bracket_runs_as.
  - exists "begin", "commit", "rollback", (NodePostgres.mkClient 1 aq false).
    repeat split. apply bracket_runs_as.
  - exists ("savepoint tx" ++ string_of_nat (S n))%string,
      ("release savepoint tx" ++ string_of_nat (S n))%string,
      ("rollback to savepoint tx" ++ string_of_nat (S n))%string,
      (NodePostgres.mkClient (S n + 1) aq pre).
    split; [|split; [|split; [|split; [|split]]]];
      try reflexivity;
      try (apply (same_sql_app _ ("SAVEPOINT tx")); reflexivity);
      try (apply (same_sql_app _ ("RELEASE SAVEPOINT tx")); reflexivity);
      try (apply (same_sql_app _ ("ROLLBACK TO SAVEPOINT tx")); reflexivity).
    apply bracket_runs_as.
Qed.

Lemma pglite_follows_table :
  follows_table server PGlite.PGlitePgClient
    PGlite.txLevel PGlite.alreadyInTransaction
    (@PGlite.withTransaction server).
Proof.
  intros T [lvl pre viaTx] callback h; simpl.
  destruct lvl as [|n]; [destruct pre|].
  - exists "SAVEPOINT tx", "RELEASE SAVEPOINT tx", "ROLLBACK TO SAVEPOINT tx",
      (PGlite.mkClient 1 true false).
    repeat split. apply bracket_runs_as.
  - exists "BEGIN", "COMMIT", "ROLLBACK", (PGlite.mkClient 1 false true).
    repeat split. apply bracket_runs_as.
  - exists ("SAVEPOINT tx" ++ string_of_nat (S n))%string,
      ("RELEASE SAVEPOINT tx" ++ string_of_nat (S n))%string,
      ("ROLLBACK TO SAVEPOINT tx" ++ string_of_nat (S n))%string,
      (PGlite.mkClient (S n + 1) pre false).
    split; [|split; [|split; [|split; [|split]]]]; try reflexivity.
    apply bracket_runs_as.
Qed.

End WithServer.
End TransactionFacts.

(** ** Session settings in [withPgClient] *)

Module EnvelopeFacts.
Import Conn Envelope.
Local Open Scope list_scope.
Local Open Scope conn_scope.

Lemma pgSettingsEntries_In (pgSettings : list (string * option string)) key value :
  In (key, value) (pgSettingsEntries pgSettings) <-> In (key, Some value) pgSettings.
Proof.
  induction pgSettings as [|[k [v|]] rest IH]; simpl.
  - tauto.
  - rewrite IH. split; (intros [E|H]; [left; congruence | now right]).
  - rewrite IH. split; [now right | intros [E|H]; [discriminate | assumption]].
Qed.

Lemma pgSettingsEntries_all_null (pgSettings : list (string * option string)) :
  Forall (fun kv => snd kv = None) pgSettings -> pgSettingsEntries pgSettings = [].
Proof.
  induction 1 as [|[k v] rest Hv _ IH]; simpl in *; [reflexivity|].
  now subst v.
Qed.

Lemma length_pos {A} (l : list A) : l <> [] -> (0 <? length l)%nat = true.
Proof. destruct l; [congruence | reflexivity]. Qed.

Ltac tidy :=
  cbv beta iota zeta; cbn [app fst snd];
  rewrite ?app_nil_r, <- ?app_assoc; cbn [app].

Section WithServer.
Variable server : Server.

Lemma query_accepted {T} q rows (k : Rows -> M T) h :
  server h q = Returned rows ->
  bind (query server q) k h
  = (fst (k rows (h ++ [q])), q :: snd (k rows (h ++ [q]))).
Proof.
  intros E. unfold bind, query. rewrite E.
  now destruct (k rows (h ++ [q])).
Qed.

Lemma query_refused {T} q e (k : Rows -> M T) h :
  server h q = Threw e -> bind (query server q) k h = (Threw e, [q]).
Proof. intros E. unfold bind, query. now rewrite E. Qed.

Lemma accepts_cons q l h :
  accepts server h (q :: l) = true ->
  exists rows, server h q = Returned rows /\ accepts server (h ++ [q]) l = true.
Proof.
  simpl. destruct (server h q) as [rows|e]; [eauto | discriminate].
Qed.

Lemma accepts_app l1 l2 h :
  accepts server h (l1 ++ l2) = true ->
  accepts server h l1 = true /\ accepts server (h ++ l1) l2 = true.
Proof.
  revert h. induction l1 as [|q l1 IH]; intros h; simpl.
  - now rewrite app_nil_r.
  - destruct (server h q); [|discriminate].
    intros H. apply IH in H. now rewrite <- app_assoc in H.
Qed.

(** *** Pooled TCP *)

Lemma node_applies_settings_once {T} settings
    (callback : NodePostgres.NodePostgresPgClient -> M T) h :
  pgSettingsEntries settings <> [] ->
  let pre :=
    [stmt "begin";
     mkQuery NodePostgres.set_config_text (payload (pgSettingsEntries settings))] in
  accepts server h pre = true ->
  exists out post,
    NodePostgres.withPgClient server (Some settings) callback h
    = (out, pre ++ snd (callback (NodePostgres.mkClient 1 false false) (h ++ pre))
              ++ post) /\
    Forall (fun q => is_set_config q = false) post.
Proof.
  intros Hne pre Hacc. subst pre. unfold payload in *.
  apply accepts_cons in Hacc as [r1 [E1 Hacc]].
  apply accepts_cons in Hacc as [r2 [E2 _]].
  unfold NodePostgres.withPgClient, NodePostgres.makeNodePostgresWithPgClient_inner.
  rewrite (length_pos _ Hne).
  unfold bind, try_catch, query, ret, throw.
  rewrite E1, E2.
  rewrite <- !app_assoc; cbn [app].
  destruct (callback _ _) as [[v|e] sent]; cbn [snd].
  - destruct (server _ (stmt "commit")) as [r3|e3];
      [|destruct (server _ (stmt "rollback")) as [r4|e4]];
      tidy; do 2 eexists; (split; [reflexivity | repeat constructor]).
  - destruct (server _ (stmt "rollback")) as [r4|e4];
      tidy; do 2 eexists; (split; [reflexivity | repeat constructor]).
Qed.


(** *** Tagged template *)

Lemma postgresjs_applies_settings_once {T} (alwaysQueue : bool) settings
    (callback : PostgresJs.PostgresJsPgClient -> M T) h :
  pgSettingsEntries settings <> [] ->
  let pre :=
    [stmt "BEGIN";
     mkQuery PostgresJs.set_config_text (payload (pgSettingsEntries settings))] in
  accepts server h pre = true ->
  exists out post,
    PostgresJs.withPgClient server alwaysQueue (Some settings) callback h
    = (out, pre ++ snd (callback (PostgresJs.mkClient true alwaysQueue) (h ++ pre))
              ++ post) /\
    Forall (fun q => is_set_config q = false) post.
Proof.
  intros Hne pre Hacc. subst pre. unfold payload in *.
  apply accepts_cons in Hacc as [r1 [E1 Hacc]].
  apply accepts_cons in Hacc as [r2 [E2 _]].
  destruct settings as [|kv rest]; [now elim Hne|].
  unfold PostgresJs.withPgClient, PostgresJs.sql_begin.
  rewrite (length_pos _ Hne).
  unfold bind, try_catch, query, ret, throw.
  rewrite E1, E2.
  rewrite <- !app_assoc; cbn [app].
  destruct (callback _ _) as [[v|e] sent]; cbn [snd].
  - destruct (server _ (stmt "COMMIT")) as [r3|e3];
      [|destruct (server _ (stmt "ROLLBACK")) as [r4|e4]];
      tidy; do 2 eexists; (split; [reflexivity | repeat constructor]).
  - destruct (server _ (stmt "ROLLBACK")) as [r4|e4];
      tidy; do 2 eexists; (split; [reflexivity | repeat constructor]).
Qed.

(** *** WASM *)

Lemma probes_not_set_config settings :
  Forall (fun q => is_set_config q = false) (current_setting_probes settings).
Proof.
  unfold current_setting_probes. apply Forall_forall. intros q Hq.
  apply in_map_iff in Hq as [kv [<- _]]. reflexivity.
Qed.

Lemma read_original_accepted settings h :
  accepts server h (current_setting_probes settings) = true ->
  exists originalSettings,
    PGlite.read_original server settings h
    = (Returned originalSettings, current_setting_probes settings) /\
    map fst originalSettings = map fst (pgSettingsEntries settings).
Proof.
  revert h. induction settings as [|[key [value|]] rest IH]; intros h Hacc.
  - exists []. split; reflexivity.
  - unfold current_setting_probes in Hacc. cbn [pgSettingsEntries map fst] in Hacc.
    apply accepts_cons in Hacc as [rows [E Hacc]].
    destruct (IH _ Hacc) as [more [Hrun Hkeys]].
    exists ((key, PGlite.first_value rows) :: more). split.
    + cbn [PGlite.read_original]. unfold bind at 1, query at 1. rewrite E.
      unfold bind. rewrite Hrun. unfold ret. tidy.
      unfold current_setting_probes. reflexivity.
    + cbn [map fst pgSettingsEntries]. now rewrite Hkeys.
  - apply (IH _ Hacc).
Qed.

Lemma pglite_applies_settings_once {T} settings
    (callback : PGlite.PGlitePgClient -> M T) h :
  pgSettingsEntries settings <> [] ->
  let pre :=
    current_setting_probes settings ++
    [mkQuery PGlite.set_config_text (payload (pgSettingsEntries settings))] in
  accepts server h pre = true ->
  exists out post,
    PGlite.withPgClient server (Some settings) callback h
    = (out, pre ++ snd (callback (PGlite.mkClient 0 false false) (h ++ pre))
              ++ post).
Proof.
  intros Hne pre Hacc. subst pre. unfold payload in *.
  apply accepts_app in Hacc as [Hprobes Hacc].
  apply accepts_cons in Hacc as [r2 [E2 _]].
  destruct (read_original_accepted _ _ Hprobes) as [orig [Hrun _]].
  destruct settings as [|kv rest]; [now elim Hne|].
  unfold PGlite.withPgClient, PGlite.runExclusive.
  rewrite (length_pos _ Hne).
  unfold bind at 1. rewrite Hrun.
  unfold try_finally, bind, query, ret. rewrite E2.
  rewrite <- !app_assoc; cbn [app].
  destruct (callback _ _) as [out sent]; cbn [snd].
  match goal with |- context [let (_, _) := ?f ?x in _] =>
    destruct (f x) as [[u|e] post] end;
    [exists out, post | exists (Threw e), post]; tidy; reflexivity.
Qed.

(** *** Statements of the envelopes themselves *)

Lemma quiet_ret {A} P (a : A) : quiet P (ret a).
Proof. intros h. constructor. Qed.

Lemma quiet_throw {A} P e : quiet P (@throw A e).
Proof. intros h. constructor. Qed.

Lemma quiet_query P q : P q -> quiet P (query server q).
Proof. intros H h. repeat constructor. exact H. Qed.

Lemma quiet_bind {A B} P (m : M A) (k : A -> M B) :
  quiet P m -> (forall a, quiet P (k a)) -> quiet P (bind m k).
Proof.
  intros Hm Hk h. unfold bind. specialize (Hm h).
  destruct (m h) as [[a|e] sent]; cbn [snd] in *; [|assumption].
  specialize (Hk a (h ++ sent)).
  destruct (k a (h ++ sent)) as [r' sent']; cbn [snd] in *.
  apply Forall_app; now split.
Qed.

Lemma quiet_try_catch {A} P (m : M A) handler :
  quiet P m -> (forall e, quiet P (handler e)) -> quiet P (try_catch m handler).
Proof.
  intros Hm Hk h. unfold try_catch. specialize (Hm h).
  destruct (m h) as [[a|e] sent]; cbn [snd] in *; [assumption|].
  specialize (Hk e (h ++ sent)).
  destruct (handler e (h ++ sent)) as [r' sent']; cbn [snd] in *.
  apply Forall_app; now split.
Qed.

Section Own.
Context {C T : Type} (P : Query -> Prop) (callback : C -> M T).

Local Abbreviation own m := (Envelope.own P callback m).

Lemma own_callback (client : C) : own (callback client).
Proof.
  intros h. exists [], []. split; [constructor | split; [constructor|]].
  right. exists client. cbn [app]. now rewrite !app_nil_r.
Qed.

Lemma own_quiet {A} (m : M A) : quiet P m -> own m.
Proof.
  intros Hm h. exists (snd (m h)), [].
  repeat split; [apply Hm | constructor | left; now rewrite app_nil_r].
Qed.

Lemma own_quiet_bind {A B} (m : M A) (k : A -> M B) :
  quiet P m -> (forall a, own (k a)) -> own (bind m k).
Proof.
  intros Hm Hk h. unfold own_statements, bind. specialize (Hm h).
  destruct (m h) as [[a|e] sent]; cbn [snd] in *.
  - destruct (Hk a (h ++ sent)) as (pre & post & Hpre & Hpost & Hrun).
    destruct (k a (h ++ sent)) as [r' sent']; cbn [snd] in *.
    exists (sent ++ pre), post.
    repeat split; [apply Forall_app; now split | assumption |].
    destruct Hrun as [-> | [client ->]]; [left | right; exists client];
      now rewrite <- !app_assoc.
  - exists sent, []. repeat split; [assumption | constructor |].
    left. now rewrite app_nil_r.
Qed.

Lemma own_quiet_bind_post {A B} (R : A -> Prop) (m : M A) (k : A -> M B) :
  quiet P m -> (forall h a, fst (m h) = Returned a -> R a) ->
  (forall a, R a -> own (k a)) -> own (bind m k).
Proof.
  intros Hm HR Hk h. unfold own_statements, bind.
  specialize (Hm h). specialize (HR h).
  destruct (m h) as [[a|e] sent]; cbn [fst snd] in *.
  - destruct (Hk a (HR a eq_refl) (h ++ sent))
      as (pre & post & Hpre & Hpost & Hrun).
    destruct (k a (h ++ sent)) as [r' sent']; cbn [snd] in *.
    exists (sent ++ pre), post.
    repeat split; [apply Forall_app; now split | assumption |].
    destruct Hrun as [-> | [client ->]]; [left | right; exists client];
      now rewrite <- !app_assoc.
  - exists sent, []. repeat split; [assumption | constructor |].
    left. now rewrite app_nil_r.
Qed.

Lemma own_bind_quiet {A B} (m : M A) (k : A -> M B) :
  own m -> (forall a, quiet P (k a)) -> own (bind m k).
Proof.
  intros Hm Hk h. unfold own_statements, bind.
  destruct (Hm h) as (pre & post & Hpre & Hpost & Hrun).
  destruct (m h) as [[a|e] sent]; cbn [snd] in *.
  - specialize (Hk a (h ++ sent)).
    destruct (k a (h ++ sent)) as [r' sent']; cbn [snd] in *.
    exists pre, (post ++ sent').
    repeat split; [assumption | apply Forall_app; now split |].
    destruct Hrun as [-> | [client ->]]; [left | right; exists client];
      now rewrite <- !app_assoc.
  - exists pre, post. now repeat split.
Qed.

Lemma own_try_catch {A} (m : M A) handler :
  own m -> (forall e, quiet P (handler e)) -> own (try_catch m handler).
Proof.
  intros Hm Hk h. unfold own_statements, try_catch.
  destruct (Hm h) as (pre & post & Hpre & Hpost & Hrun).
  destruct (m h) as [[a|e] sent]; cbn [snd] in *.
  - exists pre, post. now repeat split.
  - specialize (Hk e (h ++ sent)).
    destruct (handler e (h ++ sent)) as [r' sent']; cbn [snd] in *.
    exists pre, (post ++ sent').
    repeat split; [assumption | apply Forall_app; now split |].
    destruct Hrun as [-> | [client ->]]; [left | right; exists client];
      now rewrite <- !app_assoc.
Qed.

Lemma own_try_finally {A} (m : M A) (f : M unit) :
  own m -> quiet P f -> own (try_finally m f).
Proof.
  intros Hm Hf h. unfold own_statements, try_finally.
  destruct (Hm h) as (pre & post & Hpre & Hpost & Hrun).
  destruct (m h) as [r sent]; cbn [snd] in *.
  specialize (Hf (h ++ sent)).
  destruct (f (h ++ sent)) as [[u|e] sent']; cbn [snd] in *.
  all: exists pre, (post ++ sent').
  all: repeat split; [assumption | apply Forall_app; now split |].
  all: destruct Hrun as [-> | [client ->]]; [left | right; exists client];
      now rewrite <- !app_assoc.
Qed.

End Own.

Lemma own_statements_impl {C T A} (P Q : Query -> Prop) (run : M A)
    (callback : C -> M T) h :
  (forall q, P q -> Q q) ->
  own_statements P run callback h -> own_statements Q run callback h.
Proof.
  intros HPQ (pre & post & Hpre & Hpost & Hrun).
  exists pre, post.
  repeat split; try assumption; eapply Forall_impl; eauto.
Qed.

Lemma carries_bound_keys_other settings q :
  is_set_config q = false -> carries_bound_keys settings q.
Proof. intros E H. congruence. Qed.

Lemma carries_bound_keys_entries settings t :
  pgSettingsEntries settings <> [] ->
  carries_bound_keys settings
    (mkQuery t [JString (JSON_stringify (entries_json (pgSettingsEntries settings)))]).
Proof.
  intros Hne _. exists (pgSettingsEntries settings).
  repeat split; [assumption|].
  intros key value H. exists value. now apply pgSettingsEntries_In.
Qed.

Lemma length_pos_inv {A} (l : list A) : (0 <? length l)%nat = true -> l <> [].
Proof. destruct l; [discriminate | congruence]. Qed.

Ltac quiet_steps :=
  repeat first
    [ apply quiet_ret
    | apply quiet_throw
    | apply quiet_bind; [|intros ?]
    | apply quiet_try_catch; [|intros ?]
    | apply quiet_query
    | match goal with |- quiet _ (if ?b then _ else _) => destruct b end ].

Lemma node_own_statements {T} settings
    (callback : NodePostgres.NodePostgresPgClient -> M T) h :
  own_statements (carries_bound_keys settings)
    (NodePostgres.withPgClient server (Some settings) callback) callback h.
Proof.
  revert h. fold (own (carries_bound_keys settings) callback
                      (NodePostgres.withPgClient server (Some settings) callback)).
  unfold NodePostgres.withPgClient, NodePostgres.makeNodePostgresWithPgClient_inner.
  destruct (0 <? length (pgSettingsEntries settings))%nat eqn:Hlen.
  - apply length_pos_inv in Hlen.
    apply own_quiet_bind; [|intros _].
    { quiet_steps; now apply carries_bound_keys_other. }
    apply own_try_catch; [|intros e].
    + apply own_quiet_bind; [|intros _].
      { quiet_steps. now apply carries_bound_keys_entries. }
      apply own_bind_quiet; [apply own_callback|intros r].
      quiet_steps; now apply carries_bound_keys_other.
    + quiet_steps; now apply carries_bound_keys_other.
  - apply own_callback.
Qed.

Lemma postgresjs_own_statements {T} (alwaysQueue : bool) settings
    (callback : PostgresJs.PostgresJsPgClient -> M T) h :
  own_statements (carries_bound_keys settings)
    (PostgresJs.withPgClient server alwaysQueue (Some settings) callback)
    callback h.
Proof.
  revert h. fold (own (carries_bound_keys settings) callback
                      (PostgresJs.withPgClient server alwaysQueue (Some settings) callback)).
  unfold PostgresJs.withPgClient, PostgresJs.sql_begin.
  destruct settings as [|kv rest]; [apply own_callback|].
  apply own_quiet_bind; [|intros _].
  { quiet_steps; now apply carries_bound_keys_other. }
  apply own_try_catch; [|intros e].
  - apply own_bind_quiet; [|intros r].
    + apply own_quiet_bind; [|intros _; apply own_callback].
      destruct (0 <? length _)%nat eqn:Hlen; quiet_steps.
      apply carries_bound_keys_entries. now apply length_pos_inv.
    + quiet_steps; now apply carries_bound_keys_other.
  - quiet_steps; now apply carries_bound_keys_other.
Qed.

Lemma read_original_quiet P settings :
  (forall key, P (mkQuery PGlite.current_setting_text [JString key])) ->
  quiet P (PGlite.read_original server settings).
Proof.
  intros HP. induction settings as [|[key [value|]] rest IH];
    cbn [PGlite.read_original]; quiet_steps; auto.
Qed.

Lemma read_original_keys settings h originalSettings :
  fst (PGlite.read_original server settings h) = Returned originalSettings ->
  forall key value, In (key, value) originalSettings ->
    exists bound, In (key, Some bound) settings.
Proof.
  revert h originalSettings.
  induction settings as [|[k [v|]] rest IH]; intros h orig;
    cbn [PGlite.read_original].
  - unfold ret. cbn [fst]. intros [= <-] key value [].
  - unfold bind, query, ret.
    destruct (server h _) as [rows|e]; cbn [fst]; [|discriminate].
    specialize (IH (h ++ [mkQuery PGlite.current_setting_text [JString k]])).
    destruct (PGlite.read_original server rest _) as [[more|e] sent];
      cbn [fst] in *; [|discriminate].
    intros [= <-] key value [[= <- <-]|Hin].
    + exists v. now left.
    + destruct (IH more eq_refl key value Hin) as [b Hb]. exists b. now right.
  - intros H key value Hin.
    destruct (IH h orig H key value Hin) as [b Hb]. exists b. now right.
Qed.

Lemma reset_null_quiet P settings originalSettings :
  (forall t, P (stmt ("RESET " ++ t))) ->
  quiet P (PGlite.reset_null server settings originalSettings).
Proof.
  intros HP. induction originalSettings as [|[key [value|]] rest IH];
    cbn [PGlite.reset_null]; quiet_steps; auto.
Qed.

Lemma pglite_own_statements {T} settings
    (callback : PGlite.PGlitePgClient -> M T) h :
  own_statements (carries_bound_keys settings)
    (PGlite.withPgClient server (Some settings) callback) callback h.
Proof.
  revert h. fold (own (carries_bound_keys settings) callback
                      (PGlite.withPgClient server (Some settings) callback)).
  unfold PGlite.withPgClient, PGlite.runExclusive.
  destruct settings as [|kv rest]; [apply own_callback|].
  set (settings := kv :: rest).
  apply own_quiet_bind_post with
    (R := fun orig => forall key value, In (key, value) orig ->
                      exists bound, In (key, Some bound) settings).
  - apply read_original_quiet. intros key.
    now apply carries_bound_keys_other.
  - intros h a. apply read_original_keys.
  - intros orig Horig. apply own_try_finally.
    + apply own_quiet_bind; [|intros _; apply own_callback].
      destruct (0 <? length _)%nat eqn:Hlen; quiet_steps.
      apply carries_bound_keys_entries. now apply length_pos_inv.
    + destruct (0 <? length orig)%nat; [|apply quiet_ret].
      apply quiet_bind; [|intros _].
      * destruct (0 <? length (pgSettingsEntries orig))%nat eqn:Hlen; quiet_steps.
        intros _. exists (pgSettingsEntries orig).
        repeat split; [now apply length_pos_inv|].
        intros key value Hin. apply pgSettingsEntries_In in Hin.
        eapply Horig; eassumption.
      * apply reset_null_quiet. intros t. now apply carries_bound_keys_other.
Qed.

End WithServer.
End EnvelopeFacts.

(** ** The claims about transactions and session settings *)

Module EnvelopeClaims.
Import Conn Envelope TransactionTable.
Local Open Scope list_scope.

(** C1: every [withTransaction] call of the node-postgres and of the PGlite
    client follows the transition table of the specification, up to the
    letter case of the statements: at level 0 outside a pre-existing
    transaction it sends BEGIN on entry, COMMIT when the callback returns and
    ROLLBACK when it throws; at level 0 in pre-existing-transaction mode it
    sends SAVEPOINT tx, RELEASE SAVEPOINT tx and ROLLBACK TO SAVEPOINT tx; at
    level N >= 1 it sends SAVEPOINT txN, RELEASE SAVEPOINT txN and ROLLBACK TO
    SAVEPOINT txN; the callback runs on a client of level N + 1. *)
Theorem C1_with_transaction_follows_table (server : Server) :
  follows_table server NodePostgres.NodePostgresPgClient
    NodePostgres.txLevel NodePostgres.alreadyInTransaction
    (@NodePostgres.withTransaction server) /\
  follows_table server PGlite.PGlitePgClient
    PGlite.txLevel PGlite.alreadyInTransaction
    (@PGlite.withTransaction server).
Proof.
  split.
  - apply TransactionFacts.node_follows_table.
  - apply TransactionFacts.pglite_follows_table.
Qed.

(** C2, as the code has it: for a settings map with at least one value that
    is not null, and a server that accepts the statements sent before the
    callback, the settings are applied by exactly one statement, sent last
    before the callback runs, whose single parameter is the JSON array of the
    [key, value] pairs with a value; its text is in lower case for the pooled
    TCP backend, in upper case with [true] for the tagged-template backend
    and in upper case with [false] for the WASM backend, which first reads
    the current value of each such key. *)
Theorem C2_settings_applied_by_one_query
    (server : Server) (settings : list (string * option string))
    (h : list Query) :
  pgSettingsEntries settings <> [] ->
  let parameter :=
    [JString (JSON_stringify (entries_json (pgSettingsEntries settings)))] in
  let pooled :=
    [stmt "begin";
     mkQuery "select set_config(el->>0, el->>1, true) from json_array_elements($1::json) el"
       parameter] in
  let tagged :=
    [stmt "BEGIN";
     mkQuery "SELECT set_config(el->>0, el->>1, true) FROM json_array_elements($1::json) el"
       parameter] in
  let wasm :=
    current_setting_probes settings ++
    [mkQuery "SELECT set_config(el->>0, el->>1, false) FROM json_array_elements($1::json) el"
       parameter] in
  (forall T (callback : NodePostgres.NodePostgresPgClient -> M T),
     accepts server h pooled = true ->
     exists out post,
       NodePostgres.withPgClient server (Some settings) callback h
       = (out, pooled
               ++ snd (callback (NodePostgres.mkClient 1 false false) (h ++ pooled))
               ++ post) /\
       Forall (fun q => is_set_config q = false) post) /\
  (forall T alwaysQueue (callback : PostgresJs.PostgresJsPgClient -> M T),
     accepts server h tagged = true ->
     exists out post,
       PostgresJs.withPgClient server alwaysQueue (Some settings) callback h
       = (out, tagged
               ++ snd (callback (PostgresJs.mkClient true alwaysQueue) (h ++ tagged))
               ++ post) /\
       Forall (fun q => is_set_config q = false) post) /\
  (forall T (callback : PGlite.PGlitePgClient -> M T),
     accepts server h wasm = true ->
     exists out post,
       PGlite.withPgClient server (Some settings) callback h
       = (out, wasm
               ++ snd (callback (PGlite.mkClient 0 false false) (h ++ wasm))
               ++ post) /\
       Forall (fun q => is_set_config q = false) (current_setting_probes settings)).
Proof.
  intros Hne parameter pooled tagged wasm. repeat split.
  - intros T callback Hacc.
    exact (EnvelopeFacts.node_applies_settings_once server settings callback h Hne Hacc).
  - intros T alwaysQueue callback Hacc.
    exact (EnvelopeFacts.postgresjs_applies_settings_once server alwaysQueue
             settings callback h Hne Hacc).
  - intros T callback Hacc.
    destruct (EnvelopeFacts.pglite_applies_settings_once server settings callback h
                Hne Hacc) as (out & post & Hrun).
    exists out, post. split; [exact Hrun|].
    apply EnvelopeFacts.probes_not_set_config.
Qed.

(** C2 at the settings map [{ timezone: "UTC" }], an accepting server and a
    callback that returns at once, for the three backends. *)
Lemma C2_settings_applied_by_one_query_witness :
  [("timezone", "UTC")] <> [] /\
  (exists out post,
     NodePostgres.withPgClient accepting (Some [("timezone", Some "UTC")])
       (fun _ => ret tt) []
     = (out, [stmt "begin";
              mkQuery "select set_config(el->>0, el->>1, true) from json_array_elements($1::json) el"
                (payload [("timezone", "UTC")])] ++ [] ++ post) /\
     Forall (fun q => is_set_config q = false) post) /\
  (exists out post,
     PostgresJs.withPgClient accepting false (Some [("timezone", Some "UTC")])
       (fun _ => ret tt) []
     = (out, [stmt "BEGIN";
              mkQuery "SELECT set_config(el->>0, el->>1, true) FROM json_array_elements($1::json) el"
                (payload [("timezone", "UTC")])] ++ [] ++ post) /\
     Forall (fun q => is_set_config q = false) post) /\
  (exists out post,
     PGlite.withPgClient accepting (Some [("timezone", Some "UTC")])
       (fun _ => ret tt) []
     = (out, [mkQuery "SELECT current_setting($1, true) as value" [JString "timezone"];
              mkQuery "SELECT set_config(el->>0, el->>1, false) FROM json_array_elements($1::json) el"
                (payload [("timezone", "UTC")])] ++ [] ++ post) /\
     Forall (fun q => is_set_config q = false)
       [mkQuery "SELECT current_setting($1, true) as value" [JString "timezone"]]).
Proof.
  assert (Hne : pgSettingsEntries [("timezone", Some "UTC")] <> [])
    by discriminate.
  destruct (C2_settings_applied_by_one_query accepting
              [("timezone", Some "UTC")] [] Hne) as (Hpooled & Htagged & Hwasm).
  split; [discriminate|]. split; [|split].
  - apply (Hpooled unit (fun _ => ret tt)). reflexivity.
  - apply (Htagged unit false (fun _ => ret tt)). reflexivity.
  - apply (Hwasm unit (fun _ => ret tt)). reflexivity.
Defined.

(** C2 as stated fails on the code: for [{ timezone: "UTC" }] the pooled TCP
    backend sends the statement in lower case, which is not the text the
    claim gives bit for bit; and for the non-empty map [{ timezone: null }]
    it sends no statement at all. *)
Lemma C2_pooled_text_is_not_bit_exact :
  NodePostgres.withPgClient accepting (Some [("timezone", Some "UTC")])
    (fun _ => ret tt) []
  = (Returned tt,
     [stmt "begin";
      mkQuery "select set_config(el->>0, el->>1, true) from json_array_elements($1::json) el"
        (payload [("timezone", "UTC")]);
      stmt "commit"]) /\
  "select set_config(el->>0, el->>1, true) from json_array_elements($1::json) el"
  <> "SELECT set_config(el->>0, el->>1, true) FROM json_array_elements($1::json) el" /\
  NodePostgres.withPgClient accepting (Some [("timezone", None)])
    (fun _ => ret tt) []
  = (Returned tt, []).
Proof.
  split; [reflexivity|]. split; [discriminate | reflexivity].
Qed.

(** C3, where the code departs from the claim: in the settings-scoped
    envelope of the pooled TCP backend, when the callback throws and the
    server then refuses [rollback], the caller receives the error of the
    rollback, not the error of the callback. *)
Theorem C3_envelope_rollback_error_replaces_callback_error :
  NodePostgres.withPgClient
    (refusing "rollback" (Error "connection terminated"))
    (Some [("role", Some "app_user")])
    (fun _ => throw (A := unit) (Error "callback failed")) []
  = (Threw (Error "connection terminated"),
     [stmt "begin";
      mkQuery NodePostgres.set_config_text (payload [("role", "app_user")]);
      stmt "rollback"]).
Proof. reflexivity. Qed.

(** The sibling path: [withTransaction] on the same server swallows the
    failure of [rollback] and rethrows the error of the callback. *)
Lemma with_transaction_keeps_callback_error :
  NodePostgres.withTransaction
    (refusing "rollback" (Error "connection terminated"))
    (NodePostgres.mkClient 0 false false)
    (fun _ => throw (A := unit) (Error "callback failed")) []
  = (Threw (Error "callback failed"), [stmt "begin"; stmt "rollback"]).
Proof. reflexivity. Qed.

(** C9: whatever the server answers, a [set_config] statement that an
    envelope sends itself carries the JSON array of a non-empty list of
    pairs whose keys the settings map binds to a value that is not null;
    hence, when every value of the map is null or undefined, no envelope
    sends a [set_config] statement. *)
Theorem C9_null_settings_are_omitted
    (server : Server) (settings : list (string * option string))
    (h : list Query) :
  ((forall T (callback : NodePostgres.NodePostgresPgClient -> M T),
      own_statements (carries_bound_keys settings)
        (NodePostgres.withPgClient server (Some settings) callback) callback h) /\
   (forall T alwaysQueue (callback : PostgresJs.PostgresJsPgClient -> M T),
      own_statements (carries_bound_keys settings)
        (PostgresJs.withPgClient server alwaysQueue (Some settings) callback)
        callback h) /\
   (forall T (callback : PGlite.PGlitePgClient -> M T),
      own_statements (carries_bound_keys settings)
        (PGlite.withPgClient server (Some settings) callback) callback h)) /\
  (Forall (fun kv => snd kv = None) settings ->
   (forall T (callback : NodePostgres.NodePostgresPgClient -> M T),
      own_statements (fun q => is_set_config q = false)
        (NodePostgres.withPgClient server (Some settings) callback) callback h) /\
   (forall T alwaysQueue (callback : PostgresJs.PostgresJsPgClient -> M T),
      own_statements (fun q => is_set_config q = false)
        (PostgresJs.withPgClient server alwaysQueue (Some settings) callback)
        callback h) /\
   (forall T (callback : PGlite.PGlitePgClient -> M T),
      own_statements (fun q => is_set_config q = false)
        (PGlite.withPgClient server (Some settings) callback) callback h)).
Proof.
  assert (Hgeneral :
    (forall T (callback : NodePostgres.NodePostgresPgClient -> M T),
      own_statements (carries_bound_keys settings)
        (NodePostgres.withPgClient server (Some settings) callback) callback h) /\
    (forall T alwaysQueue (callback : PostgresJs.PostgresJsPgClient -> M T),
      own_statements (carries_bound_keys settings)
        (PostgresJs.withPgClient server alwaysQueue (Some settings) callback)
        callback h) /\
    (forall T (callback : PGlite.PGlitePgClient -> M T),
      own_statements (carries_bound_keys settings)
        (PGlite.withPgClient server (Some settings) callback) callback h)).
  { repeat split; intros.
    - apply EnvelopeFacts.node_own_statements.
    - apply EnvelopeFacts.postgresjs_own_statements.
    - apply EnvelopeFacts.pglite_own_statements. }
  split; [exact Hgeneral|].
  intros Hnull.
  assert (Hnone : forall q, carries_bound_keys settings q -> is_set_config q = false).
  { intros q Hq. destruct (is_set_config q) eqn:E; [|reflexivity].
    destruct (Hq E) as (entries & Hne & _ & Hkeys).
    destruct entries as [|[key value] rest]; [now elim Hne|].
    destruct (Hkeys key value (or_introl eq_refl)) as [bound Hin].
    rewrite Forall_forall in Hnull. specialize (Hnull _ Hin). discriminate. }
  destruct Hgeneral as (Hnode & Htagged & Hwasm).
  repeat split; intros;
    eapply EnvelopeFacts.own_statements_impl; try exact Hnone; auto.
Qed.

(** C9 at the settings map [{ role: null, timezone: undefined }]. *)
Lemma C9_null_settings_are_omitted_witness :
  Forall (fun kv : string * option string => snd kv = None)
    [("role", None); ("timezone", None)] /\
  own_statements (fun q => is_set_config q = false)
    (NodePostgres.withPgClient accepting
       (Some [("role", None); ("timezone", None)]) (fun _ => ret tt))
    (fun _ : NodePostgres.NodePostgresPgClient => ret tt) [] /\
  own_statements (fun q => is_set_config q = false)
    (PostgresJs.withPgClient accepting false
       (Some [("role", None); ("timezone", None)]) (fun _ => ret tt))
    (fun _ : PostgresJs.PostgresJsPgClient => ret tt) [] /\
  own_statements (fun q => is_set_config q = false)
    (PGlite.withPgClient accepting
       (Some [("role", None); ("timezone", None)]) (fun _ => ret tt))
    (fun _ : PGlite.PGlitePgClient => ret tt) [].
Proof.
  assert (Hnull : Forall (fun kv : string * option string => snd kv = None)
                    [("role", None); ("timezone", None)])
    by (repeat constructor).
  destruct (C9_null_settings_are_omitted accepting
              [("role", None); ("timezone", None)] []) as [_ Hclaim].
  destruct (Hclaim Hnull) as (Hnode & Htagged & Hwasm).
  split; [exact Hnull|]. split; [|split].
  - apply (Hnode unit).
  - apply (Htagged unit).
  - apply (Hwasm unit).
Defined.

End EnvelopeClaims.

(** ** JavaScript maps *)

Module JsMapFacts.
Import JsMap.
Local Open Scope list_scope.

Section Maps.
Context {V : Type}.
Implicit Types m : list (string * V).

Lemma map_get_not_in key m : ~ In key (map fst m) -> map_get key m = None.
Proof.
  induction m as [|[k v] rest IH]; simpl; [reflexivity|].
  intros H. destruct (String.eqb_spec k key) as [->|Hne].
  - elim H. now left.
  - apply IH. intros Hin. apply H. now right.
Qed.

Lemma map_get_in key m : In key (map fst m) -> exists v, map_get key m = Some v.
Proof.
  induction m as [|[k v] rest IH]; simpl; [intros []|].
  intros [->|Hin].
  - rewrite String.eqb_refl. eauto.
  - destruct (String.eqb k key); eauto.
Qed.

Lemma map_get_some_in key m v : map_get key m = Some v -> In key (map fst m).
Proof.
  induction m as [|[k v'] rest IH]; simpl; [discriminate|].
  destruct (String.eqb_spec k key) as [->|Hne]; [now left|].
  intros H. right. now apply IH.
Qed.

Lemma map_delete_keys key m :
  forall k, In k (map fst (map_delete key m)) -> In k (map fst m).
Proof.
  induction m as [|[k0 v] rest IH]; simpl; [tauto|].
  intros k. destruct (String.eqb k0 key); simpl; [now right|].
  intros [->|H]; [now left | right; now apply IH].
Qed.

Lemma map_delete_NoDup key m :
  NoDup (map fst m) -> NoDup (map fst (map_delete key m)).
Proof.
  induction m as [|[k v] rest IH]; simpl; [trivial|].
  intros H. inversion H as [|? ? Hnot Hrest]; subst.
  destruct (String.eqb k key); simpl; [assumption|].
  constructor; [|now apply IH].
  intros Hin. apply Hnot. eapply map_delete_keys; eassumption.
Qed.

Lemma map_get_delete_same key m :
  NoDup (map fst m) -> map_get key (map_delete key m) = None.
Proof.
  induction m as [|[k v] rest IH]; simpl; [reflexivity|].
  intros H. inversion H as [|? ? Hnot Hrest]; subst.
  destruct (String.eqb_spec k key) as [->|Hne].
  - now apply map_get_not_in.
  - simpl. destruct (String.eqb_spec k key); [congruence|]. now apply IH.
Qed.

Lemma map_get_set_same key v m : map_get key (map_set key v m) = Some v.
Proof.
  induction m as [|[k v'] rest IH]; simpl.
  - now rewrite String.eqb_refl.
  - destruct (String.eqb_spec k key) as [->|Hne]; simpl.
    + now rewrite String.eqb_refl.
    + destruct (String.eqb_spec k key); [congruence | exact IH].
Qed.

Lemma map_set_length_new key v m :
  map_get key m = None -> length (map_set key v m) = S (length m).
Proof.
  induction m as [|[k v'] rest IH]; simpl; [reflexivity|].
  destruct (String.eqb k key); [discriminate|].
  intros H. simpl. now rewrite IH.
Qed.

Lemma map_set_length_present key v v' m :
  map_get key m = Some v' -> length (map_set key v m) = length m.
Proof.
  induction m as [|[k v0] rest IH]; simpl; [discriminate|].
  destruct (String.eqb k key); [reflexivity|].
  intros H. simpl. now rewrite IH.
Qed.

Lemma map_delete_head key v m : map_delete key ((key, v) :: m) = m.
Proof. simpl. now rewrite String.eqb_refl. Qed.


Lemma map_get_delete_other key key' m :
  key' <> key -> map_get key' (map_delete key m) = map_get key' m.
Proof.
  intros Hne. induction m as [|[k v'] rest IH]; simpl; [reflexivity|].
  destruct (String.eqb_spec k key) as [->|Hk]; simpl.
  - destruct (String.eqb_spec key key'); [congruence | reflexivity].
  - destruct (String.eqb k key'); [reflexivity | exact IH].
Qed.

Lemma map_get_none_not_in key m : map_get key m = None -> ~ In key (map fst m).
Proof.
  intros Hnone Hin. apply map_get_in in Hin as [v Hv]. congruence.
Qed.

Lemma map_set_keys_new key v m :
  map_get key m = None -> map fst (map_set key v m) = map fst m ++ [key].
Proof.
  induction m as [|[k v'] rest IH]; simpl; [reflexivity|].
  destruct (String.eqb k key); [discriminate|].
  intros H. simpl. now rewrite IH.
Qed.

Lemma map_set_keys_present key v v' m :
  map_get key m = Some v' -> map fst (map_set key v m) = map fst m.
Proof.
  induction m as [|[k v0] rest IH]; simpl; [discriminate|].
  destruct (String.eqb k key); [reflexivity|].
  intros H. simpl. now rewrite IH.
Qed.

Lemma map_delete_length_present key v m :
  map_get key m = Some v -> S (length (map_delete key m)) = length m.
Proof.
  induction m as [|[k v0] rest IH]; simpl; [discriminate|].
  destruct (String.eqb k key); [reflexivity|].
  intros H. simpl. now rewrite IH.
Qed.

Lemma map_delete_length key m : length (map_delete key m) <= length m.
Proof.
  induction m as [|[k v0] rest IH]; simpl; [lia|].
  destruct (String.eqb k key); simpl; lia.
Qed.

Lemma map_get_In key v m : map_get key m = Some v -> In (key, v) m.
Proof.
  induction m as [|[k v0] rest IH]; simpl; [discriminate|].
  destruct (String.eqb_spec k key) as [->|Hne].
  - intros [= ->]. now left.
  - intros H. right. now apply IH.
Qed.

Lemma map_set_Forall (P : string * V -> Prop) key v m :
  P (key, v) -> (forall k x, P (k, x) -> k = key -> P (k, v)) ->
  Forall P m -> Forall P (map_set key v m).
Proof.
  intros Hnew Hsame. induction 1 as [|[k x] rest Hx Hrest IH]; simpl.
  - repeat constructor. exact Hnew.
  - destruct (String.eqb_spec k key) as [->|Hne]; constructor; auto.
Qed.

Lemma map_delete_Forall (P : string * V -> Prop) key m :
  Forall P m -> Forall P (map_delete key m).
Proof.
  induction 1 as [|[k x] rest Hx Hrest IH]; simpl; [constructor|].
  destruct (String.eqb k key); [assumption | now constructor].
Qed.

End Maps.
End JsMapFacts.

(** ** The LRU prepared-statement manager *)

Module LruFacts.
Import Lru JsMapFacts.
Local Open Scope list_scope.

(** *** The clean-up of the table of string keys *)


Lemma cleanup_within_bound (t : Tables) :
  length (stringKeyStates t) <= 100 -> cleanupStringStates t = t.
Proof.
  intros H. unfold cleanupStringStates.
  destruct (Nat.ltb_spec 100 (length (stringKeyStates t))); [lia | reflexivity].
Qed.


Lemma finally_block_tables lucky (clientKey : ClientKey) (w : World) :
  tables (finally_block lucky clientKey w)
  = match clientKey with
    | StringKey _ =>
        if lucky (draws w) then cleanupStringStates (tables w) else tables w
    | ObjectKey _ => tables w
    end.
Proof.
  unfold finally_block. destruct clientKey; [|reflexivity].
  now destruct (lucky (draws w)).
Qed.

(** *** The executor calls of [executeQuery] *)

Section Manager.
Variable maxPreparedStatements : nat.
Variable statementPrefix managerId : string.
Variable lucky : nat -> bool.
Variable executor : QueryExecutor.

Local Abbreviation executeQuery :=
  (Lru.executeQuery maxPreparedStatements statementPrefix managerId lucky).
Local Abbreviation execute_step := (Lru.execute_step lucky).
Local Abbreviation finally_block := (Lru.finally_block lucky).
Local Abbreviation run_pending := (Lru.run_pending lucky).

Lemma log_finally_block clientKey w : log (finally_block clientKey w) = log w.
Proof.
  unfold Lru.finally_block. destruct clientKey; [|reflexivity].
  now destruct (lucky (draws w)).
Qed.

Lemma log_run_pending pending clientKey w :
  log (run_pending pending clientKey w) = log w.
Proof. destruct pending; [apply log_finally_block | reflexivity]. Qed.

Lemma extends_refl w : extends w w.
Proof. exists []. now rewrite app_nil_r. Qed.

Lemma extends_trans w1 w2 w3 : extends w1 w2 -> extends w2 w3 -> extends w1 w3.
Proof.
  intros [l1 H1] [l2 H2]. exists (l1 ++ l2). now rewrite H2, H1, app_assoc.
Qed.

Lemma extends_log w w' l : log w' = log w ++ l -> extends w w'.
Proof. intros H. now exists l. Qed.

Lemma execute_step_extends retry pending clientKey state key stmt values
    arrayMode w out w' :
  (forall w1 out1 w1', retry w1 = Some (out1, w1') -> extends w1 w1') ->
  execute_step retry executor pending clientKey state key stmt values arrayMode w
  = Some (out, w') ->
  exists rest,
    log w' = log w ++ mkCall (execute_text stmt values) None :: rest.
Proof.
  intros Hretry. unfold Lru.execute_step.
  destruct (executor (log w) _) as [result|err].
  - intros [= <- <-]. exists [].
    now rewrite log_finally_block; simpl; rewrite log_run_pending.
  - destruct (does_not_exist err).
    + intros H. apply Hretry in H as [l H]. exists l.
      rewrite H. simpl. rewrite log_run_pending. simpl.
      now rewrite <- app_assoc.
    + intros [= <- <-]. exists [].
      now rewrite log_finally_block; simpl; rewrite log_run_pending.
Qed.

Lemma executeQuery_extends fuel :
  forall pending clientKey queryName queryText values arrayMode w out w',
  executeQuery fuel pending clientKey queryName queryText values executor
    arrayMode w = Some (out, w') ->
  extends w w'.
Proof.
  induction fuel as [|fuel IH]; intros pending clientKey queryName queryText
    values arrayMode w out w'; simpl; [discriminate|].
  destruct (falsy queryName || (length values =? 0)%nat).
  - intros [= <- <-]. eapply extends_log. rewrite log_run_pending. reflexivity.
  - destruct (getConnectionState clientKey (tables w)) as [state t].
    destruct (map_get _ (statements state)) as [stmt|].
    + intros H. apply execute_step_extends in H as [rest H].
      * eapply extends_log. exact H.
      * intros w1 out1 w1'. apply IH.
    + destruct (executor _ _) as [result|err].
      * destruct (evict _ _) as [state3 [call|]];
          intros H; apply execute_step_extends in H as [rest H];
          try (intros w1 out1 w1'; apply IH).
        -- eapply extends_log. rewrite H. simpl. rewrite log_run_pending.
           simpl. rewrite <- !app_assoc. reflexivity.
        -- eapply extends_log. rewrite H. rewrite log_run_pending.
           simpl. rewrite <- !app_assoc. reflexivity.
      * intros [= <- <-]. eapply extends_log. simpl. rewrite log_run_pending.
        simpl. rewrite <- !app_assoc. reflexivity.
Qed.

(** A call that does not find its statement starts with a [PREPARE]. *)
Lemma executeQuery_miss_prepares fuel pending clientKey queryName queryText
    values arrayMode w out w' :
  falsy queryName = false -> values <> [] ->
  (forall state, storage_get clientKey (tables w) = Some state ->
     map_get (generateStatementKey queryText (length values)) (statements state)
     = None) ->
  executeQuery fuel pending clientKey queryName queryText values executor
    arrayMode w = Some (out, w') ->
  exists counter rest,
    log w' =
    log w ++
    mkCall ("PREPARE " ++ (statementPrefix ++ "_" ++ managerId ++ "_"
                             ++ string_of_nat counter)
              ++ " AS " ++ queryText) None :: rest.
Proof.
  intros Hname Hvalues Hmiss.
  assert (Hlen : (length values =? 0)%nat = false)
    by (destruct values; [congruence | reflexivity]).
  destruct fuel as [|fuel]; [discriminate|].
  cbn [Lru.executeQuery]. rewrite Hname, Hlen. cbn [orb].
  unfold getConnectionState.
  destruct (storage_get clientKey (tables w)) as [state|] eqn:Hstate;
    [rewrite (Hmiss state eq_refl) | cbn [statements map_get]];
    (destruct (executor _ _) as [result|err];
     [ destruct (evict _ _) as [state3 [call|]];
         intros H; apply execute_step_extends in H as [rest H];
         try (intros w1 out1 w1'; apply executeQuery_extends);
         do 2 eexists; rewrite H; cbn [log record_call];
         rewrite ?log_run_pending; cbn [log record_call with_tables];
         rewrite <- !app_assoc; reflexivity
     | intros [= <- <-]; do 2 eexists; cbn [log record_call with_tables];
       rewrite log_run_pending; cbn [log record_call with_tables];
       rewrite <- !app_assoc; reflexivity ]).
Qed.

Lemma storage_get_set clientKey state t :
  storage_get clientKey (storage_set clientKey state t) = Some state.
Proof.
  destruct clientKey as [s|o]; simpl.
  - apply map_get_set_same.
  - induction (connectionStates t) as [|[k v] rest IH]; simpl;
      [now rewrite Nat.eqb_refl|].
    destruct (Nat.eqb_spec k o) as [->|Hne]; simpl.
    + now rewrite Nat.eqb_refl.
    + destruct (Nat.eqb_spec k o); [congruence | exact IH].
Qed.

(** After [write_back], the table holds under [clientKey] the state written,
    or nothing. *)
Lemma storage_get_write_back clientKey state t :
  storage_get clientKey (write_back clientKey state t)
  = match storage_get clientKey t with
    | Some _ => Some state
    | None => None
    end.
Proof.
  unfold write_back.
  destruct (storage_get clientKey t) eqn:E; [apply storage_get_set | exact E].
Qed.

(** The EXECUTE step, however the call has reached it. *)
Lemma execute_step_refused fuel pending clientKey queryName queryText values
    arrayMode state stmt w err :
  let key := generateStatementKey queryText (length values) in
  let execute := mkCall (execute_text stmt values) None in
  let retry :=
    executeQuery fuel true clientKey queryName queryText values executor
      arrayMode in
  let step :=
    execute_step retry executor pending clientKey state key stmt values
      arrayMode w in
  let w1 := run_pending pending clientKey (record_call execute w) in
  let w' :=
    with_tables
      (write_back clientKey
         (mkState (lru state) (map_delete key (statements state)) (counter state))
         (tables w1)) w1 in
  falsy queryName = false -> values <> [] ->
  NoDup (statement_keys state) ->
  executor (log w) execute = Threw err ->
  (does_not_exist err = true ->
   step = retry w' /\
   log w' = log w ++ [execute] /\
   (forall state', storage_get clientKey (tables w') = Some state' ->
      statements state' = map_delete key (statements state)) /\
   forall out w'',
     retry w' = Some (out, w'') ->
     exists counter rest,
       log w'' =
       log w' ++
       mkCall ("PREPARE " ++ (statementPrefix ++ "_" ++ managerId ++ "_"
                                ++ string_of_nat counter)
                 ++ " AS " ++ queryText) None :: rest) /\
  (does_not_exist err = false ->
   exists w'' : World,
     step = Some (Threw err, w'') /\ log w'' = log w ++ [execute]).
Proof.
  intros key execute retry step w1 w' Hname Hvalues Hdistinct Hrefused.
  subst step. unfold Lru.execute_step. fold execute. rewrite Hrefused.
  fold w1.
  assert (Hstored : forall state',
    storage_get clientKey (tables w') = Some state' ->
    statements state' = map_delete key (statements state)).
  { intros state'. subst w'. cbn [tables with_tables].
    rewrite storage_get_write_back.
    destruct (storage_get clientKey _); [|discriminate].
    now intros [= <-]. }
  split; intros Hmsg; rewrite Hmsg.
  - split; [reflexivity|].
    split; [subst w' w1; cbn [log with_tables]; rewrite log_run_pending; reflexivity|].
    split; [exact Hstored|].
    intros out w'' Hretry.
    eapply executeQuery_miss_prepares in Hretry; eauto.
    intros state' Hstate'. rewrite (Hstored state' Hstate').
    now apply map_get_delete_same.
  - eexists. split; [reflexivity|].
    rewrite log_finally_block. cbn [log with_tables]. subst w1.
    now rewrite log_run_pending.
Qed.

(** A call whose statement is cached goes to the EXECUTE step. *)
Lemma executeQuery_hit fuel pending clientKey queryName queryText values
    arrayMode state stmt w :
  let key := generateStatementKey queryText (length values) in
  falsy queryName = false -> values <> [] ->
  storage_get clientKey (tables w) = Some state ->
  map_get key (statements state) = Some stmt ->
  executeQuery (S fuel) pending clientKey queryName queryText values executor
    arrayMode w
  = execute_step
      (executeQuery fuel true clientKey queryName queryText values executor
         arrayMode)
      executor pending clientKey
      (mkState (snd (lru_get key (lru state))) (statements state) (counter state))
      key stmt values arrayMode w.
Proof.
  intros key Hname Hvalues Hstate Hhit.
  assert (Hlen : (length values =? 0)%nat = false)
    by (destruct values; [congruence | reflexivity]).
  cbn [Lru.executeQuery]. rewrite Hname, Hlen. cbn [orb].
  unfold getConnectionState. rewrite Hstate.
  fold key. rewrite Hhit. destruct w; reflexivity.
Qed.

End Manager.

(** *** The bound on the statements of a connection *)

Lemma lru_get_length key l : length (snd (lru_get key l)) = length l.
Proof.
  unfold lru_get. destruct (map_get key l) as [v|] eqn:E; [|reflexivity].
  simpl. now apply map_delete_length_present with (v := v).
Qed.

Lemma lru_get_absent key k l :
  map_get k (snd (lru_get key l)) = None <-> map_get k l = None.
Proof.
  unfold lru_get. destruct (map_get key l) as [v|] eqn:E; [|reflexivity].
  simpl. destruct (String.eqb_spec key k) as [<-|Hne].
  - rewrite E. split; discriminate.
  - now rewrite map_get_delete_other by congruence.
Qed.

Lemma lru_get_found key l :
  fst (lru_get key l) = map_get key l.
Proof. unfold lru_get. now destruct (map_get key l). Qed.

Lemma removelast_length {A} (l : list A) :
  l <> [] -> S (length (removelast l)) = length l.
Proof.
  induction l as [|x l IH]; [congruence|]. intros _.
  destruct l as [|y l']; [reflexivity|].
  change (removelast (x :: y :: l')) with (x :: removelast (y :: l')).
  cbn [length]. now rewrite IH by discriminate.
Qed.

Lemma lru_set_length bound key value l :
  1 <= bound -> length l <= bound ->
  length (lru_set bound key value l) <= bound.
Proof.
  intros Hbound Hl. unfold lru_set.
  destruct (map_get key l) as [v|] eqn:E.
  - now rewrite (map_set_length_present key value v).
  - destruct (Nat.eqb_spec (length l) bound) as [Hfull|Hroom]; simpl; [|lia].
    destruct l as [|x l']; [simpl in *; lia|].
    pose proof (removelast_length (x :: l') ltac:(discriminate)). lia.
Qed.

(** The scan finds a statement whose key the LRU does not hold, if there
    is one, and leaves the LRU as long as it was. *)
Lemma evict_scan_finds remaining : forall l,
  (exists k, In k (map fst remaining) /\ map_get k l = None) ->
  exists k v l',
    evict_scan remaining l = (Some (k, v), l') /\
    In (k, v) remaining /\ map_get k l = None /\ length l' = length l.
Proof.
  induction remaining as [|[k0 v0] rest IH]; intros l (k & Hin & Habsent);
    [destruct Hin|].
  cbn [evict_scan].
  pose proof (lru_get_found k0 l) as Hfound.
  pose proof (lru_get_length k0 l) as Hlength.
  pose proof (fun k => lru_get_absent k0 k l) as Hkeys.
  destruct (lru_get k0 l) as [[hit|] l1]; cbn [fst snd] in *.
  - destruct (IH l1) as (k' & v' & l' & Hscan & Hin' & Habsent' & Hlen').
    + exists k. split; [|now apply Hkeys].
      simpl in Hin. destruct Hin as [<-|Hin]; [congruence | assumption].
    + exists k', v', l'. repeat split; try assumption.
      * now right.
      * now apply Hkeys.
      * congruence.
  - exists k0, v0, l1. repeat split; [now left | congruence | assumption].
Qed.

Lemma evict_scan_length remaining : forall l,
  length (snd (evict_scan remaining l)) = length l.
Proof.
  induction remaining as [|[k0 v0] rest IH]; intros l; [reflexivity|].
  cbn [evict_scan]. pose proof (lru_get_length k0 l) as Hlength.
  destruct (lru_get k0 l) as [[hit|] l1]; cbn [fst snd] in *;
    [rewrite IH|]; assumption.
Qed.

(** Pigeonhole: more distinct keys than the LRU has entries. *)
Lemma some_key_outside (keys : list string) (l : LRU) :
  NoDup keys -> length l < length keys ->
  exists k, In k keys /\ map_get k l = None.
Proof.
  intros Hdistinct Hmore.
  destruct (existsb (fun k => match map_get k l with
                              | Some _ => false
                              | None => true
                              end) keys) eqn:E.
  - apply existsb_exists in E as (k & Hin & Hk). exists k. split; [assumption|].
    now destruct (map_get k l).
  - exfalso.
    assert (Hincl : incl keys (map fst l)).
    { intros k Hin. destruct (map_get k l) as [v|] eqn:Hk.
      - eapply map_get_some_in; eassumption.
      - assert (Hex : existsb (fun k => match map_get k l with
                                        | Some _ => false
                                        | None => true
                                        end) keys = true)
          by (apply existsb_exists; exists k; now rewrite Hk).
        congruence. }
    pose proof (NoDup_incl_length Hdistinct Hincl) as Hle.
    rewrite length_map in Hle. lia.
Qed.

(** An insertion that overflows the cap evicts one statement, with one
    DEALLOCATE, whose key the statement map holds and the LRU does not; an
    insertion that does not overflow evicts nothing. *)
Lemma evict_spec bound state :
  NoDup (statement_keys state) -> length (lru state) <= bound ->
  (bound < length (statements state) ->
   exists k v,
     In (k, v) (statements state) /\ map_get k (lru state) = None /\
     snd (evict bound state) = Some (mkCall ("DEALLOCATE " ++ name v) None) /\
     statements (fst (evict bound state)) = map_delete k (statements state) /\
     S (length (statements (fst (evict bound state))))
     = length (statements state)) /\
  (length (statements state) <= bound -> evict bound state = (state, None)) /\
  length (lru (fst (evict bound state))) = length (lru state) /\
  counter (fst (evict bound state)) = counter state.
Proof.
  intros Hdistinct Hlru. unfold evict.
  destruct (Nat.ltb_spec bound (length (statements state))) as [Hover|Hfits].
  - destruct (some_key_outside (statement_keys state) (lru state) Hdistinct)
      as (k & Hin & Habsent);
      [unfold statement_keys; rewrite length_map; lia|].
    destruct (evict_scan_finds (statements state) (lru state))
      as (k' & v' & l' & Hscan & Hin' & Habsent' & Hlen'); [eauto|].
    rewrite Hscan. cbn [fst snd statements lru counter].
    split; [|split; [intros; lia | split; [assumption | reflexivity]]].
    intros _. exists k', v'. repeat split; try assumption.
    apply map_delete_length_present with (v := v').
    clear - Hin' Hdistinct. unfold statement_keys in Hdistinct.
    induction (statements state) as [|[k0 v0] rest IH]; [destruct Hin'|].
    simpl. inversion Hdistinct as [|? ? Hnot Hrest]; subst.
    destruct Hin' as [[= -> ->]|Hin'].
    + now rewrite String.eqb_refl.
    + destruct (String.eqb_spec k0 k') as [->|Hne]; [|now apply IH].
      elim Hnot. apply in_map_iff. now exists (k', v').
  - split; [intros; lia|]. repeat split.
Qed.

(** *** The statements of a connection stay within the bound *)

Section Bound.
Variable bound : nat.
Variables statementPrefix managerId : string.
Variable lucky : nat -> bool.
Hypothesis bound_positive : 1 <= bound.

Local Abbreviation executeQuery :=
  (Lru.executeQuery bound statementPrefix managerId lucky).
Local Abbreviation execute_step := (Lru.execute_step lucky).
Local Abbreviation finally_block := (Lru.finally_block lucky).
Local Abbreviation run_pending := (Lru.run_pending lucky).
Local Abbreviation state_ok := (Lru.state_ok bound).
Local Abbreviation tables_ok := (Lru.tables_ok bound).
Local Abbreviation world_ok := (Lru.world_ok bound).

Lemma state_ok_new : state_ok (mkState [] [] 0).
Proof. repeat split; simpl; [constructor | lia | lia]. Qed.

Lemma state_ok_counter state c :
  state_ok state -> state_ok (mkState (lru state) (statements state) c).
Proof. intros H. exact H. Qed.

Lemma state_ok_touch key state :
  state_ok state ->
  state_ok (mkState (snd (lru_get key (lru state))) (statements state)
              (counter state)).
Proof.
  intros (Hkeys & Hsize & Hlru). repeat split; try assumption.
  cbn [lru]. now rewrite lru_get_length.
Qed.

Lemma state_ok_forget key state :
  state_ok state ->
  state_ok (mkState (lru state) (map_delete key (statements state))
              (counter state)).
Proof.
  intros (Hkeys & Hsize & Hlru). repeat split; try assumption.
  - now apply map_delete_NoDup.
  - cbn [statements]. pose proof (map_delete_length key (statements state)). lia.
Qed.

(** Storing a new statement and running the eviction check keeps the
    statement map within the bound. *)
Lemma state_ok_insert key stmt state c :
  state_ok state -> map_get key (statements state) = None ->
  state_ok
    (fst (evict bound
            (mkState (lru_set bound key stmt (lru state))
               (map_set key stmt (statements state)) c))).
Proof.
  intros (Hkeys & Hsize & Hlru) Hnew.
  set (state2 := mkState _ _ c).
  assert (Hkeys2 : NoDup (statement_keys state2)).
  { unfold statement_keys, state2. cbn [statements].
    rewrite map_set_keys_new by assumption.
    apply NoDup_app; [assumption | repeat constructor; intros [] |].
    intros k Hk [<-|[]]. now apply map_get_none_not_in in Hnew. }
  assert (Hlru2 : length (lru state2) <= bound)
    by now apply lru_set_length.
  assert (Hsize2 : length (statements state2) = S (length (statements state)))
    by now apply map_set_length_new.
  destruct (evict_spec bound state2 Hkeys2 Hlru2)
    as (Hover & Hfits & Hlru3 & _).
  destruct (Nat.le_gt_cases (length (statements state2)) bound) as [Hle|Hgt].
  - rewrite (Hfits Hle). cbn [fst]. repeat split; assumption.
  - destruct (Hover Hgt) as (k & v & _ & _ & _ & Hmap & Hlen).
    repeat split.
    + unfold statement_keys. rewrite Hmap. now apply map_delete_NoDup.
    + lia.
    + lia.
Qed.

Lemma storage_get_ok clientKey t state :
  tables_ok t -> storage_get clientKey t = Some state -> state_ok state.
Proof.
  intros [Hstrings Hobjects]. destruct clientKey as [s|o]; simpl; intros Hget.
  - apply map_get_In in Hget.
    now apply (proj1 (Forall_forall _ _) Hstrings (s, state)).
  - induction Hobjects as [|[k v] rest Hv Hrest IH]; simpl in Hget;
      [discriminate|].
    destruct (k =? o)%nat; [now injection Hget as <- | now apply IH].
Qed.

Lemma storage_set_ok clientKey state t :
  tables_ok t -> state_ok state -> tables_ok (storage_set clientKey state t).
Proof.
  intros [Hstrings Hobjects] Hstate. destruct clientKey as [s|o]; split; simpl;
    try assumption.
  - now apply map_set_Forall.
  - induction Hobjects as [|[k v] rest Hv Hrest IH]; simpl.
    + constructor; [exact Hstate | constructor].
    + destruct (k =? o)%nat; constructor; assumption.
Qed.

Lemma write_back_ok clientKey state t :
  tables_ok t -> state_ok state -> tables_ok (write_back clientKey state t).
Proof.
  intros Ht Hstate. unfold write_back.
  destruct (storage_get clientKey t); [now apply storage_set_ok | assumption].
Qed.

Lemma getConnectionState_ok clientKey t :
  tables_ok t ->
  state_ok (fst (getConnectionState clientKey t)) /\
  tables_ok (snd (getConnectionState clientKey t)).
Proof.
  intros Ht. unfold getConnectionState.
  destruct (storage_get clientKey t) as [state|] eqn:Hget; cbn [fst snd].
  - split; [eapply storage_get_ok; eassumption | assumption].
  - split; [apply state_ok_new | apply storage_set_ok; [assumption|]].
    apply state_ok_new.
Qed.

Lemma cleanupStringStates_ok t : tables_ok t -> tables_ok (cleanupStringStates t).
Proof.
  intros [Hstrings Hobjects]. unfold cleanupStringStates.
  destruct (100 <? length (stringKeyStates t))%nat; [|now split].
  destruct (stringKeyStates t) as [|[oldest state] rest] eqn:E;
    [split; [now rewrite E | assumption]|].
  split; [|assumption]. cbn [stringKeyStates]. now apply map_delete_Forall.
Qed.

Lemma finally_block_ok clientKey w : world_ok w -> world_ok (finally_block clientKey w).
Proof.
  unfold Lru.world_ok. rewrite finally_block_tables. intros Hw.
  destruct clientKey; [|assumption].
  destruct (lucky (draws w)); [now apply cleanupStringStates_ok | assumption].
Qed.

Lemma run_pending_ok pending clientKey w :
  world_ok w -> world_ok (run_pending pending clientKey w).
Proof.
  destruct pending; [apply finally_block_ok | trivial].
Qed.

Lemma written_back_ok clientKey state w :
  world_ok w -> state_ok state ->
  world_ok (with_tables (write_back clientKey state (tables w)) w).
Proof. intros Hw Hstate. now apply write_back_ok. Qed.

Lemma execute_step_ok retry executor pending clientKey state key stmt values
    arrayMode w out w' :
  (forall w1 out1 w1', world_ok w1 -> retry w1 = Some (out1, w1') -> world_ok w1') ->
  state_ok state -> world_ok w ->
  execute_step retry executor pending clientKey state key stmt values arrayMode w
  = Some (out, w') ->
  world_ok w'.
Proof.
  intros Hretry Hstate Hw. unfold Lru.execute_step.
  set (call := mkCall _ None).
  assert (Hw1 : world_ok (run_pending pending clientKey (record_call call w)))
    by now apply run_pending_ok.
  destruct (executor (log w) call) as [result|err].
  - intros [= _ <-]. now apply finally_block_ok, written_back_ok.
  - destruct (does_not_exist err).
    + apply Hretry. apply written_back_ok; [assumption|].
      now apply state_ok_forget.
    + intros [= _ <-]. now apply finally_block_ok, written_back_ok.
Qed.

(** Every call of [executeQuery] that completes keeps, for every connection,
    the statement map and the LRU within [maxPreparedStatements] and the
    statement keys distinct. *)
Lemma executeQuery_ok fuel :
  forall pending clientKey queryName queryText values executor arrayMode w out w',
    world_ok w ->
    executeQuery fuel pending clientKey queryName queryText values executor
      arrayMode w = Some (out, w') ->
    world_ok w'.
Proof.
  induction fuel as [|fuel IH]; intros pending clientKey queryName queryText
    values executor arrayMode w out w' Hw; [discriminate|].
  cbn [Lru.executeQuery].
  destruct (falsy queryName || (length values =? 0)%nat).
  { intros [= _ <-]. now apply run_pending_ok. }
  destruct (getConnectionState_ok clientKey (tables w) Hw) as [Hstate Ht].
  destruct (getConnectionState clientKey (tables w)) as [state t].
  cbn [fst snd] in Hstate, Ht.
  set (key := generateStatementKey queryText (length values)).
  assert (Hw0 : world_ok (with_tables t w)) by exact Ht.
  destruct (map_get key (statements state)) as [stmt|] eqn:Hhit.
  - apply execute_step_ok; [|now apply state_ok_touch | assumption].
    intros w1 out1 w1'. apply IH.
  - set (prepare := mkCall _ None).
    assert (Hw1 : world_ok (run_pending pending clientKey
                              (record_call prepare (with_tables t w))))
      by now apply run_pending_ok.
    destruct (executor (log (with_tables t w)) prepare) as [result|err].
    + set (stmt := mkStatement _ queryText (length values)).
      pose proof (state_ok_insert key stmt
                    (mkState (lru state) (statements state) (counter state + 1))
                    (counter state + 1) Hstate Hhit) as Hstate3.
      cbn [lru statements counter] in *.
      destruct (evict bound _) as [state3 deallocate]. cbn [fst] in Hstate3.
      apply execute_step_ok; [|assumption|].
      * intros w1 out1 w1'. apply IH.
      * destruct deallocate; exact Hw1.
    + intros [= _ <-].
      exact (written_back_ok clientKey
               (mkState (lru state) (statements state) (counter state + 1)) _
               Hw1 Hstate).
Qed.

Lemma run_ok fuel executor requests : forall w w',
  world_ok w -> run bound statementPrefix managerId lucky fuel executor requests w
                = Some w' ->
  world_ok w'.
Proof.
  induction requests as [|r rest IH]; intros w w' Hw; simpl.
  - now intros [= <-].
  - destruct (executeQuery fuel false (clientKey r) (queryName r) (queryText r)
                (values r) executor (arrayMode r) w) as [[out w1]|] eqn:E;
      [|discriminate].
    apply IH. eapply executeQuery_ok; eassumption.
Qed.

(** From the start of the process on, whatever the calls and the answers of
    the executor, no connection holds more than [maxPreparedStatements]
    statements once the calls have completed. *)
Lemma statements_within_bound fuel executor requests w clientKey state :
  run bound statementPrefix managerId lucky fuel executor requests empty_world
  = Some w ->
  storage_get clientKey (tables w) = Some state ->
  length (statements state) <= bound.
Proof.
  intros Hrun Hget.
  assert (Hw : world_ok w).
  { eapply run_ok; [|eassumption]. split; constructor. }
  now destruct (storage_get_ok clientKey (tables w) state Hw Hget) as (_ & H & _).
Qed.

End Bound.

End LruFacts.

(** ** The claims about the LRU manager *)

Module LruClaims.
Import Lru JsMapFacts LruFacts.
Local Open Scope list_scope.

(** C4: a named query with values: when the executor refuses the EXECUTE
    with an error whose message contains "does not exist", the EXECUTE step
    removes the entry of the statement key from the state of the connection
    and becomes one recursive call of executeQuery, which starts by
    preparing the statement again; when the message does not contain it, the
    error of the executor is what the caller receives.  The first part is
    the EXECUTE step however the call has reached it, the second a call
    whose statement is cached. *)
Theorem C4_missing_statement_is_retried
    (maxPreparedStatements : nat) (statementPrefix managerId : string)
    (lucky : nat -> bool) (executor : QueryExecutor)
    (fuel : nat) (clientKey : ClientKey) (queryName : option string)
    (queryText : string) (values : list JsValue) (arrayMode : bool)
    (w : World) (state : ConnectionState) (stmt : PreparedStatement)
    (err : JsError) :
  let key := generateStatementKey queryText (length values) in
  let execute := mkCall (execute_text stmt values) None in
  let retry :=
    executeQuery maxPreparedStatements statementPrefix managerId lucky
      fuel true clientKey queryName queryText values executor arrayMode in
  let prepares_again (w' : World) :=
    forall out w'',
      retry w' = Some (out, w'') ->
      exists counter rest,
        log w'' =
        log w' ++
        mkCall ("PREPARE " ++ (statementPrefix ++ "_" ++ managerId ++ "_"
                                 ++ string_of_nat counter)
                  ++ " AS " ++ queryText) None :: rest in
  falsy queryName = false -> values <> [] ->
  NoDup (statement_keys state) ->
  executor (log w) execute = Threw err ->
  (forall pending : bool,
     let step :=
       execute_step lucky retry executor pending clientKey state key stmt
         values arrayMode w in
     (does_not_exist err = true ->
      exists w' : World,
        step = retry w' /\
        log w' = log w ++ [execute] /\
        (forall state', storage_get clientKey (tables w') = Some state' ->
           statements state' = map_delete key (statements state)) /\
        prepares_again w') /\
     (does_not_exist err = false ->
      exists w' : World,
        step = Some (Threw err, w') /\ log w' = log w ++ [execute])) /\
  (storage_get clientKey (tables w) = Some state ->
   map_get key (statements state) = Some stmt ->
   let call :=
     executeQuery maxPreparedStatements statementPrefix managerId lucky
       (S fuel) false clientKey queryName queryText values executor arrayMode w in
   (does_not_exist err = true ->
    exists (w' : World) (state' : ConnectionState),
      call = retry w' /\
      log w' = log w ++ [execute] /\
      storage_get clientKey (tables w') = Some state' /\
      statements state' = map_delete key (statements state) /\
      map_get key (statements state') = None /\
      prepares_again w') /\
   (does_not_exist err = false ->
    exists w' : World,
      call = Some (Threw err, w') /\ log w' = log w ++ [execute])).
Proof.
  intros key execute retry prepares_again Hname Hvalues Hdistinct Hrefused.
  split.
  - intros pending step.
    destruct (execute_step_refused maxPreparedStatements statementPrefix managerId
                lucky executor fuel pending clientKey queryName queryText values
                arrayMode state stmt w err Hname Hvalues Hdistinct Hrefused)
      as [Hlost Hother].
    split; [|exact Hother].
    intros Hmsg. destruct (Hlost Hmsg) as (Hstep & Hlog & Hstored & Hagain).
    eexists. repeat split; eassumption.
  - intros Hstate Hhit call. subst call.
    rewrite (executeQuery_hit maxPreparedStatements statementPrefix managerId
               lucky executor fuel false clientKey queryName queryText values
               arrayMode state stmt w Hname Hvalues Hstate Hhit).
    destruct (execute_step_refused maxPreparedStatements statementPrefix
                managerId lucky executor fuel false clientKey queryName
                queryText values arrayMode
                (mkState (snd (lru_get key (lru state))) (statements state)
                   (counter state))
                stmt w err Hname Hvalues Hdistinct Hrefused)
      as [Hlost Hother].
    split; [|exact Hother].
    intros Hmsg. destruct (Hlost Hmsg) as (Hstep & Hlog & Hstored & Hagain).
    cbn [Lru.run_pending lru statements counter] in *.
    set (w' :=
           with_tables
             (write_back clientKey
                (mkState (snd (lru_get key (lru state)))
                   (map_delete key (statements state)) (counter state))
                (tables (record_call execute w)))
             (record_call execute w)) in *.
    assert (Hpresent :
      storage_get clientKey (tables w')
      = Some (mkState (snd (lru_get key (lru state)))
                (map_delete key (statements state)) (counter state))).
    { subst w'. cbn [tables with_tables record_call].
      now rewrite storage_get_write_back, Hstate. }
    exists w', (mkState (snd (lru_get key (lru state)))
                  (map_delete key (statements state)) (counter state)).
    repeat split; try assumption.
    now apply map_get_delete_same.
Qed.

(** C4 at a connection that holds the statement of [select $1], with an
    executor that has lost it: the first EXECUTE is refused with "does not
    exist", the retry prepares the statement again and succeeds. *)
Lemma C4_missing_statement_is_retried_witness :
  let executor :=
    losing_once (Error "prepared statement pglite_abc123_0 does not exist") in
  let run fuel pending w :=
    executeQuery 2 "pglite" "abc123" never_lucky fuel pending
      (StringKey "pglite-static") (Some "q") "select $1" [JOther "1"]
      executor false w in
  exists w' state',
    run 2 false one_statement_world = run 1 true w' /\
    log w' = [mkCall "EXECUTE pglite_abc123_0(1)" None] /\
    storage_get (StringKey "pglite-static") (tables w') = Some state' /\
    statements state' = [] /\
    option_map (fun r => map sent_text (log (snd r))) (run 1 true w')
    = Some ["EXECUTE pglite_abc123_0(1)";
            "PREPARE pglite_abc123_1 AS select $1";
            "EXECUTE pglite_abc123_1(1)"].
Proof.
  intros executor run.
  destruct (C4_missing_statement_is_retried 2 "pglite" "abc123" never_lucky
              executor 1 (StringKey "pglite-static") (Some "q") "select $1"
              [JOther "1"] false one_statement_world
              (mkState
                 [(generateStatementKey "select $1" 1,
                   mkStatement "pglite_abc123_0" "select $1" 1)]
                 [(generateStatementKey "select $1" 1,
                   mkStatement "pglite_abc123_0" "select $1" 1)] 1)
              (mkStatement "pglite_abc123_0" "select $1" 1)
              (Error "prepared statement pglite_abc123_0 does not exist")
              eq_refl ltac:(discriminate)
              ltac:(repeat constructor; simpl; tauto) eq_refl) as [_ Hcached].
  destruct (Hcached eq_refl ltac:(vm_compute; reflexivity)) as [Hretry _].
  destruct (Hretry eq_refl)
    as (w' & state' & Hrun & Hlog & Hstate & Hstatements & _ & _).
  exists w', state'. subst run. cbv beta.
  split; [exact Hrun|]. split; [exact Hlog|]. split; [exact Hstate|].
  split.
  - rewrite Hstatements. vm_compute. reflexivity.
  - rewrite <- Hrun. vm_compute. reflexivity.
Defined.




(** C5, where the code departs from the claim: with a cache of two
    statements, after the completed named queries Q1, Q2, Q1, Q3, Q4 on one
    connection the statement map holds Q1 and Q4, whereas the two most
    recently used keys are Q4 and Q3: the scan that looks for the statement
    to evict calls [lru.get] on Q1, which makes Q1 the most recently used, so
    that the insertion of Q4 deallocates the statement of Q3. *)
Theorem C5_eviction_scan_refreshes_older_statements :
  let final :=
    run 2 "pglite" "abc123" never_lucky 1 accepting five_queries empty_world in
  let k n := key_of (nth n five_queries (named_query "" "")) in
  option_map (fun w => map (fun kv => statement_keys (snd kv))
                          (stringKeyStates (tables w))) final
  = Some [[k 0; k 4]] /\
  most_recent 2 (map key_of five_queries) = [k 4; k 3] /\
  option_map (fun w => map sent_text (log w)) final
  = Some ["PREPARE pglite_abc123_0 AS select 1 where $1 = 1";
          "EXECUTE pglite_abc123_0(1)";
          "PREPARE pglite_abc123_1 AS select 2 where $1 = 1";
          "EXECUTE pglite_abc123_1(1)";
          "EXECUTE pglite_abc123_0(1)";
          "PREPARE pglite_abc123_2 AS select 3 where $1 = 1";
          "DEALLOCATE pglite_abc123_1";
          "EXECUTE pglite_abc123_2(1)";
          "PREPARE pglite_abc123_3 AS select 4 where $1 = 1";
          "DEALLOCATE pglite_abc123_2";
          "EXECUTE pglite_abc123_3(1)"].
Proof. vm_compute. repeat split. Qed.

End LruClaims.

(** ** The subscriber *)

Module SubscriberFacts.
Import JsMap JsMapFacts Subscriber.
Local Open Scope list_scope.

(** *** Objects *)

Section Objects.
Context {V : Type}.
Implicit Types o : list (string * V).

Lemma obj_get_insert key key' v o :
  obj_get key o = None ->
  obj_get key' (obj_insert key v o)
  = if String.eqb key key' then Some v else obj_get key' o.
Proof.
  induction o as [|[k x] rest IH]; simpl; [reflexivity|].
  destruct (String.eqb_spec k key) as [->|Hk]; [discriminate|].
  intros Habsent. specialize (IH Habsent).
  assert (Hstay :
    obj_get key' ((k, x) :: obj_insert key v rest)
    = if String.eqb key key' then Some v
      else if String.eqb k key' then Some x else obj_get key' rest).
  { simpl. rewrite IH.
    destruct (String.eqb_spec k key') as [->|];
      destruct (String.eqb_spec key key'); congruence. }
  assert (Hfront :
    obj_get key' ((key, v) :: (k, x) :: rest)
    = if String.eqb key key' then Some v
      else if String.eqb k key' then Some x else obj_get key' rest)
    by reflexivity.
  destruct (array_index key) as [n|], (array_index k) as [m|];
    try destruct (n <? m)%N; assumption.
Qed.

Lemma obj_get_replace key key' v o :
  obj_get key' (obj_replace key v o)
  = match obj_get key' o with
    | Some x => if String.eqb key key' then Some v else Some x
    | None => None
    end.
Proof.
  induction o as [|[k x] rest IH]; simpl; [reflexivity|].
  destruct (String.eqb_spec k key) as [->|Hk]; simpl.
  - destruct (String.eqb key key'); [reflexivity|].
    now destruct (obj_get key' rest).
  - destruct (String.eqb_spec k key') as [->|Hk'].
    + destruct (String.eqb_spec key key'); [congruence | reflexivity].
    + exact IH.
Qed.




Lemma obj_get_in key o x : obj_get key o = Some x -> In key (map fst o).
Proof.
  induction o as [|[k y] rest IH]; simpl; [discriminate|].
  destruct (String.eqb_spec k key) as [->|Hne]; [now left|].
  intros H. right. now apply IH.
Qed.







End Objects.

(** *** Counting the calls of the pool *)






Lemma resolve_all value q w :
  fold_left (fun w' p => emit (Resolved p value) w') q w
  = mkWorld (subscriber w) (effects w ++ map (fun p => Resolved p value) q).
Proof.
  revert w. induction q as [|p q IH]; intros w; simpl.
  - rewrite app_nil_r. now destruct w.
  - rewrite IH. simpl. now rewrite <- app_assoc.
Qed.


Lemma has_consumers_replace topic key array s :
  has_consumers topic (set_topics (obj_replace key array (topics s)) s)
  = has_consumers topic s.
Proof.
  unfold has_consumers. simpl. rewrite obj_get_replace.
  destruct (obj_get topic (topics s)); [|reflexivity].
  now destruct (String.eqb key topic).
Qed.

(** *** [doFinally] *)

Ltac expose :=
  cbn [topics set_topics subscriber set_subscriber emit effects unlisteners
       set_unlisteners alive].

Section WithPool.
Variable pool_listen : list Effect -> string -> Outcome Handle.
Variable run_unlisten : list Effect -> Handle -> Outcome unit.














(** *** [release] *)

Lemma doFinally_alive c value w :
  alive (subscriber (fst (doFinally run_unlisten c value w)))
  = alive (subscriber w).
Proof.
  unfold doFinally.
  destruct (consumer_get c (consumers (subscriber w))) as [con|]; [|reflexivity].
  destruct (finished con); [reflexivity|].
  rewrite resolve_all.
  destruct (obj_get (topicString con) (topics (subscriber w))) as [array|];
    [|reflexivity].
  destruct (remove_first c array) as [[|x array']|]; try reflexivity.
  unfold unlisten_call. expose.
  now destruct (map_get (topicString con) (unlisteners (subscriber w))).
Qed.

Lemma return_all_alive fuel topic : forall i w pending,
  alive (subscriber (fst (return_all run_unlisten fuel topic i w pending)))
  = alive (subscriber w).
Proof.
  induction fuel as [|fuel IH]; intros i w pending; simpl; [reflexivity|].
  destruct (obj_get topic (topics (subscriber w))) as [array|]; [|reflexivity].
  destruct (nth_error array i) as [c|]; [|reflexivity].
  pose proof (doFinally_alive c None (emit (ReturnCalled c) w)) as H.
  destruct (doFinally run_unlisten c None (emit (ReturnCalled c) w)) as [w' p].
  rewrite IH. exact H.
Qed.

Lemma release_topics_alive keys : forall w pending,
  alive (subscriber (fst (release_topics run_unlisten keys w pending)))
  = alive (subscriber w).
Proof.
  induction keys as [|topic keys IH]; intros w pending; simpl; [reflexivity|].
  match goal with |- context [return_all run_unlisten ?n topic 0 w pending] =>
    pose proof (return_all_alive n topic 0 w pending) as H;
    destruct (return_all run_unlisten n topic 0 w pending) as [w1 pending1]
  end.
  rewrite IH. exact H.
Qed.

Lemma settle_all_alive pending : forall w,
  alive (subscriber (fold_left (fun w' p => unlisten_settle (Some p) w') pending w))
  = alive (subscriber w).
Proof.
  induction pending as [|[topic [u|e]] pending IH]; intros w; simpl;
    [reflexivity | |]; now rewrite IH.
Qed.

Lemma call_all_alive (entries : list (string * Handle)) : forall w,
  alive (subscriber
           (fold_left (fun w' entry => emit (UnlistenCalled (fst entry) (snd entry)) w')
              entries w))
  = alive (subscriber w).
Proof.
  induction entries as [|entry entries IH]; intros w; simpl;
    [reflexivity | now rewrite IH].
Qed.

Lemma release_not_alive w :
  alive (subscriber (snd (release run_unlisten w))) = false.
Proof.
  unfold release. destruct (alive (subscriber w)) eqn:Halive; [|exact Halive].
  match goal with |- context [release_topics run_unlisten ?keys ?w0 []] =>
    pose proof (release_topics_alive keys w0 []) as H;
    destruct (release_topics run_unlisten keys w0 []) as [w1 pending]
  end.
  cbn [fst snd] in *. expose. simpl in H.
  destruct (unlisteners (subscriber w1)) as [|[topic unlisten] rest];
    [exact H|].
  now rewrite call_all_alive, settle_all_alive.
Qed.

End WithPool.
End SubscriberFacts.

(** ** The claims about the subscriber *)

Module SubscriberClaims.
Import JsMap Subscriber SubscriberFacts.
Local Open Scope list_scope.



(** C10: a second call of release returns normally and leaves the
    subscriber and the record of its effects as the first call left them:
    no iterator is returned and no unlisten function is called. *)
Theorem C10_second_release_is_a_no_op
    (run_unlisten : list Effect -> Handle -> Outcome unit) (w : World) :
  release run_unlisten (snd (release run_unlisten w))
  = (Returned tt, snd (release run_unlisten w)).
Proof.
  unfold release at 1. now rewrite release_not_alive.
Qed.

End SubscriberClaims.

(** ** The claims about releasing a pool *)

Module PoolClaims.
Import Pool.
Local Open Scope list_scope.

Lemma weak_get_delete_same identity m :
  NoDup (map fst m) -> Lru.weak_get identity (Lru.weak_delete identity m) = None.
Proof.
  induction m as [|[k v] rest IH]; simpl; [reflexivity|].
  intros H. inversion H as [|? ? Hnot Hrest]; subst.
  destruct (Nat.eqb_spec k identity) as [->|Hne].
  - clear - Hnot. induction rest as [|[k v'] rest IH]; simpl; [reflexivity|].
    destruct (Nat.eqb_spec k identity) as [->|]; [elim Hnot; now left|].
    apply IH. intros Hin. apply Hnot. now right.
  - simpl. destruct (Nat.eqb_spec k identity); [congruence|]. now apply IH.
Qed.

Lemma cleanupConnection_again identity w :
  NoDup (map fst (Lru.connectionStates (Lru.tables w))) ->
  Lru.cleanupConnection (Lru.ObjectKey identity)
    (Lru.cleanupConnection (Lru.ObjectKey identity) w)
  = Lru.cleanupConnection (Lru.ObjectKey identity) w.
Proof.
  intros Hdistinct. unfold Lru.cleanupConnection at 2. simpl.
  destruct (Lru.weak_get identity (Lru.connectionStates (Lru.tables w)))
    as [state|] eqn:Hget.
  - unfold Lru.cleanupConnection. simpl. rewrite Hget. simpl.
    rewrite weak_get_delete_same by assumption. reflexivity.
  - unfold Lru.cleanupConnection. simpl. now rewrite Hget.
Qed.

(** C7, as the code has it: on the pool that [createPgPoolFromPool] makes,
    the first call of release calls the release function it was given and
    ends as that call ends, and a second call fails with the error "Release
    called twice on the same PgPool" without calling it again; on the pools
    that [createNodePostgresAdapter] and [createPostgresJsAdapter] make, a
    call of release that follows one that returned normally returns
    normally too and ends nothing. *)
Theorem C7_release_twice :
  (forall (release : Outcome unit),
     let first := releaseOnce release created in
     fst (fst first) = release /\
     snd first = [ReleaseCallback] /\
     forall release',
       releaseOnce release' (snd (fst first))
       = (Threw (Error "Release called twice on the same PgPool"),
          snd (fst first), [])) /\
  (forall config_pool ended ended' (a : NodePostgresAdapter),
     let first := node_release config_pool ended a in
     fst (fst first) = Returned tt ->
     node_release config_pool ended' (snd (fst first))
     = (Returned tt, snd (fst first), [])) /\
  (forall config_sql ended ended' (a : PostgresJsAdapter),
     NoDup (map fst (Lru.connectionStates (Lru.tables (manager a)))) ->
     let first := postgresjs_release config_sql ended a in
     fst (fst first) = Returned tt ->
     postgresjs_release config_sql ended' (snd (fst first))
     = (Returned tt, snd (fst first), [])).
Proof.
  split; [|split].
  - intros release first. subst first. unfold releaseOnce. simpl.
    repeat split.
  - intros config_pool ended ended' [[p|]] first; subst first;
      unfold node_release; simpl; [|reflexivity].
    destruct config_pool as [supplied|]; [reflexivity|].
    destruct ended as [u|e]; simpl; [reflexivity | discriminate].
  - intros config_sql ended ended' [[s|] w] Hdistinct first; subst first;
      unfold postgresjs_release; simpl in *; [|reflexivity].
    destruct config_sql as [supplied|]; simpl.
    + intros _. now rewrite cleanupConnection_again.
    + destruct ended as [u|e]; simpl; [reflexivity | discriminate].
Qed.

(** C7 at an adaptor of either kind that has made its own pool, whose
    [end()] succeeds. *)
Lemma C7_release_twice_witness :
  node_release None (Returned tt) (mkNodeAdapter (Some 0))
  = (Returned tt, mkNodeAdapter None, [PoolEnd 0]) /\
  node_release None (Returned tt) (mkNodeAdapter None)
  = (Returned tt, mkNodeAdapter None, []) /\
  postgresjs_release None (Returned tt) (mkPostgresJsAdapter (Some 0) Lru.empty_world)
  = (Returned tt, mkPostgresJsAdapter None Lru.empty_world, [SqlEnd 0]) /\
  postgresjs_release None (Returned tt) (mkPostgresJsAdapter None Lru.empty_world)
  = (Returned tt, mkPostgresJsAdapter None Lru.empty_world, []).
Proof.
  destruct C7_release_twice as (_ & Hnode & Hsql).
  split; [reflexivity|]. split.
  - exact (Hnode None (Returned tt) (Returned tt) (mkNodeAdapter (Some 0)) eq_refl).
  - split; [reflexivity|].
    exact (Hsql None (Returned tt) (Returned tt)
             (mkPostgresJsAdapter (Some 0) Lru.empty_world)
             ltac:(constructor) eq_refl).
Defined.

(** C7 as stated fails on the code: on the pool of
    [createNodePostgresAdapter], with a pool of its own whose [end()]
    succeeds, the second call of release returns normally. *)
Lemma C7_adapter_release_twice_returns :
  let first := node_release None (Returned tt) (mkNodeAdapter (Some 0)) in
  fst (fst first) = Returned tt /\
  node_release None (Returned tt) (snd (fst first))
  = (Returned tt, mkNodeAdapter None, []) /\
  Returned tt <> Threw (Error "Release called twice on the same PgPool").
Proof. repeat split. discriminate. Qed.

End PoolClaims.

(** ** Further properties of the LRU manager *)

Module LruProperties.
Import Lru JsMapFacts LruFacts.
Local Open Scope list_scope.

(** *** The LRU and the eviction scan *)

Lemma lru_set_get bound key value l :
  1 <= bound -> map_get key (lru_set bound key value l) = Some value.
Proof.
  intros Hbound. unfold lru_set. destruct (map_get key l) eqn:E.
  - apply map_get_set_same.
  - destruct (length l =? bound)%nat; simpl; now rewrite String.eqb_refl.
Qed.

(** The statement the scan returns is one of those scanned, under a key that
    the LRU does not hold. *)
Lemma evict_scan_sound remaining : forall l k v l',
  evict_scan remaining l = (Some (k, v), l') ->
  In (k, v) remaining /\ map_get k l = None.
Proof.
  induction remaining as [|[k0 v0] rest IH]; intros l k v l'; [discriminate|].
  cbn [evict_scan].
  pose proof (lru_get_found k0 l) as Hfound.
  pose proof (fun k => lru_get_absent k0 k l) as Hkeys.
  destruct (lru_get k0 l) as [[hit|] l1]; cbn [fst snd] in *.
  - intros H. apply IH in H as [Hin Habsent].
    split; [now right | now apply Hkeys].
  - intros [= <- <- <-]. split; [now left | congruence].
Qed.

Lemma evict_scan_none remaining : forall l l',
  evict_scan remaining l = (None, l') ->
  forall k, In k (map fst remaining) -> map_get k l <> None.
Proof.
  induction remaining as [|[k0 v0] rest IH]; intros l l'; [intros _ k []|].
  cbn [evict_scan].
  pose proof (lru_get_found k0 l) as Hfound.
  pose proof (fun k => lru_get_absent k0 k l) as Hkeys.
  destruct (lru_get k0 l) as [[hit|] l1]; cbn [fst snd] in *; [|discriminate].
  intros H k Hin. simpl in Hin. destruct Hin as [<-|Hin]; [congruence|].
  intros Hk. apply (IH _ _ H k Hin). now apply Hkeys.
Qed.

(** What the eviction check leaves of the statements: all of them, or all
    but one whose key the LRU does not hold. *)
Lemma evict_shape bound state :
  counter (fst (evict bound state)) = counter state /\
  ((statements (fst (evict bound state)) = statements state /\
    snd (evict bound state) = None) \/
   exists k v,
     In (k, v) (statements state) /\ map_get k (lru state) = None /\
     bound < length (statements state) /\
     statements (fst (evict bound state)) = map_delete k (statements state) /\
     snd (evict bound state) = Some (mkCall ("DEALLOCATE " ++ name v) None)).
Proof.
  unfold evict. destruct (Nat.ltb_spec bound (length (statements state)));
    [|split; [reflexivity | now left]].
  destruct (evict_scan (statements state) (lru state)) as [[[k v]|] l] eqn:E.
  - apply evict_scan_sound in E as [Hin Habsent].
    split; [reflexivity|]. right. exists k, v. now repeat split.
  - split; [reflexivity | now left].
Qed.

(** The statement that has just been stored is not the one evicted. *)
Lemma evict_keeps_new bound key stmt state c :
  1 <= bound ->
  map_get key
    (statements
       (fst (evict bound
               (mkState (lru_set bound key stmt (lru state))
                  (map_set key stmt (statements state)) c))))
  = Some stmt.
Proof.
  intros Hbound. set (inserted := mkState _ _ c).
  destruct (evict_shape bound inserted) as [_ [[-> _]|Hevicted]].
  - apply map_get_set_same.
  - destruct Hevicted as (k & v & _ & Habsent & _ & -> & _).
    assert (Hne : k <> key).
    { intros ->. unfold inserted in Habsent. cbn [lru] in Habsent.
      now rewrite lru_set_get in Habsent. }
    rewrite map_get_delete_other by congruence.
    apply map_get_set_same.
Qed.

Lemma weak_set_length_present identity value v m :
  weak_get identity m = Some v -> length (weak_set identity value m) = length m.
Proof.
  induction m as [|[k x] rest IH]; simpl; [discriminate|].
  destruct (k =? identity)%nat; [reflexivity|].
  intros H. simpl. now rewrite IH.
Qed.

Lemma getConnectionState_stored clientKey t :
  storage_get clientKey (snd (getConnectionState clientKey t))
  = Some (fst (getConnectionState clientKey t)) /\
  length (stringKeyStates (snd (getConnectionState clientKey t)))
  <= S (length (stringKeyStates t)).
Proof.
  unfold getConnectionState.
  destruct (storage_get clientKey t) as [state|] eqn:E; cbn [fst snd].
  - split; [assumption | lia].
  - split; [apply storage_get_set|].
    destruct clientKey as [s|o]; simpl in *; [|lia].
    rewrite map_set_length_new by assumption. lia.
Qed.

Lemma write_back_strings_length clientKey state t :
  length (stringKeyStates (write_back clientKey state t))
  = length (stringKeyStates t).
Proof.
  unfold write_back. destruct (storage_get clientKey t) as [old|] eqn:E;
    [|reflexivity].
  destruct clientKey as [s|o]; simpl in *; [|reflexivity].
  now apply map_set_length_present with (v' := old).
Qed.

Lemma map_set_In {V} key (value : V) k v m :
  In (k, v) (map_set key value m) -> (k = key /\ v = value) \/ In (k, v) m.
Proof.
  induction m as [|[k0 v0] rest IH]; simpl.
  - intros [[= <- <-]|[]]. now left.
  - destruct (String.eqb_spec k0 key) as [->|Hne]; simpl.
    + intros [[= <- <-]|Hin]; [now left | right; now right].
    + intros [Heq|Hin]; [right; now left|].
      destruct (IH Hin) as [Hnew|Hold]; [now left | right; now right].
Qed.





Lemma weak_get_delete_other identity other m :
  other <> identity ->
  weak_get other (weak_delete identity m) = weak_get other m.
Proof.
  intros Hne. induction m as [|[k v] rest IH]; simpl; [reflexivity|].
  destruct (Nat.eqb_spec k identity) as [->|Hk]; simpl.
  - destruct (Nat.eqb_spec identity other); [congruence | reflexivity].
  - destruct (k =? other)%nat; [reflexivity | exact IH].
Qed.

Lemma weak_get_delete_gone identity m :
  NoDup (map fst m) -> weak_get identity (weak_delete identity m) = None.
Proof.
  induction m as [|[k v] rest IH]; simpl; [reflexivity|].
  intros H. inversion H as [|? ? Hnot Hrest]; subst.
  destruct (Nat.eqb_spec k identity) as [->|Hne].
  - clear - Hnot. induction rest as [|[k v'] rest IH]; simpl; [reflexivity|].
    destruct (Nat.eqb_spec k identity) as [->|]; [elim Hnot; now left|].
    apply IH. intros Hin. apply Hnot. now right.
  - simpl. destruct (Nat.eqb_spec k identity); [congruence|]. now apply IH.
Qed.

(** *** Invariants of the states in the tables *)

Section EveryState.
Variable P : ConnectionState -> Prop.







Section Kept.
Variable maxPreparedStatements : nat.
Variables statementPrefix managerId : string.
Variable lucky : nat -> bool.

Hypothesis P_new : P (mkState [] [] 0).
Hypothesis P_touch : forall key state,
  P state ->
  P (mkState (snd (lru_get key (lru state))) (statements state) (counter state)).
Hypothesis P_forget : forall key state,
  P state ->
  P (mkState (lru state) (map_delete key (statements state)) (counter state)).
Hypothesis P_counter : forall state,
  P state -> P (mkState (lru state) (statements state) (counter state + 1)).
Hypothesis P_insert : forall key text paramCount state,
  P state -> map_get key (statements state) = None ->
  let stmt :=
    mkStatement (statement_name statementPrefix managerId (counter state))
      text paramCount in
  P (fst (evict maxPreparedStatements
            (mkState (lru_set maxPreparedStatements key stmt (lru state))
               (map_set key stmt (statements state)) (counter state + 1)))).





End Kept.
End EveryState.

(** *** The names of the statements *)




Section Manager.
Variable maxPreparedStatements : nat.
Variables statementPrefix managerId : string.
Variable lucky : nat -> bool.

Local Abbreviation executeQuery :=
  (Lru.executeQuery maxPreparedStatements statementPrefix managerId lucky).
Local Abbreviation run :=
  (Lru.run maxPreparedStatements statementPrefix managerId lucky).

(** X1: a query without a name, or without values, goes to the executor as
    it is: a sequence of such calls makes one executor call for each, with
    the text and the values of the request, and leaves the tables of the
    manager exactly as they were. *)
Theorem direct_queries_leave_the_manager_alone
    (fuel : nat) (executor : QueryExecutor) (requests : list Request) :
  forall w : World,
    Forall (fun r => falsy (queryName r) = true \/ values r = []) requests ->
    run (S fuel) executor requests w
    = Some (mkWorld (tables w) (log w ++ map direct_call requests) (draws w)).
Proof.
  induction requests as [|r rest IH]; intros w Hdirect.
  - simpl. rewrite app_nil_r. now destruct w.
  - inversion Hdirect as [|? ? Hr Hrest]; subst.
    cbn [Lru.run Lru.executeQuery].
    assert (Hgo : falsy (queryName r) || (length (values r) =? 0)%nat = true).
    { destruct Hr as [-> | ->]; [reflexivity | apply orb_true_r]. }
    rewrite Hgo. cbn [Lru.run_pending].
    rewrite (IH _ Hrest). cbn [tables log draws record_call map].
    now rewrite <- app_assoc.
Qed.

Lemma finally_block_small clientKey w :
  length (stringKeyStates (tables w)) <= 100 ->
  tables (Lru.finally_block lucky clientKey w) = tables w.
Proof.
  intros Hsmall. rewrite finally_block_tables.
  destruct clientKey; [|reflexivity].
  destruct (lucky (draws w)); [now apply cleanup_within_bound | reflexivity].
Qed.

(** The EXECUTE step of a call from outside, when the executor accepts the
    EXECUTE and the table of string keys is not over its bound. *)
Lemma execute_step_accepted retry executor clientKey state key stmt values
    arrayMode w result :
  executor (log w) (mkCall (execute_text stmt values) None) = Returned result ->
  storage_get clientKey (tables w) <> None ->
  length (stringKeyStates (tables w)) <= 100 ->
  exists w',
    Lru.execute_step lucky retry executor false clientKey state key stmt values
      arrayMode w = Some (Returned (to_result arrayMode result), w') /\
    log w' = log w ++ [mkCall (execute_text stmt values) None] /\
    storage_get clientKey (tables w') = Some state /\
    length (stringKeyStates (tables w')) <= 100.
Proof.
  intros Haccepted Hknown Hsmall. unfold Lru.execute_step.
  rewrite Haccepted. cbn [Lru.run_pending].
  eexists. split; [reflexivity|].
  rewrite log_finally_block. split; [reflexivity|].
  rewrite finally_block_small;
    cbn [tables with_tables record_call];
    rewrite ?write_back_strings_length; try assumption.
  split; [|assumption].
  rewrite storage_get_write_back.
  now destruct (storage_get clientKey (tables w)).
Qed.

(** X2: a named query with values that is made twice in a row, with an
    executor that accepts every call: the second call finds the statement
    the first has left and makes one executor call, the EXECUTE of that
    statement.  The statement a call has just prepared is never the one its
    own eviction check removes. *)
Theorem repeated_query_reuses_its_statement
    (fuel : nat) (executor : QueryExecutor) (clientKey : ClientKey)
    (queryName : option string) (queryText : string) (values : list JsValue)
    (arrayMode : bool) (w : World) :
  1 <= maxPreparedStatements ->
  falsy queryName = false -> values <> [] ->
  (forall history call, exists result, executor history call = Returned result) ->
  length (stringKeyStates (tables w)) < 100 ->
  exists stmt calls r1 w1 r2 w2,
    executeQuery (S fuel) false clientKey queryName queryText values executor
      arrayMode w = Some (Returned r1, w1) /\
    log w1 = log w ++ calls ++ [mkCall (execute_text stmt values) None] /\
    executeQuery (S fuel) false clientKey queryName queryText values executor
      arrayMode w1 = Some (Returned r2, w2) /\
    log w2 = log w1 ++ [mkCall (execute_text stmt values) None].
Proof.
  intros Hbound Hname Hvalues Haccepts Hsmall.
  set (key := generateStatementKey queryText (length values)).
  assert (Hlen : (length values =? 0)%nat = false)
    by (destruct values; [congruence | reflexivity]).
  (* The second call, from any world that holds the statement. *)
  assert (Hsecond : forall stmt state w1,
    storage_get clientKey (tables w1) = Some state ->
    map_get key (statements state) = Some stmt ->
    length (stringKeyStates (tables w1)) <= 100 ->
    exists r2 w2,
      executeQuery (S fuel) false clientKey queryName queryText values executor
        arrayMode w1 = Some (Returned r2, w2) /\
      log w2 = log w1 ++ [mkCall (execute_text stmt values) None]).
  { intros stmt state w1 Hstate Hhit Hsmall1.
    rewrite (executeQuery_hit maxPreparedStatements statementPrefix managerId
               lucky executor fuel false clientKey queryName queryText values
               arrayMode state stmt w1 Hname Hvalues Hstate Hhit).
    destruct (Haccepts (log w1) (mkCall (execute_text stmt values) None))
      as [result Hresult].
    edestruct execute_step_accepted as (w2 & Hstep & Hlog & _);
      [exact Hresult | rewrite Hstate; discriminate | exact Hsmall1 |].
    rewrite Hstep. eauto. }
  assert (Hfirst : exists stmt calls r1 w1 state1,
    executeQuery (S fuel) false clientKey queryName queryText values executor
      arrayMode w = Some (Returned r1, w1) /\
    log w1 = log w ++ calls ++ [mkCall (execute_text stmt values) None] /\
    storage_get clientKey (tables w1) = Some state1 /\
    map_get key (statements state1) = Some stmt /\
    length (stringKeyStates (tables w1)) <= 100).
  { cbn [Lru.executeQuery]. rewrite Hname, Hlen. cbn [orb].
    destruct (getConnectionState_stored clientKey (tables w)) as [Hstored Hgrown].
    destruct (getConnectionState clientKey (tables w)) as [state t].
    cbn [fst snd] in Hstored, Hgrown. fold key.
    destruct (map_get key (statements state)) as [stmt|] eqn:Hhit.
    - destruct (Haccepts (log (with_tables t w))
                  (mkCall (execute_text stmt values) None)) as [result Hresult].
      edestruct (execute_step_accepted
                   (executeQuery fuel true clientKey queryName queryText values
                      executor arrayMode)
                   executor clientKey
                   (mkState (snd (lru_get key (lru state))) (statements state)
                      (counter state))
                   key stmt values arrayMode (with_tables t w) result)
        as (w1 & Hstep & Hlog & Hstate1 & Hsmall1);
        [exact Hresult | cbn [tables with_tables]; rewrite Hstored; discriminate
        | cbn [tables with_tables]; lia |].
      exists stmt, [], (to_result arrayMode result), w1.
      eexists. repeat split; eassumption.
    - set (prepare := mkCall _ None).
      destruct (Haccepts (log (with_tables t w)) prepare) as [prepared Hprepared].
      rewrite Hprepared. cbn [Lru.run_pending].
      set (stmt := mkStatement _ queryText (length values)).
      pose proof (evict_keeps_new maxPreparedStatements key stmt
                    (mkState (lru state) (statements state) (counter state + 1))
                    (counter state + 1) Hbound) as Hkept.
      cbn [lru statements counter] in *.
      destruct (evict maxPreparedStatements _) as [state3 deallocate].
      cbn [fst] in Hkept.
      set (w2 := match deallocate with
                 | Some call =>
                     record_call call (record_call prepare (with_tables t w))
                 | None => record_call prepare (with_tables t w)
                 end).
      assert (Htables2 : tables w2 = t) by (unfold w2; now destruct deallocate).
      destruct (Haccepts (log w2) (mkCall (execute_text stmt values) None))
        as [result Hresult].
      edestruct (execute_step_accepted
                   (executeQuery fuel true clientKey queryName queryText values
                      executor arrayMode)
                   executor clientKey state3 key stmt values arrayMode w2 result)
        as (w1 & Hstep & Hlog & Hstate1 & Hsmall1);
        [exact Hresult | rewrite Htables2, Hstored; discriminate
        | rewrite Htables2; lia |].
      exists stmt,
        (prepare :: match deallocate with Some call => [call] | None => [] end),
        (to_result arrayMode result), w1, state3.
      split; [exact Hstep|]. split; [|repeat split; assumption].
      rewrite Hlog. unfold w2.
      destruct deallocate; cbn [log record_call with_tables];
        rewrite <- !app_assoc; reflexivity. }
  destruct Hfirst as (stmt & calls & r1 & w1 & state1 & Hrun1 & Hlog1 & Hstate1
                      & Hkept & Hsmall1).
  destruct (Hsecond stmt state1 w1 Hstate1 Hkept Hsmall1)
    as (r2 & w2 & Hrun2 & Hlog2).
  exists stmt, calls, r1, w1, r2, w2. repeat split; assumption.
Qed.




(** X5: the eviction check after a statement has been stored under a new
    key, in a state within the bound: when the statement map was not full
    nothing is evicted and no call is made; when it was full, one statement
    is evicted, with one DEALLOCATE of its name: a statement that was cached
    before, under a key that the LRU does not hold, and the statement just
    stored stays. *)
Theorem overflowing_insertion_evicts_one_statement
    (key : string) (stmt : PreparedStatement) (state : ConnectionState)
    (c : nat) :
  1 <= maxPreparedStatements ->
  state_ok maxPreparedStatements state ->
  map_get key (statements state) = None ->
  let inserted :=
    mkState (lru_set maxPreparedStatements key stmt (lru state))
      (map_set key stmt (statements state)) c in
  (length (statements state) < maxPreparedStatements ->
   evict maxPreparedStatements inserted = (inserted, None)) /\
  (length (statements state) = maxPreparedStatements ->
   exists k v,
     k <> key /\ In (k, v) (statements state) /\
     map_get k (lru inserted) = None /\
     snd (evict maxPreparedStatements inserted)
     = Some (mkCall ("DEALLOCATE " ++ name v) None) /\
     statements (fst (evict maxPreparedStatements inserted))
     = map_delete k (statements inserted) /\
     map_get k (statements (fst (evict maxPreparedStatements inserted))) = None /\
     map_get key (statements (fst (evict maxPreparedStatements inserted)))
     = Some stmt /\
     length (statements (fst (evict maxPreparedStatements inserted)))
     = maxPreparedStatements).
Proof.
  intros Hbound (Hkeys & Hsize & Hlru) Hnew inserted.
  assert (Hkeys2 : NoDup (statement_keys inserted)).
  { unfold statement_keys, inserted. cbn [statements].
    rewrite map_set_keys_new by assumption.
    apply NoDup_app; [assumption | repeat constructor; intros [] |].
    intros k Hk [<-|[]]. now apply map_get_none_not_in in Hnew. }
  assert (Hlru2 : length (lru inserted) <= maxPreparedStatements)
    by now apply lru_set_length.
  assert (Hsize2 : length (statements inserted) = S (length (statements state)))
    by now apply map_set_length_new.
  destruct (evict_spec maxPreparedStatements inserted Hkeys2 Hlru2)
    as (Hover & Hfits & _).
  split.
  - intros Hroom. apply Hfits. lia.
  - intros Hfull.
    destruct Hover as (k & v & Hin & Habsent & Hcall & Hmap & Hlen); [lia|].
    assert (Hne : k <> key).
    { intros ->. unfold inserted in Habsent. cbn [lru] in Habsent.
      now rewrite lru_set_get in Habsent. }
    exists k, v. split; [exact Hne|]. split.
    { unfold inserted in Hin. cbn [statements] in Hin.
      apply map_set_In in Hin as [[Heq _]|Hin]; [contradiction | exact Hin]. }
    split; [exact Habsent|]. split; [exact Hcall|]. split; [exact Hmap|].
    split; [rewrite Hmap; now apply map_get_delete_same|].
    split; [|lia].
    rewrite Hmap, map_get_delete_other by congruence.
    apply map_get_set_same.
Qed.

(** The call of a connection without the statement starts with the
    [PREPARE] of the statement numbered by the counter of its state, zero
    for a connection without a state. *)
Lemma executeQuery_prepares_next_number fuel executor pending clientKey
    queryName queryText values arrayMode w out w' :
  falsy queryName = false -> values <> [] ->
  (forall state, storage_get clientKey (tables w) = Some state ->
     map_get (generateStatementKey queryText (length values)) (statements state)
     = None) ->
  executeQuery fuel pending clientKey queryName queryText values executor
    arrayMode w = Some (out, w') ->
  exists rest,
    log w' =
    log w ++
    mkCall ("PREPARE "
              ++ statement_name statementPrefix managerId
                   match storage_get clientKey (tables w) with
                   | Some state => counter state
                   | None => 0
                   end
              ++ " AS " ++ queryText) None :: rest.
Proof.
  intros Hname Hvalues Hmiss.
  assert (Hlen : (length values =? 0)%nat = false)
    by (destruct values; [congruence | reflexivity]).
  destruct fuel as [|fuel]; [discriminate|].
  cbn [Lru.executeQuery]. rewrite Hname, Hlen. cbn [orb].
  unfold getConnectionState, statement_name.
  destruct (storage_get clientKey (tables w)) as [state|] eqn:Hstate;
    [rewrite (Hmiss state eq_refl) | cbn [statements map_get counter]];
    (destruct (executor _ _) as [result|err];
     [ destruct (evict _ _) as [state3 [call|]];
         intros H; apply execute_step_extends in H as [rest H];
         try (intros w1 out1 w1'; apply executeQuery_extends);
         eexists; rewrite H; cbn [log record_call];
         rewrite ?log_run_pending; cbn [log record_call with_tables];
         rewrite <- !app_assoc; reflexivity
     | intros [= <- <-]; eexists; cbn [log record_call with_tables];
       rewrite log_run_pending; cbn [log record_call with_tables];
       rewrite <- !app_assoc; reflexivity ]).
Qed.

(** X6: a named query with values whose statement is not cached, made from
    outside, when the executor refuses the PREPARE: the manager sends the
    query text with its values instead, and the call settles as that call
    does; the number of the statement is used up, nothing is cached, and the
    EXECUTE step and its clean-up of the string keys are not reached. *)
Theorem failed_prepare_falls_back_to_the_query_text
    (fuel : nat) (executor : QueryExecutor) (clientKey : ClientKey)
    (queryName : option string) (queryText : string) (values : list JsValue)
    (arrayMode : bool) (w : World) (err : JsError) :
  let key := generateStatementKey queryText (length values) in
  let before :=
    match storage_get clientKey (tables w) with
    | Some state => state
    | None => mkState [] [] 0
    end in
  let prepare :=
    mkCall ("PREPARE "
              ++ statement_name statementPrefix managerId (counter before)
              ++ " AS " ++ queryText) None in
  let direct := mkCall queryText (Some values) in
  falsy queryName = false -> values <> [] ->
  map_get key (statements before) = None ->
  executor (log w) prepare = Threw err ->
  exists w',
    executeQuery (S fuel) false clientKey queryName queryText values executor
      arrayMode w
    = Some (to_outcome arrayMode (executor (log w ++ [prepare]) direct), w') /\
    log w' = log w ++ [prepare; direct] /\
    draws w' = draws w /\
    storage_get clientKey (tables w')
    = Some (mkState (lru before) (statements before) (counter before + 1)).
Proof.
  intros key before prepare direct Hname Hvalues Hmiss Hrefused.
  assert (Hlen : (length values =? 0)%nat = false)
    by (destruct values; [congruence | reflexivity]).
  cbn [Lru.executeQuery]. rewrite Hname, Hlen. cbn [orb].
  unfold getConnectionState. fold key.
  destruct (storage_get clientKey (tables w)) as [state|] eqn:Hstate;
    subst before; cbn [statements counter lru map_get] in *.
  - rewrite Hmiss. fold (statement_name statementPrefix managerId (counter state)).
    fold prepare. cbn [log with_tables]. rewrite Hrefused.
    eexists. split; [reflexivity|].
    cbn [Lru.run_pending log record_call with_tables tables draws].
    rewrite <- app_assoc. repeat split.
    now rewrite storage_get_write_back, Hstate.
  - fold (statement_name statementPrefix managerId 0).
    fold prepare. cbn [log with_tables]. rewrite Hrefused.
    eexists. split; [reflexivity|].
    cbn [Lru.run_pending log record_call with_tables tables draws].
    rewrite <- app_assoc. repeat split.
    now rewrite storage_get_write_back, storage_get_set.
Qed.

Lemma storage_get_delete_same clientKey t :
  distinct_keys t -> storage_get clientKey (storage_delete clientKey t) = None.
Proof.
  intros [Hstrings Hobjects]. destruct clientKey as [s|o]; simpl.
  - now apply map_get_delete_same.
  - now apply weak_get_delete_gone.
Qed.

Lemma storage_get_delete_other clientKey other t :
  other <> clientKey ->
  storage_get other (storage_delete clientKey t) = storage_get other t.
Proof.
  intros Hne. destruct clientKey as [s|o], other as [s'|o']; simpl;
    try reflexivity.
  - apply map_get_delete_other. congruence.
  - apply weak_get_delete_other. congruence.
Qed.

(** X7: [cleanupConnection] on a connection the manager knows: one
    DEALLOCATE for each statement of its state, in insertion order, and the
    state is dropped while the states of the other connections stay; the
    manager has then forgotten the connection, so that its next named query
    with values prepares a statement again, numbered zero. *)
Theorem cleanupConnection_forgets_the_connection
    (clientKey : ClientKey) (w : World) (state : ConnectionState) :
  distinct_keys (tables w) ->
  storage_get clientKey (tables w) = Some state ->
  let w' := cleanupConnection clientKey w in
  log w' = log w ++ deallocations state /\
  storage_get clientKey (tables w') = None /\
  (forall other, other <> clientKey ->
     storage_get other (tables w') = storage_get other (tables w)) /\
  cleanupConnection clientKey w' = w' /\
  forall fuel executor pending queryName queryText values arrayMode out w'',
    falsy queryName = false -> values <> [] ->
    executeQuery fuel pending clientKey queryName queryText values executor
      arrayMode w' = Some (out, w'') ->
    exists rest,
      log w'' =
      log w' ++
      mkCall ("PREPARE " ++ statement_name statementPrefix managerId 0
                ++ " AS " ++ queryText) None :: rest.
Proof.
  intros Hdistinct Hstate w'.
  assert (Hgone : storage_get clientKey (tables w') = None).
  { subst w'. unfold cleanupConnection. rewrite Hstate. cbn [tables].
    now apply storage_get_delete_same. }
  split; [subst w'; unfold cleanupConnection; now rewrite Hstate|].
  split; [exact Hgone|]. split.
  { intros other Hne. subst w'. unfold cleanupConnection. rewrite Hstate.
    cbn [tables]. now apply storage_get_delete_other. }
  split; [unfold cleanupConnection at 1; now rewrite Hgone|].
  intros fuel executor pending queryName queryText values arrayMode out w''
    Hname Hvalues Hrun.
  eapply executeQuery_prepares_next_number in Hrun; [|assumption..|].
  - now rewrite Hgone in Hrun.
  - intros state'. rewrite Hgone. discriminate.
Qed.



(** [cleanupAll] makes one DEALLOCATE for each statement of each
    string-keyed connection, in the order of the table, and none for the
    object-keyed connections, whose states it leaves in place; after it the
    table of string keys is empty, [getStats] reports nothing, and
    [cleanupConnection] on a string key makes no call. *)
Theorem cleanupAll_forgets_the_string_keys (w : World) :
  let w' := cleanupAll w in
  log w' = log w ++ flat_map (fun entry => deallocations (snd entry))
                             (stringKeyStates (tables w)) /\
  stringKeyStates (tables w') = [] /\
  connectionStates (tables w') = connectionStates (tables w) /\
  getStats maxPreparedStatements w' = [] /\
  (forall key, cleanupConnection (StringKey key) w' = w') /\
  (forall identity,
     log (cleanupConnection (ObjectKey identity) w')
     = log w' ++
       match storage_get (ObjectKey identity) (tables w) with
       | Some state => deallocations state
       | None => []
       end).
Proof.
  intros w'. subst w'. unfold cleanupAll. cbn [tables log stringKeyStates connectionStates].
  repeat split.
  intros identity. unfold cleanupConnection. cbn [storage_get tables connectionStates].
  destruct (weak_get identity (connectionStates (tables w))) as [state|];
    cbn [log]; [reflexivity | now rewrite app_nil_r].
Qed.

End Manager.



(** X1 at a query without a name and a named query without values. *)
Lemma direct_queries_leave_the_manager_alone_witness :
  let requests :=
    [mkRequest (StringKey "pglite-static") None "select 1" [JOther "1"] false;
     mkRequest (ObjectKey 0) (Some "q") "select now()" [] true] in
  Forall (fun r => falsy (queryName r) = true \/ values r = []) requests /\
  Lru.run 100 "lru" "abc123" never_lucky 1 accepting requests empty_world
  = Some (mkWorld (mkTables [] []) (map direct_call requests) 0).
Proof.
  intros requests.
  assert (H : Forall (fun r => falsy (queryName r) = true \/ values r = [])
                requests).
  { constructor; [left; reflexivity|].
    constructor; [right; reflexivity | constructor]. }
  split; [exact H|].
  exact (direct_queries_leave_the_manager_alone 100 "lru" "abc123" never_lucky
           0 accepting requests empty_world H).
Defined.

(** X2 at the first two calls of a PGlite connection. *)
Lemma repeated_query_reuses_its_statement_witness :
  let call :=
    Lru.executeQuery 100 "pglite" "abc123" never_lucky 1 false
      (StringKey "pglite-static") (Some "q") "select $1" [JOther "1"]
      accepting false in
  exists stmt calls r1 w1 r2 w2,
    call empty_world = Some (Returned r1, w1) /\
    log w1 = log empty_world ++ calls
             ++ [mkCall (execute_text stmt [JOther "1"]) None] /\
    call w1 = Some (Returned r2, w2) /\
    log w2 = log w1 ++ [mkCall (execute_text stmt [JOther "1"]) None].
Proof.
  intros call.
  apply (repeated_query_reuses_its_statement 100 "pglite" "abc123" never_lucky
           0 accepting (StringKey "pglite-static") (Some "q") "select $1"
           [JOther "1"] false empty_world).
  - lia.
  - reflexivity.
  - discriminate.
  - intros history c. eexists. reflexivity.
  - simpl. lia.
Defined.



(** X5 at a full cache of one statement. *)
Lemma overflowing_insertion_evicts_one_statement_witness :
  let old := mkStatement "lru_abc123_0" "select $1" 1 in
  let new := mkStatement "lru_abc123_1" "select $1, $2" 2 in
  let state := mkState [("k0", old)] [("k0", old)] 1 in
  let inserted :=
    mkState (lru_set 1 "k1" new (lru state))
      (map_set "k1" new (statements state)) 2 in
  state_ok 1 state /\
  exists k v,
    k <> "k1" /\ In (k, v) (statements state) /\
    map_get k (lru inserted) = None /\
    snd (evict 1 inserted) = Some (mkCall ("DEALLOCATE " ++ name v) None) /\
    statements (fst (evict 1 inserted)) = map_delete k (statements inserted) /\
    map_get k (statements (fst (evict 1 inserted))) = None /\
    map_get "k1" (statements (fst (evict 1 inserted))) = Some new /\
    length (statements (fst (evict 1 inserted))) = 1.
Proof.
  intros old new state inserted.
  assert (Hstate : state_ok 1 state).
  { split; [|split; simpl; lia]. repeat constructor. simpl. tauto. }
  split; [exact Hstate|].
  exact (proj2 (overflowing_insertion_evicts_one_statement 1 "k1" new state 2
                  (le_n 1) Hstate eq_refl) eq_refl).
Defined.

(** X6 at the first call of a connection whose server refuses to prepare. *)
Lemma failed_prepare_falls_back_to_the_query_text_witness :
  let executor := refusing_prepare (Error "syntax error at or near $1") in
  exists w',
    Lru.executeQuery 100 "pglite" "abc123" never_lucky 1 false
      (StringKey "pglite-static") (Some "q") "select $1" [JOther "1"]
      executor false empty_world
    = Some (Returned (mkResult [] None), w') /\
    map sent_text (log w') = ["PREPARE pglite_abc123_0 AS select $1"; "select $1"] /\
    storage_get (StringKey "pglite-static") (tables w') = Some (mkState [] [] 1).
Proof.
  intros executor.
  destruct (failed_prepare_falls_back_to_the_query_text 100 "pglite" "abc123"
              never_lucky 0 executor (StringKey "pglite-static") (Some "q")
              "select $1" [JOther "1"] false empty_world
              (Error "syntax error at or near $1")
              eq_refl ltac:(discriminate) eq_refl eq_refl)
    as (w' & Hrun & Hlog & _ & Hstate).
  exists w'. split; [exact Hrun|]. split; [now rewrite Hlog | exact Hstate].
Defined.

(** X7 at the connection that holds the statement of [select $1]. *)
Lemma cleanupConnection_forgets_the_connection_witness :
  let w' := cleanupConnection (StringKey "pglite-static") one_statement_world in
  distinct_keys (tables one_statement_world) /\
  map sent_text (log w') = ["DEALLOCATE pglite_abc123_0"] /\
  storage_get (StringKey "pglite-static") (tables w') = None /\
  cleanupConnection (StringKey "pglite-static") w' = w'.
Proof.
  intros w'.
  assert (Hdistinct : distinct_keys (tables one_statement_world)).
  { split; repeat constructor. simpl. tauto. }
  split; [exact Hdistinct|].
  destruct (cleanupConnection_forgets_the_connection 100 "pglite" "abc123"
              never_lucky (StringKey "pglite-static") one_statement_world
              (mkState
                 [(generateStatementKey "select $1" 1,
                   mkStatement "pglite_abc123_0" "select $1" 1)]
                 [(generateStatementKey "select $1" 1,
                   mkStatement "pglite_abc123_0" "select $1" 1)] 1)
              Hdistinct eq_refl) as (Hlog & Hgone & _ & Hagain & _).
  split; [subst w'; now rewrite Hlog|]. split; [exact Hgone | exact Hagain].
Defined.


End LruProperties.

(** ** Statement keys and the literals of EXECUTE *)

Module FormatProperties.
Import Quoting.

Lemma hex_char_digit (n : Z) :
  (0 <= n < 16)%Z -> is_hex_digit (Md5.hex_char n) = true.
Proof.
  intros H. assert (Hsmall : (Z.to_nat n < 16)%nat) by lia.
  rewrite <- (Z2Nat.id n) by lia. clear H.
  revert Hsmall. generalize (Z.to_nat n) as digit. intros digit Hsmall.
  do 16 (destruct digit as [|digit]; [reflexivity|]). lia.
Qed.

Lemma hex_byte_digits (b : Z) :
  (0 <= b < 256)%Z ->
  exists c1 c2,
    Md5.hex_byte b = String c1 (String c2 EmptyString) /\
    is_hex_digit c1 = true /\ is_hex_digit c2 = true.
Proof.
  intros H. unfold Md5.hex_byte. do 2 eexists. split; [reflexivity|].
  split; apply hex_char_digit.
  - split; [apply Z.div_pos; lia | apply Z.div_lt_upper_bound; lia].
  - apply Z.mod_pos_bound. lia.
Qed.

Lemma hex_word_digits (w : Z) :
  exists c1 c2 c3 c4 c5 c6 c7 c8,
    Md5.hex_word w
    = String c1 (String c2 (String c3 (String c4 (String c5 (String c6
        (String c7 (String c8 EmptyString))))))) /\
    forallb is_hex_digit [c1; c2; c3; c4; c5; c6; c7; c8] = true.
Proof.
  unfold Md5.hex_word.
  destruct (hex_byte_digits (w mod 256)) as (c1 & c2 & -> & H1 & H2);
    [apply Z.mod_pos_bound; lia|].
  destruct (hex_byte_digits (Z.shiftr w 8 mod 256)) as (c3 & c4 & -> & H3 & H4);
    [apply Z.mod_pos_bound; lia|].
  destruct (hex_byte_digits (Z.shiftr w 16 mod 256)) as (c5 & c6 & -> & H5 & H6);
    [apply Z.mod_pos_bound; lia|].
  destruct (hex_byte_digits (Z.shiftr w 24 mod 256)) as (c7 & c8 & -> & H7 & H8);
    [apply Z.mod_pos_bound; lia|].
  exists c1, c2, c3, c4, c5, c6, c7, c8. split; [reflexivity|].
  simpl. now rewrite H1, H2, H3, H4, H5, H6, H7, H8.
Qed.

(** X9: the key under which a statement is cached is made of sixteen
    characters, each a digit or a letter from a to f in lower case,
    whatever the query text and the number of parameters. *)
Theorem statement_key_is_sixteen_hex_digits (text : string) (paramCount : nat) :
  String.length (Lru.generateStatementKey text paramCount) = 16 /\
  forallb is_hex_digit
    (list_ascii_of_string (Lru.generateStatementKey text paramCount)) = true.
Proof.
  unfold Lru.generateStatementKey, Md5.md5_hex.
  destruct (Md5.process _ _ _) as [A B C D].
  destruct (hex_word_digits A) as (a1 & a2 & a3 & a4 & a5 & a6 & a7 & a8 & -> & HA).
  destruct (hex_word_digits B) as (b1 & b2 & b3 & b4 & b5 & b6 & b7 & b8 & -> & HB).
  cbn [append substring String.length list_ascii_of_string].
  split; [reflexivity|].
  cbn [forallb] in *.
  repeat match goal with
         | H : _ && _ = true |- _ => apply andb_prop in H as [? H]
         end.
  repeat (apply andb_true_intro; split; try assumption).
Qed.

(** *** Quoting *)

Section Quoted.
Variable q : ascii.

Local Abbreviation doubled :=
  (replace_all q (String q (String q EmptyString))).

Lemma read_quoted_doubled (s rest : string) :
  match rest with
  | String a _ => Ascii.eqb a q = false
  | EmptyString => True
  end ->
  read_quoted q (doubled s ++ String q rest) = Some (s, rest).
Proof.
  intros Hrest. induction s as [|a s IH].
  - cbn [replace_all append read_quoted]. rewrite Ascii.eqb_refl.
    destruct rest as [|b rest']; [reflexivity|]. now rewrite Hrest.
  - cbn [replace_all]. destruct (Ascii.eqb a q) eqn:E.
    + apply Ascii.eqb_eq in E. subst a.
      cbn [append read_quoted]. rewrite !Ascii.eqb_refl.
      now rewrite IH.
    + cbn [append read_quoted]. rewrite E. now rewrite IH.
Qed.

End Quoted.

(** X10: a string value is written into the EXECUTE text as one literal
    that the server reads back as the string itself, with nothing left
    over, whatever quotes the string holds; a JSON value likewise, followed
    by the cast to jsonb.  Distinct strings give distinct literals. *)
Theorem formatValue_quotes_strings (s : string) :
  read_literal "'" (Lru.formatValue (JString s)) = Some (s, EmptyString) /\
  read_literal "'" (Lru.formatValue (JObject s)) = Some (s, "::jsonb") /\
  (forall s' : string,
     Lru.formatValue (JString s) = Lru.formatValue (JString s') <-> s = s').
Proof.
  assert (Hread : forall x,
    read_literal "'" (Lru.formatValue (JString x)) = Some (x, EmptyString)).
  { intros x. cbn [Lru.formatValue append read_literal]. cbn [Ascii.eqb Bool.eqb].
    now apply (read_quoted_doubled "'"%char x EmptyString). }
  split; [apply Hread|]. split.
  - cbn [Lru.formatValue append read_literal]. cbn [Ascii.eqb Bool.eqb].
    now apply (read_quoted_doubled "'"%char s "::jsonb").
  - intros s'. split; [|now intros ->].
    intros H. pose proof (Hread s) as Hs. rewrite H, Hread in Hs. congruence.
Qed.

(** A name between double quotes, with every double quote doubled, reads
    back as the name itself, with nothing left over. *)
Lemma quoted_identifier_reads_back (name : string) :
  let quote := ascii_of_nat 34 in
  let escaped := replace_all quote (String quote (String quote EmptyString)) name in
  read_literal quote (String quote (escaped ++ String quote EmptyString))
  = Some (name, EmptyString).
Proof.
  intros quote escaped. cbn [read_literal]. rewrite Ascii.eqb_refl.
  now apply (read_quoted_doubled quote name EmptyString).
Qed.

End FormatProperties.

(** ** Further properties of the envelopes *)

Module EnvelopeProperties.
Import Conn Envelope TransactionTable EnvelopeFacts.
Local Open Scope list_scope.
Local Open Scope conn_scope.

Section WithServer.
Variable server : Server.

Lemma bind_ret {A B} (a : A) (k : A -> M B) h : bind (ret a) k h = k a h.
Proof.
  unfold bind, ret. rewrite app_nil_r. now destruct (k a h).
Qed.

Lemma bind_returned {A B} (m : M A) (k : A -> M B) h a sent :
  m h = (Returned a, sent) ->
  bind m k h = (fst (k a (h ++ sent)), sent ++ snd (k a (h ++ sent))).
Proof. intros E. unfold bind. rewrite E. now destruct (k a (h ++ sent)). Qed.

Lemma try_finally_threw {A} (m : M A) (f : M unit) h e sent :
  m h = (Threw e, sent) ->
  try_finally m f h
  = (Threw match fst (f (h ++ sent)) with
           | Returned _ => e
           | Threw e' => e'
           end,
     sent ++ snd (f (h ++ sent))).
Proof.
  intros E. unfold try_finally. rewrite E.
  now destruct (f (h ++ sent)) as [[u|e'] sent'].
Qed.

Lemma read_original_all_null settings h :
  Forall (fun kv => snd kv = None) settings ->
  PGlite.read_original server settings h = (Returned [], []).
Proof.
  induction 1 as [|[key value] rest Hnull _ IH]; [reflexivity|].
  simpl in Hnull. subst value. exact IH.
Qed.

Lemma sql_begin_ext {T} (body body' : M T) :
  (forall h, body h = body' h) ->
  forall h, PostgresJs.sql_begin server body h = PostgresJs.sql_begin server body' h.
Proof.
  intros Hbody h. unfold PostgresJs.sql_begin, bind, try_catch, query.
  destruct (server h (stmt "BEGIN")) as [rows|e]; [|reflexivity].
  now rewrite Hbody.
Qed.

(** X11: settings that hold no value.  For [null], for an empty map and for
    a map whose values are all null or undefined, the pooled TCP envelope
    and the WASM envelope send no statement of their own and open no
    transaction: the call is the callback on a client at level 0.  The
    tagged-template envelope does the same for [null] and for an empty map,
    and for a non-empty map without a value it runs the callback inside
    [sql.begin], on the client of the transaction. *)
Theorem settings_without_a_value_add_no_statement
    (settings : option (list (string * option string))) :
  match settings with
  | Some l => Forall (fun kv => snd kv = None) l
  | None => True
  end ->
  (forall T (callback : NodePostgres.NodePostgresPgClient -> M T) h,
     NodePostgres.withPgClient server settings callback h
     = callback (NodePostgres.mkClient 0 false false) h) /\
  (forall T (callback : PGlite.PGlitePgClient -> M T) h,
     PGlite.withPgClient server settings callback h
     = callback (PGlite.mkClient 0 false false) h) /\
  (forall T alwaysQueue (callback : PostgresJs.PostgresJsPgClient -> M T) h,
     PostgresJs.withPgClient server alwaysQueue settings callback h
     = match settings with
       | Some (_ :: _) =>
           PostgresJs.sql_begin server
             (callback (PostgresJs.mkClient true alwaysQueue)) h
       | _ => callback (PostgresJs.mkClient false alwaysQueue) h
       end).
Proof.
  intros Hnull. destruct settings as [l|]; [|repeat split].
  pose proof (pgSettingsEntries_all_null l Hnull) as Hentries.
  split; [|split].
  - intros T callback h.
    unfold NodePostgres.withPgClient, NodePostgres.makeNodePostgresWithPgClient_inner.
    now rewrite Hentries.
  - intros T callback h. destruct l as [|kv rest]; [reflexivity|].
    unfold PGlite.withPgClient, PGlite.runExclusive.
    unfold bind at 1. rewrite (read_original_all_null _ h Hnull).
    rewrite Hentries. cbn [length Nat.ltb Nat.leb app].
    unfold try_finally. rewrite app_nil_r.
    rewrite (bind_ret tt (fun _ => callback (PGlite.mkClient 0 false false)) h).
    destruct (callback _ h) as [r sent]. unfold ret. now rewrite app_nil_r.
  - intros T alwaysQueue callback h. destruct l as [|kv rest]; [reflexivity|].
    unfold PostgresJs.withPgClient. rewrite Hentries.
    cbn [length Nat.ltb Nat.leb].
    apply sql_begin_ext. intros h'.
    exact (bind_ret tt
             (fun _ => callback (PostgresJs.mkClient true alwaysQueue)) h').
Qed.

(** X12: the settings statement is refused.  When the server refuses the
    statement that opens the transaction, or the [set_config] statement,
    the callback is not called: the call fails whatever the callback is.
    The pooled TCP envelope sends [rollback] after a refused [set_config]
    and fails with the error of [set_config], or with the error of
    [rollback] when that is refused too; after a refused [begin] it sends
    nothing more. *)
Theorem refused_settings_skip_the_callback
    (settings : list (string * option string)) (h : list Query)
    (err : JsError) :
  pgSettingsEntries settings <> [] ->
  let parameter := payload (pgSettingsEntries settings) in
  let pooled := mkQuery NodePostgres.set_config_text parameter in
  let tagged := mkQuery PostgresJs.set_config_text parameter in
  let wasm := mkQuery PGlite.set_config_text parameter in
  (server h (stmt "begin") = Threw err ->
   forall T (callback : NodePostgres.NodePostgresPgClient -> M T),
     NodePostgres.withPgClient server (Some settings) callback h
     = (Threw err, [stmt "begin"])) /\
  (accepts server h [stmt "begin"] = true ->
   server (h ++ [stmt "begin"]) pooled = Threw err ->
   forall T (callback : NodePostgres.NodePostgresPgClient -> M T),
     NodePostgres.withPgClient server (Some settings) callback h
     = (Threw match server (h ++ [stmt "begin"; pooled]) (stmt "rollback") with
              | Returned _ => err
              | Threw e2 => e2
              end,
        [stmt "begin"; pooled; stmt "rollback"])) /\
  (accepts server h [stmt "BEGIN"] = true ->
   server (h ++ [stmt "BEGIN"]) tagged = Threw err ->
   forall T alwaysQueue (callback : PostgresJs.PostgresJsPgClient -> M T),
     PostgresJs.withPgClient server alwaysQueue (Some settings) callback h
     = (Threw err, [stmt "BEGIN"; tagged; stmt "ROLLBACK"])) /\
  (accepts server h (current_setting_probes settings) = true ->
   server (h ++ current_setting_probes settings) wasm = Threw err ->
   exists e sent,
     forall T (callback : PGlite.PGlitePgClient -> M T),
       PGlite.withPgClient server (Some settings) callback h
       = (Threw e, current_setting_probes settings ++ wasm :: sent)).
Proof.
  intros Hne parameter pooled tagged wasm.
  subst parameter pooled tagged wasm. unfold payload.
  split; [|split; [|split]].
  - intros E T callback.
    unfold NodePostgres.withPgClient, NodePostgres.makeNodePostgresWithPgClient_inner.
    rewrite (length_pos _ Hne). unfold bind, query. now rewrite E.
  - intros Hacc E2 T callback.
    apply accepts_cons in Hacc as [r1 [E1 _]].
    unfold NodePostgres.withPgClient, NodePostgres.makeNodePostgresWithPgClient_inner.
    rewrite (length_pos _ Hne).
    unfold bind, try_catch, query, ret, throw. rewrite E1, E2.
    rewrite <- !app_assoc; cbn [app].
    now destruct (server _ (stmt "rollback")).
  - intros Hacc E2 T alwaysQueue callback.
    apply accepts_cons in Hacc as [r1 [E1 _]].
    destruct settings as [|kv rest]; [now elim Hne|].
    unfold PostgresJs.withPgClient, PostgresJs.sql_begin.
    rewrite (length_pos _ Hne).
    unfold bind, try_catch, query, ret, throw. rewrite E1, E2.
    rewrite <- !app_assoc; cbn [app].
    now destruct (server _ (stmt "ROLLBACK")).
  - intros Hprobes E2.
    destruct (read_original_accepted server _ _ Hprobes) as [orig [Hrun _]].
    destruct settings as [|kv rest]; [now elim Hne|].
    set (settings := kv :: rest) in *.
    set (q := mkQuery PGlite.set_config_text _) in *.
    unfold PGlite.withPgClient, PGlite.runExclusive. subst settings.
    rewrite (length_pos _ Hne). fold q.
    set (restore :=
           (if (0 <? length orig)%nat then
              (if (0 <? length (pgSettingsEntries orig))%nat then
                 query server
                   (mkQuery PGlite.set_config_text
                      [JString (JSON_stringify (entries_json (pgSettingsEntries orig)))]) ;;;
                 ret tt
               else ret tt) ;;;
              PGlite.reset_null server (kv :: rest) orig
            else ret tt) : M unit).
    exists match fst (restore ((h ++ current_setting_probes (kv :: rest)) ++ [q])) with
           | Returned _ => err
           | Threw e' => e'
           end,
           (snd (restore ((h ++ current_setting_probes (kv :: rest)) ++ [q]))).
    intros T callback.
    rewrite (bind_returned _ _ _ _ _ Hrun). cbn [fst snd].
    rewrite (try_finally_threw _ _ _ err [q]); [reflexivity|].
    unfold bind, query. now rewrite E2.
Qed.

(** X13: the commit of the pooled TCP envelope is refused.  When the
    callback has returned and the server refuses [commit], the envelope
    sends [rollback] and fails with the error of [commit], or with the
    error of [rollback] when that is refused too; the value of the callback
    is lost. *)
Theorem refused_commit_is_rolled_back {T}
    (settings : list (string * option string)) (h : list Query)
    (callback : NodePostgres.NodePostgresPgClient -> M T)
    (value : T) (sent : list Query) (err : JsError) :
  pgSettingsEntries settings <> [] ->
  let pre :=
    [stmt "begin";
     mkQuery NodePostgres.set_config_text (payload (pgSettingsEntries settings))] in
  accepts server h pre = true ->
  callback (NodePostgres.mkClient 1 false false) (h ++ pre) = (Returned value, sent) ->
  server (h ++ pre ++ sent) (stmt "commit") = Threw err ->
  NodePostgres.withPgClient server (Some settings) callback h
  = (Threw match server (h ++ pre ++ sent ++ [stmt "commit"]) (stmt "rollback") with
           | Returned _ => err
           | Threw e2 => e2
           end,
     pre ++ sent ++ [stmt "commit"; stmt "rollback"]).
Proof.
  intros Hne pre Hacc Hcallback Hcommit. subst pre. unfold payload in *.
  apply accepts_cons in Hacc as [r1 [E1 Hacc]].
  apply accepts_cons in Hacc as [r2 [E2 _]].
  unfold NodePostgres.withPgClient, NodePostgres.makeNodePostgresWithPgClient_inner.
  rewrite (length_pos _ Hne).
  unfold bind, try_catch, query, ret, throw.
  rewrite E1, E2.
  rewrite <- !app_assoc in *; cbn [app] in *.
  rewrite Hcallback. rewrite <- !app_assoc; cbn [app]. rewrite Hcommit.
  rewrite <- !app_assoc; cbn [app].
  destruct (server _ (stmt "rollback")); tidy; reflexivity.
Qed.

(** X14: a transaction inside the scope of settings.  On the pooled TCP
    backend the callback of a call with settings runs in the transaction of
    the envelope, at level 1, so that [withTransaction] inside it is the
    savepoint [tx1] and its own callback runs at level 2; without settings
    the same [withTransaction] is a transaction of its own, opened with
    [begin].  On the WASM backend the settings are applied to the session
    and the callback runs at level 0, so that [withTransaction] inside it
    is the driver's transaction, its callback running at level 1 on the
    transaction handle. *)
Theorem transaction_inside_the_settings_scope
    (settings : list (string * option string)) (h : list Query) :
  pgSettingsEntries settings <> [] ->
  let parameter := payload (pgSettingsEntries settings) in
  let pooled := [stmt "begin"; mkQuery NodePostgres.set_config_text parameter] in
  let wasm :=
    current_setting_probes settings ++ [mkQuery PGlite.set_config_text parameter] in
  (forall T (callback : NodePostgres.NodePostgresPgClient -> M T),
     accepts server h pooled = true ->
     exists out post,
       NodePostgres.withPgClient server (Some settings)
         (fun client => NodePostgres.withTransaction server client callback) h
       = (out,
          pooled
            ++ snd (bracket server "savepoint tx1" "release savepoint tx1"
                      "rollback to savepoint tx1"
                      (callback (NodePostgres.mkClient 2 false false))
                      (h ++ pooled))
            ++ post)) /\
  (forall T (callback : NodePostgres.NodePostgresPgClient -> M T),
     NodePostgres.withPgClient server None
       (fun client => NodePostgres.withTransaction server client callback) h
     = bracket server "begin" "commit" "rollback"
         (callback (NodePostgres.mkClient 1 false false)) h) /\
  (forall T (callback : PGlite.PGlitePgClient -> M T),
     accepts server h wasm = true ->
     exists out post,
       PGlite.withPgClient server (Some settings)
         (fun client => PGlite.withTransaction server client callback) h
       = (out,
          wasm
            ++ snd (PGlite.pglite_transaction server
                      (callback (PGlite.mkClient 1 false true)) (h ++ wasm))
            ++ post)).
Proof.
  intros Hne parameter pooled wasm. split; [|split].
  - intros T callback Hacc.
    destruct (node_applies_settings_once server settings
                (fun client => NodePostgres.withTransaction server client callback)
                h Hne Hacc) as (out & post & Hrun & _).
    exists out, post. exact Hrun.
  - intros T callback. reflexivity.
  - intros T callback Hacc.
    destruct (pglite_applies_settings_once server settings
                (fun client => PGlite.withTransaction server client callback)
                h Hne Hacc) as (out & post & Hrun).
    exists out, post. exact Hrun.
Qed.

(** *** Restoring the settings of the WASM session *)

Lemma accepts_obliging l : forall h, obliging server -> accepts server h l = true.
Proof.
  induction l as [|q l IH]; intros h Hserver; [reflexivity|].
  simpl. destruct (Hserver h q) as [rows ->]. now apply IH.
Qed.

Lemma lookup_bound key value settings :
  NoDup (map fst settings) -> In (key, value) settings ->
  PGlite.lookup key settings = value.
Proof.
  induction settings as [|[k v] rest IH]; simpl; [intros _ []|].
  intros H. inversion H as [|? ? Hnot Hrest]; subst.
  intros [[= -> ->]|Hin].
  - now rewrite String.eqb_refl.
  - destruct (String.eqb_spec k key) as [->|Hne]; [|now apply IH].
    elim Hnot. apply in_map_iff. now exists (key, value).
Qed.

Lemma reset_null_obliging settings originalSettings :
  obliging server ->
  (forall key value, In (key, value) originalSettings ->
     exists bound, PGlite.lookup key settings = Some bound) ->
  forall h,
    PGlite.reset_null server settings originalSettings h
    = (Returned tt, map reset_statement (without_value originalSettings)).
Proof.
  intros Hserver. induction originalSettings as [|[key value] rest IH];
    intros Hbound h; [reflexivity|].
  assert (Hrest : forall k v, In (k, v) rest ->
                    exists bound, PGlite.lookup k settings = Some bound)
    by (intros k v Hin; apply (Hbound k v); now right).
  destruct (Hbound key value (or_introl eq_refl)) as [bound Hkey].
  cbn [PGlite.reset_null]. rewrite Hkey.
  destruct value as [v|].
  - unfold without_value. cbn [filter snd]. now apply IH.
  - unfold without_value. cbn [filter snd map fst].
    unfold bind, query.
    match goal with |- context [server h ?q] =>
      destruct (Hserver h q) as [rows ->] end.
    rewrite (IH Hrest). reflexivity.
Qed.

(** X15: the WASM envelope gives the session its settings back.  With a
    server that accepts its statements, the envelope reads the current
    value of every setting it is about to change, and after the callback,
    whether the callback has returned or thrown, it sends one [set_config]
    statement with the values read, for the settings that had one, and a
    [RESET] for each setting that had none; the call then settles as the
    callback has. *)
Theorem wasm_envelope_restores_the_settings
    (settings : list (string * option string)) (h : list Query) :
  obliging server ->
  NoDup (map fst settings) ->
  pgSettingsEntries settings <> [] ->
  let pre :=
    current_setting_probes settings ++
    [mkQuery PGlite.set_config_text (payload (pgSettingsEntries settings))] in
  exists originalSettings,
    PGlite.read_original server settings h
    = (Returned originalSettings, current_setting_probes settings) /\
    map fst originalSettings = map fst (pgSettingsEntries settings) /\
    forall T (callback : PGlite.PGlitePgClient -> M T),
      PGlite.withPgClient server (Some settings) callback h
      = (fst (callback (PGlite.mkClient 0 false false) (h ++ pre)),
         pre ++ snd (callback (PGlite.mkClient 0 false false) (h ++ pre))
             ++ restore_statements originalSettings).
Proof.
  intros Hserver Hdistinct Hne pre. subst pre. unfold payload.
  destruct (read_original_accepted server settings h
              (accepts_obliging _ h Hserver)) as [orig [Hrun Hkeys]].
  exists orig. split; [exact Hrun|]. split; [exact Hkeys|].
  intros T callback.
  assert (Hbound : forall key value, In (key, value) orig ->
            exists bound, PGlite.lookup key settings = Some bound).
  { intros key value Hin.
    destruct (read_original_keys server settings h orig
                ltac:(now rewrite Hrun) key value Hin) as [bound Hb].
    exists bound. now apply lookup_bound. }
  assert (Horig : (0 <? length orig)%nat = true).
  { apply length_pos. intros ->.
    destruct (pgSettingsEntries settings); [now elim Hne | discriminate]. }
  destruct settings as [|kv rest]; [now elim Hne|].
  set (settings := kv :: rest) in *.
  unfold PGlite.withPgClient, PGlite.runExclusive. subst settings.
  rewrite (length_pos _ Hne).
  unfold bind at 1. rewrite Hrun. rewrite Horig.
  unfold try_finally.
  set (q := mkQuery PGlite.set_config_text _).
  unfold bind at 1 2, query at 1, ret at 1.
  destruct (Hserver (h ++ current_setting_probes (kv :: rest)) q) as [rows ->].
  rewrite <- !app_assoc; cbn [app].
  destruct (callback _ _) as [out sent]; cbn [fst snd].
  unfold restore_statements, payload.
  destruct (pgSettingsEntries orig) as [|entry entries] eqn:Hentries.
  - cbn [length Nat.ltb Nat.leb]. rewrite bind_ret.
    rewrite (reset_null_obliging _ _ Hserver Hbound).
    tidy. now destruct out.
  - cbn [length Nat.ltb Nat.leb].
    unfold bind, query, ret.
    match goal with |- context [server ?hh ?qq] =>
      destruct (Hserver hh qq) as [rows' ->] end.
    rewrite (reset_null_obliging _ _ Hserver Hbound).
    tidy. now destruct out.
Qed.

End WithServer.

(** X11 at the settings map [{ role: null }]. *)
Lemma settings_without_a_value_add_no_statement_witness :
  Forall (fun kv : string * option string => snd kv = None) [("role", None)] /\
  NodePostgres.withPgClient accepting (Some [("role", None)])
    (fun _ => query accepting (stmt "select 1")) []
  = (Returned [], [stmt "select 1"]) /\
  PGlite.withPgClient accepting (Some [("role", None)])
    (fun _ => query accepting (stmt "select 1")) []
  = (Returned [], [stmt "select 1"]) /\
  PostgresJs.withPgClient accepting false (Some [("role", None)])
    (fun _ => query accepting (stmt "select 1")) []
  = (Returned [], [stmt "BEGIN"; stmt "select 1"; stmt "COMMIT"]).
Proof.
  assert (Hnull : Forall (fun kv : string * option string => snd kv = None)
                    [("role", None)]) by (repeat constructor).
  destruct (settings_without_a_value_add_no_statement accepting
              (Some [("role", None)]) Hnull) as (Hnode & Hwasm & Htagged).
  split; [exact Hnull|]. split; [|split].
  - now rewrite Hnode.
  - now rewrite Hwasm.
  - now rewrite Htagged.
Defined.

(** X12 at the settings map [{ role: "app_user" }] and a server that
    refuses the [set_config] statement of the pooled TCP envelope. *)
Lemma refused_settings_skip_the_callback_witness :
  let server :=
    refusing NodePostgres.set_config_text (Error "permission denied") in
  pgSettingsEntries [("role", Some "app_user")] <> [] /\
  forall T (callback : NodePostgres.NodePostgresPgClient -> M T),
    NodePostgres.withPgClient server (Some [("role", Some "app_user")]) callback []
    = (Threw (Error "permission denied"),
       [stmt "begin";
        mkQuery NodePostgres.set_config_text (payload [("role", "app_user")]);
        stmt "rollback"]).
Proof.
  intros server.
  assert (Hne : pgSettingsEntries [("role", Some "app_user")] <> [])
    by discriminate.
  split; [exact Hne|].
  destruct (refused_settings_skip_the_callback server
              [("role", Some "app_user")] [] (Error "permission denied") Hne)
    as (_ & Hpooled & _).
  exact (Hpooled eq_refl eq_refl).
Defined.

(** X13 at a callback that returns and a server that refuses [commit]. *)
Lemma refused_commit_is_rolled_back_witness :
  let server := refusing "commit" (Error "could not serialize access") in
  NodePostgres.withPgClient server (Some [("role", Some "app_user")])
    (fun _ => ret 7) []
  = (Threw (Error "could not serialize access"),
     [stmt "begin";
      mkQuery NodePostgres.set_config_text (payload [("role", "app_user")]);
      stmt "commit"; stmt "rollback"]).
Proof.
  intros server.
  exact (refused_commit_is_rolled_back server [("role", Some "app_user")] []
           (fun _ => ret 7) 7 [] (Error "could not serialize access")
           ltac:(discriminate) eq_refl eq_refl eq_refl).
Defined.

(** X14 at the settings map [{ role: "app_user" }] and an accepting server. *)
Lemma transaction_inside_the_settings_scope_witness :
  NodePostgres.withPgClient accepting (Some [("role", Some "app_user")])
    (fun client =>
       NodePostgres.withTransaction accepting client (fun _ => ret tt)) []
  = (Returned tt,
     [stmt "begin";
      mkQuery NodePostgres.set_config_text (payload [("role", "app_user")]);
      stmt "savepoint tx1"; stmt "release savepoint tx1"; stmt "commit"]) /\
  exists out post,
    NodePostgres.withPgClient accepting (Some [("role", Some "app_user")])
      (fun client =>
         NodePostgres.withTransaction accepting client (fun _ => ret tt)) []
    = (out,
       [stmt "begin";
        mkQuery NodePostgres.set_config_text (payload [("role", "app_user")])]
         ++ [stmt "savepoint tx1"; stmt "release savepoint tx1"] ++ post).
Proof.
  split; [reflexivity|].
  destruct (transaction_inside_the_settings_scope accepting
              [("role", Some "app_user")] [] ltac:(discriminate))
    as (Hpooled & _ & _).
  exact (Hpooled unit (fun _ => ret tt) eq_refl).
Defined.

(** X15 at the settings map [{ role: "app_user", "my.tenant": "7" }], on a
    session where no setting has a value and on one where every setting has
    the value ["UTC"]. *)
Lemma wasm_envelope_restores_the_settings_witness :
  let settings := [("role", Some "app_user"); ("my.tenant", Some "7")] in
  let probes :=
    [mkQuery PGlite.current_setting_text [JString "role"];
     mkQuery PGlite.current_setting_text [JString "my.tenant"]] in
  let apply :=
    mkQuery PGlite.set_config_text
      (payload [("role", "app_user"); ("my.tenant", "7")]) in
  obliging (answering None) /\ obliging (answering (Some "UTC")) /\
  NoDup (map fst settings) /\
  PGlite.withPgClient (answering None) (Some settings)
    (fun _ => throw (A := unit) (Error "callback failed")) []
  = (Threw (Error "callback failed"),
     probes ++ [apply] ++ [reset_statement "role"; reset_statement "my.tenant"]) /\
  PGlite.withPgClient (answering (Some "UTC")) (Some settings)
    (fun _ => ret tt) []
  = (Returned tt,
     probes ++ [apply]
       ++ [mkQuery PGlite.set_config_text
             (payload [("role", "UTC"); ("my.tenant", "UTC")])]).
Proof.
  intros settings probes apply.
  assert (Hnone : obliging (answering None)).
  { intros h q. unfold answering. destruct (String.eqb _ _); eexists; reflexivity. }
  assert (Hsome : obliging (answering (Some "UTC"))).
  { intros h q. unfold answering. destruct (String.eqb _ _); eexists; reflexivity. }
  assert (Hdistinct : NoDup (map fst settings)).
  { repeat constructor; simpl; intuition discriminate. }
  split; [exact Hnone|]. split; [exact Hsome|]. split; [exact Hdistinct|].
  split.
  - destruct (wasm_envelope_restores_the_settings (answering None) settings []
                Hnone Hdistinct ltac:(discriminate))
      as (orig & Hread & _ & Hrun).
    rewrite (Hrun unit). cbv in Hread. injection Hread as <-. reflexivity.
  - destruct (wasm_envelope_restores_the_settings (answering (Some "UTC"))
                settings [] Hsome Hdistinct ltac:(discriminate))
      as (orig & Hread & _ & Hrun).
    rewrite (Hrun unit). cbv in Hread. injection Hread as <-. reflexivity.
Defined.

End EnvelopeProperties.

(** ** Further properties of the subscriber *)

Module SubscriberProperties.
Import JsMap Subscriber SubscriberFacts.
Local Open Scope list_scope.

(** *** The table of the iterators *)

Lemma consumer_get_set_same c con m :
  consumer_get c (consumer_set c con m) = Some con.
Proof.
  induction m as [|[k v] rest IH]; simpl.
  - now rewrite Nat.eqb_refl.
  - destruct (Nat.eqb_spec k c) as [->|Hne]; simpl.
    + now rewrite Nat.eqb_refl.
    + destruct (Nat.eqb_spec k c); [congruence | exact IH].
Qed.

Lemma consumer_get_set_other c c' con m :
  c' <> c -> consumer_get c' (consumer_set c con m) = consumer_get c' m.
Proof.
  intros Hne. induction m as [|[k v] rest IH]; simpl.
  - destruct (Nat.eqb_spec c c'); [congruence | reflexivity].
  - destruct (Nat.eqb_spec k c) as [->|Hk]; simpl.
    + destruct (Nat.eqb_spec c c'); [congruence | reflexivity].
    + destruct (k =? c')%nat; [reflexivity | exact IH].
Qed.

Lemma consumer_set_present c con old m :
  consumer_get c m = Some old ->
  map fst (consumer_set c con m) = map fst m /\
  length (consumer_set c con m) = length m.
Proof.
  induction m as [|[k v] rest IH]; simpl; [discriminate|].
  destruct (Nat.eqb_spec k c) as [->|Hne]; [now split|].
  intros H. destruct (IH H) as [Hkeys Hlen]. simpl. now rewrite Hkeys, Hlen.
Qed.

Lemma consumer_get_fresh con m :
  Forall (fun kv : nat * Consumer => fst kv < length m) m ->
  consumer_get (length m) m = None /\
  consumer_get (length m) (m ++ [(length m, con)]) = Some con.
Proof.
  intros Hbelow.
  assert (Hgen : forall n, Forall (fun kv : nat * Consumer => fst kv < n) m ->
            consumer_get n m = None /\
            consumer_get n (m ++ [(n, con)]) = Some con).
  { clear. intros n. induction 1 as [|[k v] rest Hk _ IH]; simpl.
    - now rewrite Nat.eqb_refl.
    - cbn [fst] in Hk. destruct (Nat.eqb_spec k n); [lia | exact IH]. }
  now apply Hgen.
Qed.

Lemma tidy_same s s' :
  consumers s' = consumers s -> listeners s' = listeners s -> tidy s -> tidy s'.
Proof. unfold tidy. now intros -> ->. Qed.

Lemma tidy_update c con old s :
  consumer_get c (consumers s) = Some old ->
  forall s',
    consumers s' = consumer_set c con (consumers s) ->
    incl (listeners s') (listeners s) ->
    tidy s -> tidy s'.
Proof.
  intros Hold s' Hconsumers Hlisteners [Hids Hbelow].
  destruct (consumer_set_present c con old _ Hold) as [Hkeys Hlen].
  unfold tidy. rewrite Hconsumers, Hlen. split.
  - apply Forall_forall. intros kv Hin.
    assert (Hkey : In (fst kv) (map fst (consumers s)))
      by (rewrite <- Hkeys; now apply in_map).
    apply in_map_iff in Hkey as (kv' & Heq & Hin').
    rewrite <- Heq. now apply (proj1 (Forall_forall _ _) Hids).
  - apply Forall_forall. intros l Hin.
    apply (proj1 (Forall_forall _ _) Hbelow). now apply Hlisteners.
Qed.

Ltac reveal :=
  cbn [topics set_topics subscriber set_subscriber emit effects unlisteners
       set_unlisteners alive consumers listeners set_consumer deferreds
       fst snd].

Lemma resolved_registry value q w :
  subscriber (fold_left (fun w' p => emit (Resolved p value) w') q w)
  = subscriber w.
Proof. now rewrite resolve_all. Qed.

(** *** Delivery *)

Local Abbreviation buffered con payloads :=
  (mkConsumer (topicString con) (stack con ++ payloads) [] (finished con)).

Lemma recv_registry c c' payload w :
  listeners (subscriber (recv c' payload w)) = listeners (subscriber w) /\
  (c' <> c ->
   consumer_get c (consumers (subscriber (recv c' payload w)))
   = consumer_get c (consumers (subscriber w))).
Proof.
  unfold recv.
  destruct (consumer_get c' (consumers (subscriber w))) as [con|]; [|now split].
  destruct (queue con) as [|first rest]; reveal;
    (split; [reflexivity | intros Hne; now apply consumer_get_set_other]).
Qed.

Lemma recv_buffers c con payload w :
  consumer_get c (consumers (subscriber w)) = Some con -> queue con = [] ->
  consumer_get c (consumers (subscriber (recv c payload w)))
  = Some (buffered con [payload]).
Proof.
  intros Hcon Hqueue. unfold recv. rewrite Hcon, Hqueue. reveal.
  apply consumer_get_set_same.
Qed.

Lemma buffered_nil con : queue con = [] -> buffered con [] = con.
Proof. intros H. destruct con; simpl in *. now rewrite app_nil_r, H. Qed.

(** A notification, listener by listener: the iterator [c] gets the payload
    once for each of its listeners on the topic. *)
Lemma deliver_to_listeners c topic payload ls : forall w con,
  consumer_get c (consumers (subscriber w)) = Some con -> queue con = [] ->
  let w' :=
    fold_left
      (fun w' l => if String.eqb (fst l) topic then recv (snd l) payload w' else w')
      ls w in
  consumer_get c (consumers (subscriber w'))
  = Some (buffered con
            (repeat payload
               (length (filter (fun l => String.eqb (fst l) topic
                                         && (snd l =? c)%nat) ls)))) /\
  listeners (subscriber w') = listeners (subscriber w).
Proof.
  induction ls as [|l ls IH]; intros w con Hcon Hqueue.
  - cbn. rewrite buffered_nil by assumption. now split.
  - cbn [fold_left filter].
    destruct (String.eqb (fst l) topic) eqn:Htopic; cbn [andb];
      [|now apply IH].
    destruct (recv_registry c (snd l) payload w) as [Hlisteners Hother].
    destruct (Nat.eqb_spec (snd l) c) as [Hc|Hne].
    + pose proof (recv_buffers c con payload w Hcon Hqueue) as Hgot.
      rewrite <- Hc in Hgot at 2.
      destruct (IH _ _ Hgot eq_refl) as [Hfinal Hls].
      cbv zeta in *. rewrite Hc in *. rewrite Hfinal, Hls.
      split; [|exact Hlisteners].
      cbn [topicString stack finished length repeat].
      now rewrite <- app_assoc.
    + destruct (IH (recv (snd l) payload w) con) as [Hfinal Hls];
        [now rewrite Hother | assumption |].
      cbv zeta in *. rewrite Hfinal, Hls. now split.
Qed.

Lemma filter_none {A} (f : A -> bool) l :
  (forall x, In x l -> f x = false) -> filter f l = [].
Proof.
  induction l as [|x l IH]; intros H; simpl; [reflexivity|].
  rewrite (H x (or_introl eq_refl)). apply IH. intros y Hy. apply H. now right.
Qed.

Lemma filter_both {A} (f g : A -> bool) l :
  filter (fun x => f x && g x) l = filter f (filter g l).
Proof.
  induction l as [|x l IH]; simpl; [reflexivity|].
  destruct (g x), (f x) eqn:Hf; simpl; rewrite ?Hf, ?IH; reflexivity.
Qed.

(** An iterator with one listener, on its own topic, and no waiting
    [next()]: a notification on its topic goes to the end of its buffer,
    another notification leaves it as it is. *)
Lemma notify_buffers c con topic payload w :
  consumer_get c (consumers (subscriber w)) = Some con -> queue con = [] ->
  filter (fun l => (snd l =? c)%nat) (listeners (subscriber w))
  = [(topicString con, c)] ->
  consumer_get c (consumers (subscriber (notify topic payload w)))
  = Some (buffered con
            (if String.eqb (topicString con) topic then [payload] else [])) /\
  listeners (subscriber (notify topic payload w)) = listeners (subscriber w).
Proof.
  intros Hcon Hqueue Hmine. unfold notify.
  destruct (deliver_to_listeners c topic payload (listeners (subscriber w))
              w con Hcon Hqueue) as [Hfinal Hls].
  cbv zeta in *. rewrite Hfinal, Hls. split; [|reflexivity].
  rewrite filter_both, Hmine. cbn [filter fst].
  now destruct (String.eqb (topicString con) topic).
Qed.

Lemma notify_all_buffers c notifications : forall con w,
  consumer_get c (consumers (subscriber w)) = Some con -> queue con = [] ->
  filter (fun l => (snd l =? c)%nat) (listeners (subscriber w))
  = [(topicString con, c)] ->
  consumer_get c (consumers (subscriber (notify_all notifications w)))
  = Some (buffered con (payloads_of (topicString con) notifications)).
Proof.
  unfold notify_all, payloads_of.
  induction notifications as [|[topic payload] rest IH]; intros con w Hcon Hqueue
    Hmine.
  - cbn. now rewrite buffered_nil.
  - cbn [fold_left filter fst snd].
    destruct (notify_buffers c con topic payload w Hcon Hqueue Hmine)
      as [Hgot Hls].
    rewrite (IH _ _ Hgot eq_refl) by (now rewrite Hls).
    cbn [topicString stack finished].
    rewrite (String.eqb_sym (topicString con) topic).
    destruct (String.eqb topic (topicString con)); cbn [map snd];
      now rewrite <- app_assoc.
Qed.

Lemma nexts_drain c payloads : forall con w rest,
  consumer_get c (consumers (subscriber w)) = Some con ->
  stack con = payloads ++ rest ->
  fst (nexts (length payloads) c w) = map Value payloads /\
  consumer_get c (consumers (subscriber (snd (nexts (length payloads) c w))))
  = Some (mkConsumer (topicString con) rest (queue con) (finished con)).
Proof.
  induction payloads as [|payload payloads IH]; intros con w rest Hcon Hstack.
  - cbn in *. split; [reflexivity|]. rewrite Hcon. destruct con; simpl in *.
    now subst.
  - cbn [length nexts]. unfold next at 1 2. rewrite Hcon, Hstack.
    cbn [app]. reveal.
    match goal with |- context [nexts _ c ?w1] =>
      destruct (IH (mkConsumer (topicString con) (payloads ++ rest) (queue con)
                      (finished con)) w1 rest) as [Hresults Hleft];
        [reveal; apply consumer_get_set_same | reflexivity |];
      destruct (nexts (length payloads) c w1) as [results w2]
    end.
    cbn [fst snd] in *. now rewrite Hresults.
Qed.

Section WithPool.
Variable pool_listen : list Effect -> string -> Outcome Handle.
Variable run_unlisten : list Effect -> Handle -> Outcome unit.

(** A subscription that succeeds: the new iterator is numbered after the
    iterators there are, and it has one listener, on its topic. *)
Lemma subscribe_returned topic w c w1 :
  subscribe pool_listen topic w = (Returned c, w1) ->
  c = length (consumers (subscriber w)) /\
  consumers (subscriber w1)
  = consumers (subscriber w) ++ [(c, mkConsumer topic [] [] None)] /\
  listeners (subscriber w1) = listeners (subscriber w) ++ [(topic, c)].
Proof.
  unfold subscribe. destruct (alive (subscriber w)); [|discriminate].
  cbn [negb].
  destruct (obj_get topic (topics (subscriber w))) as [array|].
  - intros [= <- <-]. now repeat split.
  - destruct (inherited topic); [discriminate|].
    intros [= <- <-]. unfold listen. reveal.
    destruct (pool_listen _ topic); now repeat split.
Qed.

Lemma subscribed_alone topic w c w1 :
  tidy (subscriber w) ->
  subscribe pool_listen topic w = (Returned c, w1) ->
  consumer_get c (consumers (subscriber w1)) = Some (mkConsumer topic [] [] None) /\
  filter (fun l => (snd l =? c)%nat) (listeners (subscriber w1)) = [(topic, c)].
Proof.
  intros [Hids Hbelow] Hsubscribe.
  apply subscribe_returned in Hsubscribe as (-> & -> & ->). split.
  - now apply consumer_get_fresh.
  - rewrite filter_app. cbn [filter snd]. rewrite Nat.eqb_refl.
    replace (filter _ (listeners (subscriber w))) with (@nil (string * nat));
      [reflexivity|].
    symmetry. apply filter_none. intros l Hin.
    apply (proj1 (Forall_forall _ _) Hbelow) in Hin.
    destruct (Nat.eqb_spec (snd l) (length (consumers (subscriber w))));
      [lia | reflexivity].
Qed.

(** What [doFinally] does to the iterators and to the listeners. *)
Lemma doFinally_registry c value w :
  let s := subscriber w in
  let s' := subscriber (fst (doFinally run_unlisten c value w)) in
  match consumer_get c (consumers s) with
  | Some con =>
      match finished con with
      | None =>
          consumers s'
          = consumer_set c
              (mkConsumer (topicString con) (stack con) [] (Some value))
              (consumers s) /\
          listeners s'
          = filter (fun l => negb (String.eqb (fst l) (topicString con)
                                   && (snd l =? c)%nat))
              (listeners s)
      | Some _ => doFinally run_unlisten c value w = (w, None)
      end
  | None => doFinally run_unlisten c value w = (w, None)
  end.
Proof.
  intros s s'. subst s s'. unfold doFinally.
  destruct (consumer_get c (consumers (subscriber w))) as [con|]; [|reflexivity].
  destruct (finished con); [reflexivity|].
  rewrite resolve_all.
  destruct (obj_get (topicString con) (topics (subscriber w))) as [array|];
    [|now split].
  destruct (remove_first c array) as [[|x array']|]; try now split.
  unfold unlisten_call. reveal.
  now destruct (map_get (topicString con) (unlisteners (subscriber w))).
Qed.

Lemma unlisten_settle_registry pending w :
  consumers (subscriber (unlisten_settle pending w)) = consumers (subscriber w) /\
  listeners (subscriber (unlisten_settle pending w)) = listeners (subscriber w) /\
  effects (unlisten_settle pending w) = effects w.
Proof. destruct pending as [[topic [u|e]]|]; now repeat split. Qed.

Lemma tidy_doFinally c value w :
  tidy (subscriber w) ->
  tidy (subscriber (fst (doFinally run_unlisten c value w))).
Proof.
  intros Htidy. pose proof (doFinally_registry c value w) as H. cbv zeta in H.
  destruct (consumer_get c (consumers (subscriber w))) as [con|] eqn:Hcon;
    [|now rewrite H].
  destruct (finished con); [now rewrite H|].
  destruct H as [Hconsumers Hlisteners].
  eapply tidy_update; [exact Hcon | exact Hconsumers | | exact Htidy].
  rewrite Hlisteners. intros l Hin. now apply filter_In in Hin.
Qed.

Lemma tidy_finish c value w :
  tidy (subscriber w) -> tidy (subscriber (finish run_unlisten c value w)).
Proof.
  intros Htidy. unfold finish.
  pose proof (tidy_doFinally c value w Htidy) as H.
  destruct (doFinally run_unlisten c value w) as [w' pending]. cbn [fst] in H.
  destruct (unlisten_settle_registry pending w') as (Hc & Hl & _).
  exact (tidy_same _ _ Hc Hl H).
Qed.

Lemma tidy_next c w : tidy (subscriber w) -> tidy (subscriber (snd (next c w))).
Proof.
  intros Htidy. unfold next.
  destruct (consumer_get c (consumers (subscriber w))) as [con|] eqn:Hcon;
    [|exact Htidy].
  destruct (stack con) as [|value rest], (finished con) as [done|];
    try exact Htidy; reveal;
    (eapply tidy_update;
     [exact Hcon | reflexivity | apply incl_refl | exact Htidy]).
Qed.

Lemma tidy_recv c payload w :
  tidy (subscriber w) -> tidy (subscriber (recv c payload w)).
Proof.
  intros Htidy. unfold recv.
  destruct (consumer_get c (consumers (subscriber w))) as [con|] eqn:Hcon;
    [|exact Htidy].
  destruct (queue con) as [|first rest]; reveal;
    (eapply tidy_update;
     [exact Hcon | reflexivity | apply incl_refl | exact Htidy]).
Qed.

Lemma tidy_notify topic payload w :
  tidy (subscriber w) -> tidy (subscriber (notify topic payload w)).
Proof.
  unfold notify. generalize (listeners (subscriber w)) as ls.
  intros ls. revert w. induction ls as [|l ls IH]; intros w Htidy; [exact Htidy|].
  simpl. apply IH. destruct (String.eqb (fst l) topic); [|exact Htidy].
  now apply tidy_recv.
Qed.

Lemma tidy_append topic con s :
  tidy s ->
  forall s',
    consumers s' = consumers s ++ [(length (consumers s), con)] ->
    listeners s' = listeners s ++ [(topic, length (consumers s))] ->
    tidy s'.
Proof.
  intros [Hids Hbelow] s' Hconsumers Hlisteners. unfold tidy.
  rewrite Hconsumers, Hlisteners, length_app. cbn [length]. split.
  - apply Forall_app. split.
    + eapply Forall_impl; [|exact Hids]. intros kv Hkv. cbv beta in *. lia.
    + constructor; [cbn [fst]; lia | constructor].
  - apply Forall_app. split.
    + eapply Forall_impl; [|exact Hbelow]. intros l Hl. cbv beta in *. lia.
    + constructor; [cbn [snd]; lia | constructor].
Qed.

Lemma tidy_subscribe topic w :
  tidy (subscriber w) ->
  tidy (subscriber (snd (subscribe pool_listen topic w))).
Proof.
  intros Htidy. unfold subscribe.
  destruct (alive (subscriber w)); [|exact Htidy]. cbn [negb].
  destruct (obj_get topic (topics (subscriber w))) as [array|].
  - reveal. eapply tidy_append; [exact Htidy | reflexivity | reflexivity].
  - destruct (inherited topic).
    + reveal. eapply tidy_append; [exact Htidy | reflexivity | reflexivity].
    + reveal. unfold listen. reveal.
      destruct (pool_listen _ topic); reveal;
        (eapply tidy_append; [exact Htidy | reflexivity | reflexivity]).
Qed.

Lemma tidy_return_all fuel topic : forall i w pending,
  tidy (subscriber w) ->
  tidy (subscriber (fst (return_all run_unlisten fuel topic i w pending))).
Proof.
  induction fuel as [|fuel IH]; intros i w pending Htidy; simpl; [exact Htidy|].
  destruct (obj_get topic (topics (subscriber w))) as [array|]; [|exact Htidy].
  destruct (nth_error array i) as [c|]; [|exact Htidy].
  pose proof (tidy_doFinally c None (emit (ReturnCalled c) w) Htidy) as H.
  destruct (doFinally run_unlisten c None (emit (ReturnCalled c) w)) as [w' p].
  now apply IH.
Qed.

Lemma tidy_release_topics keys : forall w pending,
  tidy (subscriber w) ->
  tidy (subscriber (fst (release_topics run_unlisten keys w pending))).
Proof.
  induction keys as [|topic keys IH]; intros w pending Htidy; simpl;
    [exact Htidy|].
  match goal with |- context [return_all run_unlisten ?n topic 0 w pending] =>
    pose proof (tidy_return_all n topic 0 w pending Htidy) as H;
    destruct (return_all run_unlisten n topic 0 w pending) as [w1 pending1]
  end.
  apply IH. exact H.
Qed.

Lemma settle_all_registry pending : forall w,
  consumers (subscriber (fold_left (fun w' p => unlisten_settle (Some p) w') pending w))
  = consumers (subscriber w) /\
  listeners (subscriber (fold_left (fun w' p => unlisten_settle (Some p) w') pending w))
  = listeners (subscriber w).
Proof.
  induction pending as [|p pending IH]; intros w; cbn [fold_left];
    [now split|].
  destruct (IH (unlisten_settle (Some p) w)) as [Hc Hl].
  destruct (unlisten_settle_registry (Some p) w) as (Hc' & Hl' & _).
  split; congruence.
Qed.

Lemma call_all_registry (entries : list (string * Handle)) : forall w,
  subscriber
    (fold_left (fun w' entry => emit (UnlistenCalled (fst entry) (snd entry)) w')
       entries w)
  = subscriber w.
Proof.
  induction entries as [|entry entries IH]; intros w; simpl;
    [reflexivity | now rewrite IH].
Qed.

Lemma tidy_release w :
  tidy (subscriber w) -> tidy (subscriber (snd (release run_unlisten w))).
Proof.
  intros Htidy. unfold release.
  destruct (alive (subscriber w)); [|exact Htidy].
  match goal with |- context [release_topics run_unlisten ?keys ?w0 []] =>
    pose proof (tidy_release_topics keys w0 [] Htidy) as H;
    destruct (release_topics run_unlisten keys w0 []) as [w1 pending]
  end.
  cbn [fst] in H. reveal.
  destruct (unlisteners (subscriber w1)) as [|[topic unlisten] rest];
    [exact H|].
  rewrite call_all_registry.
  destruct (settle_all_registry pending (emit (UnlistenCalled topic unlisten) w1))
    as [Hc Hl].
  eapply tidy_same; [| |exact H]; reveal; assumption.
Qed.

Lemma tidy_step op w :
  tidy (subscriber w) -> tidy (subscriber (step pool_listen run_unlisten op w)).
Proof.
  destruct op; cbn [step].
  - apply tidy_subscribe.
  - apply tidy_next.
  - apply tidy_finish.
  - apply tidy_finish.
  - apply tidy_notify.
  - apply tidy_release.
Qed.

Lemma tidy_run ops : forall w,
  tidy (subscriber w) -> tidy (subscriber (run pool_listen run_unlisten ops w)).
Proof.
  induction ops as [|op ops IH]; intros w Htidy; [exact Htidy|].
  apply IH, tidy_step, Htidy.
Qed.

Lemma tidy_fresh : tidy (subscriber fresh).
Proof. split; constructor. Qed.

(** X16: a subscriber that has been released takes no subscription:
    whatever its state was, after [release] every call of [subscribe] throws
    "This PgSubscriber has been released." and changes nothing; the pool is
    not asked to listen. *)
Theorem released_subscriber_refuses_subscriptions (topic : string) (w : World) :
  let released := snd (release run_unlisten w) in
  subscribe pool_listen topic released
  = (Threw (Error "This PgSubscriber has been released."), released).
Proof.
  intros released. unfold subscribe. subst released.
  now rewrite release_not_alive.
Qed.

(** What [doFinally] adds to the effects, for an iterator that has not
    finished: the promises of its waiting [next()] calls are resolved with
    the [finished] object, oldest first, and at most one unlisten function
    is called after that. *)
Lemma doFinally_effects c con value w :
  consumer_get c (consumers (subscriber w)) = Some con ->
  finished con = None ->
  exists calls,
    effects (fst (doFinally run_unlisten c value w))
    = effects w ++ map (fun p => Resolved p (Finished value)) (queue con) ++ calls /\
    (calls = [] \/
     exists unlisten,
       map_get (topicString con) (unlisteners (subscriber w)) = Some unlisten /\
       calls = [UnlistenCalled (topicString con) unlisten]).
Proof.
  intros Hcon Hlive. unfold doFinally. rewrite Hcon, Hlive.
  rewrite resolve_all.
  destruct (obj_get (topicString con) (topics (subscriber w))) as [array|];
    [|exists []; reveal; rewrite app_nil_r; now split; [|left]].
  destruct (remove_first c array) as [[|x array']|];
    try (exists []; reveal; rewrite app_nil_r; now split; [|left]).
  unfold unlisten_call. reveal.
  destruct (map_get (topicString con) (unlisteners (subscriber w)))
    as [unlisten|] eqn:Hunlisten.
  - exists [UnlistenCalled (topicString con) unlisten]. reveal.
    rewrite <- app_assoc. split; [reflexivity|]. right. now exists unlisten.
  - exists []. reveal. rewrite app_nil_r. now split; [|left].
Qed.

(** X17: an iterator that has been returned stays returned.  For an
    iterator that has not finished, after [return(v1)] a second [return] or
    a [throw] changes nothing, whatever its argument, and makes no call; the
    payloads that were buffered are still delivered by [next()], and once
    the buffer is empty [next()] gives the result of the first return. *)
Theorem returned_iterator_stays_returned
    (c : nat) (con : Consumer) (v1 v2 : option JsValue) (w : World) :
  consumer_get c (consumers (subscriber w)) = Some con ->
  finished con = None ->
  let w1 := finish run_unlisten c v1 w in
  finish run_unlisten c v2 w1 = w1 /\
  consumer_get c (consumers (subscriber w1))
  = Some (mkConsumer (topicString con) (stack con) [] (Some v1)) /\
  immediate_result (fst (next c w1))
  = Some match stack con with
         | [] => mkIteratorResult true (ReturnValue v1)
         | payload :: _ => mkIteratorResult false (PayloadValue payload)
         end.
Proof.
  intros Hcon Hlive w1.
  assert (Hafter : consumer_get c (consumers (subscriber w1))
                   = Some (mkConsumer (topicString con) (stack con) [] (Some v1))).
  { subst w1. unfold finish.
    pose proof (doFinally_registry c v1 w) as H. cbv zeta in H.
    rewrite Hcon, Hlive in H. destruct H as [Hconsumers _].
    destruct (doFinally run_unlisten c v1 w) as [w' pending]. cbn [fst] in *.
    destruct (unlisten_settle_registry pending w') as (-> & _ & _).
    rewrite Hconsumers. apply consumer_get_set_same. }
  split; [|split; [exact Hafter|]].
  - unfold finish at 1.
    pose proof (doFinally_registry c v2 w1) as H. cbv zeta in H.
    rewrite Hafter in H. cbn [finished] in H. now rewrite H.
  - unfold next. rewrite Hafter. cbn [stack finished].
    now destruct (stack con).
Qed.

(** X18: a [next()] that is waiting when the iterator is returned.  On an
    iterator with an empty buffer that has not finished, [next()] waits on a
    new promise; [return(v)] then resolves that promise with the [finished]
    object, so that the waiting call settles with done false and the
    [finished] object as its value, while every [next()] made after the
    return settles with done true and [v]. *)
Theorem return_resolves_a_waiting_next
    (c : nat) (con : Consumer) (v : option JsValue) (w : World) :
  consumer_get c (consumers (subscriber w)) = Some con ->
  stack con = [] -> finished con = None ->
  let waiting := deferreds (subscriber w) in
  let w1 := snd (next c w) in
  let w2 := finish run_unlisten c v w1 in
  fst (next c w) = Parked waiting /\
  (exists calls,
     effects w2
     = effects w
         ++ map (fun p => Resolved p (Finished v)) (queue con ++ [waiting])
         ++ calls) /\
  parked_result (Finished v) = mkIteratorResult false (ResultObject true v) /\
  immediate_result (fst (next c w2))
  = Some (mkIteratorResult true (ReturnValue v)).
Proof.
  intros Hcon Hstack Hlive waiting w1 w2.
  assert (Hnext : next c w
                  = (Parked waiting,
                     set_subscriber
                       (mkSubscriber (topics (subscriber w))
                          (listeners (subscriber w)) (alive (subscriber w))
                          (unlisteners (subscriber w))
                          (consumer_set c
                             (mkConsumer (topicString con) []
                                (queue con ++ [waiting]) None)
                             (consumers (subscriber w)))
                          (S waiting)) w)).
  { unfold next. now rewrite Hcon, Hstack, Hlive. }
  assert (Hcon1 : consumer_get c (consumers (subscriber w1))
                  = Some (mkConsumer (topicString con) []
                            (queue con ++ [waiting]) None)).
  { subst w1. rewrite Hnext. reveal. apply consumer_get_set_same. }
  split; [now rewrite Hnext|]. split; [|split; [reflexivity|]].
  - destruct (doFinally_effects c _ v w1 Hcon1 eq_refl) as (calls & Heffects & _).
    exists calls. subst w2. unfold finish.
    destruct (doFinally run_unlisten c v w1) as [w' pending]. cbn [fst] in *.
    destruct (unlisten_settle_registry pending w') as (_ & _ & ->).
    rewrite Heffects. cbn [queue]. subst w1. now rewrite Hnext.
  - destruct (returned_iterator_stays_returned c _ v v w1 Hcon1 eq_refl)
      as (_ & _ & Hresult).
    exact Hresult.
Qed.

(** X19: the payloads of a topic reach a subscription in order.  After any
    run of operations on a new subscriber, a subscription that succeeds
    buffers the payloads notified on its topic from then on, each once and
    in the order of the notifications, and none of another topic; as many
    calls of [next()] give them back in that order, and the call after
    those waits. *)
Theorem payloads_are_delivered_in_order
    (ops : list Op) (topic : string)
    (notifications : list (string * option string)) (c : nat) (w1 : World) :
  let w := run pool_listen run_unlisten ops fresh in
  subscribe pool_listen topic w = (Returned c, w1) ->
  let mine := payloads_of topic notifications in
  let w2 := notify_all notifications w1 in
  let w3 := snd (nexts (length mine) c w2) in
  fst (nexts (length mine) c w2) = map Value mine /\
  fst (next c w3) = Parked (deferreds (subscriber w3)).
Proof.
  intros w Hsubscribe mine w2 w3.
  assert (Htidy : tidy (subscriber w)) by apply tidy_run, tidy_fresh.
  destruct (subscribed_alone topic w c w1 Htidy Hsubscribe) as [Hcon Hmine].
  pose proof (notify_all_buffers c notifications _ w1 Hcon eq_refl Hmine) as Hgot.
  cbn [topicString stack finished app] in Hgot. fold mine w2 in Hgot.
  destruct (nexts_drain c mine _ w2 [] Hgot ltac:(cbn; now rewrite app_nil_r))
    as [Hresults Hleft].
  split; [exact Hresults|].
  subst w3. unfold next. now rewrite Hleft.
Qed.

(** X20: a subscription whose listen fails.  After any run of operations on
    a new subscriber, when the pool refuses to listen to a topic that has no
    consumer and no unlisten function left over, [subscribe] still returns
    an iterator: the failure is logged and no unlisten function is stored;
    when that iterator is returned, no unlisten function is called. *)
Theorem failed_listen_leaves_nothing_to_unlisten
    (ops : list Op) (topic : string) (err : JsError) (value : option JsValue) :
  let w := run pool_listen run_unlisten ops fresh in
  alive (subscriber w) = true ->
  has_consumers topic (subscriber w) = false ->
  inherited topic = false ->
  map_get topic (unlisteners (subscriber w)) = None ->
  pool_listen (effects w) topic = Threw err ->
  let c := length (consumers (subscriber w)) in
  exists w1,
    subscribe pool_listen topic w = (Returned c, w1) /\
    effects w1 = effects w ++ [PoolListen topic] /\
    unlisteners (subscriber w1) = unlisteners (subscriber w) /\
    has_consumers topic (subscriber w1) = true /\
    effects (finish run_unlisten c value w1) = effects w1 /\
    unlisteners (subscriber (finish run_unlisten c value w1))
    = unlisteners (subscriber w).
Proof.
  intros w Halive Hnone Hown Hstale Hfails c.
  assert (Htidy : tidy (subscriber w)) by apply tidy_run, tidy_fresh.
  assert (Htopic : obj_get topic (topics (subscriber w)) = None).
  { unfold has_consumers in Hnone.
    now destruct (obj_get topic (topics (subscriber w))). }
  destruct (subscribe pool_listen topic w) as [out w1] eqn:Hsubscribe.
  assert (Hshape : out = Returned c /\
    effects w1 = effects w ++ [PoolListen topic] /\
    unlisteners (subscriber w1) = unlisteners (subscriber w) /\
    topics (subscriber w1) = obj_set topic [c] (topics (subscriber w))).
  { unfold subscribe in Hsubscribe. rewrite Halive, Htopic, Hown in Hsubscribe.
    cbn [negb] in Hsubscribe. unfold listen in Hsubscribe.
    cbn [effects set_subscriber] in Hsubscribe. rewrite Hfails in Hsubscribe.
    injection Hsubscribe as <- <-. now repeat split. }
  destruct Hshape as (-> & Heffects & Hunlisteners & Htopics).
  destruct (subscribed_alone topic w c w1 Htidy Hsubscribe) as [Hcon _].
  assert (Harray : obj_get topic (topics (subscriber w1)) = Some [c]).
  { rewrite Htopics. unfold obj_set. rewrite Htopic.
    rewrite obj_get_insert by assumption. now rewrite String.eqb_refl. }
  exists w1. split; [reflexivity|]. split; [exact Heffects|].
  split; [exact Hunlisteners|].
  split; [unfold has_consumers; now rewrite Harray|].
  unfold finish, doFinally. rewrite Hcon. cbn [finished topicString queue fold_left].
  rewrite Harray. cbn [remove_first]. rewrite Nat.eqb_refl.
  unfold unlisten_call. reveal. rewrite Hunlisteners, Hstale.
  cbn [unlisten_settle]. reveal. now split.
Qed.

End WithPool.


(** X17 at an iterator of the topic ["chat"] with one buffered payload. *)
Lemma returned_iterator_stays_returned_witness :
  let w :=
    run reliable_listen reliable_unlisten
      [Subscribe "chat"; Notify "chat" (Some "hello")] fresh in
  let w1 := finish reliable_unlisten 0 (Some (JString "bye")) w in
  consumer_get 0 (consumers (subscriber w))
  = Some (mkConsumer "chat" [Some "hello"] [] None) /\
  finish reliable_unlisten 0 None w1 = w1 /\
  immediate_result (fst (next 0 w1))
  = Some (mkIteratorResult false (PayloadValue (Some "hello"))) /\
  immediate_result (fst (next 0 (snd (next 0 w1))))
  = Some (mkIteratorResult true (ReturnValue (Some (JString "bye")))).
Proof.
  intros w w1.
  destruct (returned_iterator_stays_returned reliable_unlisten 0
              (mkConsumer "chat" [Some "hello"] [] None)
              (Some (JString "bye")) None w eq_refl eq_refl)
    as (Hagain & _ & Hnext).
  split; [reflexivity|]. split; [exact Hagain|]. split; [exact Hnext|].
  reflexivity.
Defined.

(** X18 at a new iterator of the topic ["chat"]. *)
Lemma return_resolves_a_waiting_next_witness :
  let w := run reliable_listen reliable_unlisten [Subscribe "chat"] fresh in
  let w1 := snd (next 0 w) in
  let w2 := finish reliable_unlisten 0 (Some (JString "bye")) w1 in
  fst (next 0 w) = Parked 0 /\
  effects w2
  = [PoolListen "chat"; Resolved 0 (Finished (Some (JString "bye")));
     UnlistenCalled "chat" 0] /\
  done (parked_result (Finished (Some (JString "bye")))) = false /\
  immediate_result (fst (next 0 w2))
  = Some (mkIteratorResult true (ReturnValue (Some (JString "bye")))).
Proof.
  intros w w1 w2.
  destruct (return_resolves_a_waiting_next reliable_unlisten 0
              (mkConsumer "chat" [] [] None) (Some (JString "bye")) w
              eq_refl eq_refl eq_refl)
    as (Hparked & _ & _ & Hafter).
  split; [exact Hparked|]. split; [reflexivity|]. split; [reflexivity|].
  exact Hafter.
Defined.

(** X19 at a second subscription to ["chat"], with notifications on two
    topics. *)
Lemma payloads_are_delivered_in_order_witness :
  let w :=
    run reliable_listen reliable_unlisten
      [Subscribe "chat"; Notify "chat" (Some "early")] fresh in
  let notifications :=
    [("chat", Some "a"); ("news", Some "x"); ("chat", None); ("chat", Some "b")] in
  exists w1,
    subscribe reliable_listen "chat" w = (Returned 1, w1) /\
    fst (nexts 3 1 (notify_all notifications w1))
    = [Value (Some "a"); Value None; Value (Some "b")] /\
    fst (next 1 (snd (nexts 3 1 (notify_all notifications w1)))) = Parked 0.
Proof.
  intros w notifications.
  let r := eval vm_compute in (subscribe reliable_listen "chat" w) in
  lazymatch r with
  | (_, ?w1) => exists w1
  end.
  match goal with
  | |- subscribe _ _ _ = (_, ?w1) /\ _ =>
      assert (Hsubscribe : subscribe reliable_listen "chat" w = (Returned 1, w1))
        by reflexivity;
      destruct (payloads_are_delivered_in_order reliable_listen
                  reliable_unlisten
                  [Subscribe "chat"; Notify "chat" (Some "early")] "chat"
                  notifications 1 w1 Hsubscribe) as [Hresults Hwaits]
  end.
  split; [exact Hsubscribe|]. split; [exact Hresults|].
  etransitivity; [exact Hwaits | reflexivity].
Defined.

(** X20 at the first subscription of a subscriber whose pool cannot
    listen. *)
Lemma failed_listen_leaves_nothing_to_unlisten_witness :
  let pool := failing_listen (Error "connection refused") in
  exists w1,
    subscribe pool "chat" fresh = (Returned 0, w1) /\
    effects w1 = [PoolListen "chat"] /\
    unlisteners (subscriber w1) = [] /\
    has_consumers "chat" (subscriber w1) = true /\
    effects (finish reliable_unlisten 0 None w1) = effects w1 /\
    unlisteners (subscriber (finish reliable_unlisten 0 None w1)) = [].
Proof.
  intros pool.
  exact (failed_listen_leaves_nothing_to_unlisten pool reliable_unlisten []
           "chat" (Error "connection refused") None
           eq_refl eq_refl eq_refl eq_refl eq_refl).
Defined.

End SubscriberProperties.

(** ** Services *)

Module ServiceProperties.
Import Services.
Local Open Scope list_scope.

Lemma length_append (a b : string) :
  String.length (a ++ b) = String.length a + String.length b.
Proof. induction a as [|x a IH]; simpl; [reflexivity | now rewrite IH]. Qed.

Lemma append_cancel_r (a b s : string) : (a ++ s = b ++ s)%string -> a = b.
Proof.
  revert b. induction a as [|x a IH]; intros [|y b] H; simpl in H.
  - reflexivity.
  - apply (f_equal String.length) in H. simpl in H.
    rewrite length_append in H. lia.
  - apply (f_equal String.length) in H. simpl in H.
    rewrite length_append in H. lia.
  - injection H as -> H. f_equal. now apply IH.
Qed.

Lemma default_key_injective (name1 name2 key : string) :
  default_key name1 key = default_key name2 key -> name1 = name2.
Proof.
  unfold default_key.
  destruct (String.eqb_spec name1 "main") as [->|H1],
           (String.eqb_spec name2 "main") as [->|H2]; intros H.
  - reflexivity.
  - apply (f_equal String.length) in H. rewrite !length_append in H.
    simpl in H. lia.
  - apply (f_equal String.length) in H. rewrite !length_append in H.
    simpl in H. lia.
  - now apply (append_cancel_r name1 name2 ("_" ++ key)).
Qed.

Section MakePgService.
Variable stringify : PgServiceConfig -> string.

(** X21: [makePgService] makes the pool of exactly one adaptor, the one
    whose test accepts [config.adapter]; the three tests exclude one
    another, an adapter that is undefined or empty is the pooled TCP
    adaptor, and a configuration that none of the tests accepts is refused
    with the error "Unknown adapter type in config: ...".  A subscriber is
    made when [pubsub] is not false and the pool has a [listen] method,
    which the pool of the pooled TCP adaptor does not have: a service of
    that adaptor has no subscriber, whatever [pubsub] says. *)
Theorem makePgService_selects_one_adaptor (config : PgServiceConfig) :
  pgSettings config = None \/ pgSettingsKey config <> Some None ->
  match makePgService stringify config with
  | Returned service =>
      (service_kind service = NodePostgresKind
       <-> isNodePostgresConfig (adapter config) = true) /\
      (service_kind service = PostgresJsKind
       <-> isPostgresJsConfig (adapter config) = true) /\
      (service_kind service = PGLiteKind
       <-> isPGLiteConfig (adapter config) = true) /\
      service_pgSubscriber service
      = match pubsub config with Some false => false | _ => true end
        && has_listen (service_kind service) /\
      (service_kind service = NodePostgresKind ->
       service_pgSubscriber service = false)
  | Threw e =>
      isNodePostgresConfig (adapter config) = false /\
      isPostgresJsConfig (adapter config) = false /\
      isPGLiteConfig (adapter config) = false /\
      e = Error ("Unknown adapter type in config: " ++ stringify config)
  end.
Proof.
  intros Hkey. unfold makePgService.
  assert (Hpass : forall A (x y : A),
    match pgSettings config,
          match pgSettingsKey config with
          | Some k => k
          | None =>
              Some (default_key
                      match name config with Some n => n | None => "main" end
                      "pgSettings")
          end
    with
    | Some _, None => x
    | _, _ => y
    end = y).
  { intros A x y. destruct Hkey as [-> | Hkey]; [reflexivity|].
    destruct (pgSettings config); [|reflexivity].
    destruct (pgSettingsKey config) as [[k|]|]; [reflexivity | | reflexivity].
    now elim Hkey. }
  rewrite Hpass. clear Hpass.
  assert (Hexclusive :
    (isNodePostgresConfig (adapter config) = true ->
     isPostgresJsConfig (adapter config) = false /\
     isPGLiteConfig (adapter config) = false) /\
    (isPostgresJsConfig (adapter config) = true ->
     isPGLiteConfig (adapter config) = false)).
  { destruct (adapter config) as [a|]; simpl; [|now split].
    split.
    - destruct (String.eqb_spec a EmptyString) as [->|_]; [now split|].
      destruct (String.eqb_spec a "node-postgres") as [->|_]; [now split|].
      discriminate.
    - destruct (String.eqb_spec a "postgres.js") as [->|_]; [reflexivity|].
      discriminate. }
  destruct Hexclusive as [Hnode Htagged].
  destruct (isNodePostgresConfig (adapter config)) eqn:Enode.
  - destruct (Hnode eq_refl) as [-> ->].
    destruct (superuserPool config || truthy (superuserConnectionString config));
      cbn [service_kind service_pgSubscriber has_listen];
      repeat split; try discriminate; trivial;
        now destruct (pubsub config) as [[|]|].
  - destruct (isPostgresJsConfig (adapter config)) eqn:Etagged.
    + rewrite (Htagged eq_refl).
      cbn [service_kind service_pgSubscriber has_listen].
      repeat split; try discriminate; trivial;
        now destruct (pubsub config) as [[|]|].
    + destruct (isPGLiteConfig (adapter config)) eqn:Ewasm.
      * cbn [service_kind service_pgSubscriber has_listen].
        repeat split; try discriminate; trivial;
          now destruct (pubsub config) as [[|]|].
      * now repeat split.
Qed.

(** X22: the keys of two services.  When the configurations give no keys,
    the keys under which a service stores its [withPgClient] function, its
    settings and its subscriber are made from its name, ["main"] when none
    is given, and two services with different names get different keys. *)
Theorem default_keys_differ_between_services
    (config1 config2 : PgServiceConfig) (service1 service2 : PgServiceConfiguration) :
  withPgClientKey config1 = None -> pgSettingsKey config1 = None ->
  pgSubscriberKey config1 = None ->
  withPgClientKey config2 = None -> pgSettingsKey config2 = None ->
  pgSubscriberKey config2 = None ->
  makePgService stringify config1 = Returned service1 ->
  makePgService stringify config2 = Returned service2 ->
  service_name service1 = match name config1 with Some n => n | None => "main" end /\
  (service_name service1 <> service_name service2 ->
   service_withPgClientKey service1 <> service_withPgClientKey service2 /\
   service_pgSettingsKey service1 <> service_pgSettingsKey service2 /\
   service_pgSubscriberKey service1 <> service_pgSubscriberKey service2).
Proof.
  intros Hw1 Hs1 Hp1 Hw2 Hs2 Hp2 Hmade1 Hmade2.
  assert (Hshape : forall config service,
    withPgClientKey config = None -> pgSettingsKey config = None ->
    pgSubscriberKey config = None ->
    makePgService stringify config = Returned service ->
    let n := match name config with Some n => n | None => "main" end in
    service_name service = n /\
    service_withPgClientKey service = default_key n "withPgClient" /\
    service_pgSettingsKey service = Some (default_key n "pgSettings") /\
    service_pgSubscriberKey service = default_key n "pgSubscriber").
  { intros config service Hw Hs Hp. unfold makePgService. rewrite Hw, Hs, Hp.
    destruct (pgSettings config);
      destruct (isNodePostgresConfig (adapter config));
      try destruct (superuserPool config
                    || truthy (superuserConnectionString config));
      try destruct (isPostgresJsConfig (adapter config));
      try destruct (isPGLiteConfig (adapter config));
      try discriminate; intros [= <-]; now repeat split. }
  destruct (Hshape _ _ Hw1 Hs1 Hp1 Hmade1) as (Hn1 & Hwk1 & Hsk1 & Hpk1).
  destruct (Hshape _ _ Hw2 Hs2 Hp2 Hmade2) as (Hn2 & Hwk2 & Hsk2 & Hpk2).
  cbv zeta in *. split; [exact Hn1|].
  intros Hdiffer. rewrite Hwk1, Hwk2, Hsk1, Hsk2, Hpk1, Hpk2.
  rewrite Hn1, Hn2 in Hdiffer.
  repeat split; intros H; apply Hdiffer.
  - now apply default_key_injective in H.
  - injection H as H. now apply default_key_injective in H.
  - now apply default_key_injective in H.
Qed.

Lemma call_in_order_all rs settles :
  (forall r, exists u, settles r = Returned u) ->
  call_in_order rs settles = (Returned tt, rs).
Proof.
  intros Hall. induction rs as [|r rs IH]; [reflexivity|].
  simpl. destruct (Hall r) as [u ->]. now rewrite IH.
Qed.

(** X23: [release] of a service releases in the reverse of the order of
    creation: the subscriber first, if there is one, then the pool of the
    superuser, if there is one, and the pool last.  Each release is awaited
    before the next, and one that fails ends the release: when the release
    of the subscriber fails, neither pool is released. *)
Theorem service_release_goes_backwards
    (config : PgServiceConfig) (service : PgServiceConfiguration) :
  makePgService stringify config = Returned service ->
  let order :=
    (if service_pgSubscriber service then [ReleaseSubscriber] else [])
      ++ (if service_superuserPgPool service then [ReleaseSuperuserPool] else [])
      ++ [ReleasePool] in
  (forall settles,
     (forall r, exists u, settles r = Returned u) ->
     release service settles = (Returned tt, order)) /\
  (forall settles e,
     service_pgSubscriber service = true ->
     settles ReleaseSubscriber = Threw e ->
     release service settles = (Threw e, [ReleaseSubscriber])).
Proof.
  intros Hmade order.
  assert (Hreleasers : rev (releasers service) = order).
  { subst order. unfold makePgService in Hmade.
    destruct (pgSettings config), (pgSettingsKey config) as [[k|]|];
      try discriminate;
      destruct (isNodePostgresConfig (adapter config));
      try destruct (superuserPool config
                    || truthy (superuserConnectionString config));
      try destruct (isPostgresJsConfig (adapter config));
      try destruct (isPGLiteConfig (adapter config));
      try discriminate; injection Hmade as <-;
      cbn [service_pgSubscriber service_superuserPgPool releasers has_listen];
      destruct (pubsub config) as [[|]|]; reflexivity. }
  unfold release. rewrite Hreleasers. split.
  - intros settles Hall. now apply call_in_order_all.
  - intros settles e Hsubscriber Hfails. subst order. rewrite Hsubscriber.
    cbn [app call_in_order]. now rewrite Hfails.
Qed.

End MakePgService.

(** X21 for a configuration of the WASM adaptor and for one without an
    adapter, both with [pubsub] left out. *)
Lemma makePgService_selects_one_adaptor_witness :
  let wasm := mkConfig (Some "pglite") None None None None None None None
                false None in
  let plain := mkConfig None (Some "replica") None None None None None None
                 false None in
  (exists service,
     makePgService (fun _ => "{}") wasm = Returned service /\
     service_kind service = PGLiteKind /\
     service_pgSubscriber service = true) /\
  (exists service,
     makePgService (fun _ => "{}") plain = Returned service /\
     service_kind service = NodePostgresKind /\
     service_pgSubscriber service = false).
Proof.
  intros wasm plain. split.
  - pose proof (makePgService_selects_one_adaptor (fun _ => "{}") wasm
                  (or_introl eq_refl)) as H.
    destruct (makePgService (fun _ => "{}") wasm) as [service|e] eqn:Hmade;
      [|discriminate Hmade].
    destruct H as (_ & _ & Hwasm & Hsubscriber & _).
    exists service. split; [reflexivity|].
    split; [now apply Hwasm | exact (eq_trans Hsubscriber
      (f_equal (fun k => true && has_listen k) (proj2 Hwasm eq_refl)))].
  - pose proof (makePgService_selects_one_adaptor (fun _ => "{}") plain
                  (or_introl eq_refl)) as H.
    destruct (makePgService (fun _ => "{}") plain) as [service|e] eqn:Hmade;
      [|discriminate Hmade].
    destruct H as (Hnode & _ & _ & _ & Hnone).
    exists service. split; [reflexivity|].
    split; [now apply Hnode | apply Hnone; now apply Hnode].
Defined.

(** X22 for the service ["main"] and a service ["replica"]. *)
Lemma default_keys_differ_between_services_witness :
  let config1 := mkConfig None None None None None None None None false None in
  let config2 := mkConfig None (Some "replica") None None None None None None
                   false None in
  exists service1 service2,
    makePgService (fun _ => "{}") config1 = Returned service1 /\
    makePgService (fun _ => "{}") config2 = Returned service2 /\
    service_name service1 = "main" /\
    service_withPgClientKey service1 = "withPgClient" /\
    service_withPgClientKey service2 = "replica_withPgClient" /\
    service_withPgClientKey service1 <> service_withPgClientKey service2 /\
    service_pgSettingsKey service1 <> service_pgSettingsKey service2 /\
    service_pgSubscriberKey service1 <> service_pgSubscriberKey service2.
Proof.
  intros config1 config2.
  destruct (makePgService (fun _ => "{}") config1) as [service1|e] eqn:Hmade1;
    [|discriminate Hmade1].
  destruct (makePgService (fun _ => "{}") config2) as [service2|e] eqn:Hmade2;
    [|discriminate Hmade2].
  destruct (default_keys_differ_between_services (fun _ => "{}")
              config1 config2 service1 service2
              eq_refl eq_refl eq_refl eq_refl eq_refl eq_refl Hmade1 Hmade2)
    as [Hname Hdiffer].
  injection Hmade1 as <-. injection Hmade2 as <-.
  do 2 eexists. split; [reflexivity|]. split; [reflexivity|].
  split; [exact Hname|]. split; [reflexivity|]. split; [reflexivity|].
  apply Hdiffer. discriminate.
Defined.

(** X23 for a service of the WASM adaptor, which has a subscriber, and for
    a service of the pooled TCP adaptor with a pool of the superuser. *)
Lemma service_release_goes_backwards_witness :
  let wasm := mkConfig (Some "pglite") None None None None None None None
                false None in
  let plain := mkConfig None None None None None None None None true None in
  let refuses r :=
    match r with
    | ReleaseSubscriber => Threw (Error "closed")
    | _ => Returned tt
    end in
  exists service1 service2,
    makePgService (fun _ => "{}") wasm = Returned service1 /\
    makePgService (fun _ => "{}") plain = Returned service2 /\
    release service1 (fun _ => Returned tt)
    = (Returned tt, [ReleaseSubscriber; ReleasePool]) /\
    release service1 refuses = (Threw (Error "closed"), [ReleaseSubscriber]) /\
    release service2 (fun _ => Returned tt)
    = (Returned tt, [ReleaseSuperuserPool; ReleasePool]).
Proof.
  intros wasm plain refuses.
  destruct (makePgService (fun _ => "{}") wasm) as [service1|e] eqn:Hmade1;
    [|discriminate Hmade1].
  destruct (makePgService (fun _ => "{}") plain) as [service2|e] eqn:Hmade2;
    [|discriminate Hmade2].
  destruct (service_release_goes_backwards (fun _ => "{}") wasm service1 Hmade1)
    as [Hall1 Hfails1].
  destruct (service_release_goes_backwards (fun _ => "{}") plain service2 Hmade2)
    as [Hall2 _].
  injection Hmade1 as <-. injection Hmade2 as <-.
  do 2 eexists. split; [reflexivity|]. split; [reflexivity|].
  split; [apply Hall1; intros r; now exists tt|].
  split; [now apply Hfails1|].
  apply Hall2; intros r; now exists tt.
Defined.

(** *** The listener of the pooled TCP pool *)

(** X24: the delay before a new attempt of the listener of the pooled TCP
    pool, for an attempt that was itself the [retryCount]-th new attempt:
    one second after the first attempt ([retryCount] 0) and twice as long
    after each further one while [retryCount] is below 5, thirty seconds
    from [retryCount] 5 on.  The delay never shrinks as [retryCount] grows
    and stays between 1000 and 30000 milliseconds. *)
Theorem reconnect_delay_doubles_up_to_thirty_seconds (retryCount : nat) :
  (1000 <= PoolListener.reconnect_delay retryCount <= 30000)%Z /\
  (PoolListener.reconnect_delay retryCount
   <= PoolListener.reconnect_delay (S retryCount))%Z /\
  (retryCount < 5 ->
   PoolListener.reconnect_delay retryCount
   = (1000 * 2 ^ Z.of_nat retryCount)%Z) /\
  (5 <= retryCount -> PoolListener.reconnect_delay retryCount = 30000%Z).
Proof.
  unfold PoolListener.reconnect_delay.
  assert (Hpos : (1 <= 2 ^ Z.of_nat retryCount)%Z).
  { change 1%Z with (2 ^ 0)%Z. apply Z.pow_le_mono_r; lia. }
  assert (Hstep : (2 ^ Z.of_nat (S retryCount) = 2 * 2 ^ Z.of_nat retryCount)%Z).
  { rewrite Nat2Z.inj_succ, Z.pow_succ_r by lia. reflexivity. }
  split; [lia|]. split; [rewrite Hstep; lia|]. split.
  - intros Hfew.
    assert (Hsmall : (2 ^ Z.of_nat retryCount <= 2 ^ 4)%Z)
      by (apply Z.pow_le_mono_r; lia).
    change (2 ^ 4)%Z with 16%Z in Hsmall. lia.
  - intros Hmany.
    assert (Hlarge : (2 ^ 5 <= 2 ^ Z.of_nat retryCount)%Z)
      by (apply Z.pow_le_mono_r; lia).
    change (2 ^ 5)%Z with 32%Z in Hlarge. lia.
Qed.

(** X25: the names that the adaptors write into statements.  The channel of
    [LISTEN] and [UNLISTEN] in the pooled TCP pool, and the setting of
    [RESET] in the WASM envelope, are written between double quotes with
    every double quote of the name doubled, so that the server reads the
    name back as it is, with nothing after it, whatever characters the name
    holds. *)
Theorem quoted_names_read_back (name : string) :
  (exists quoted,
     PoolListener.listen_text name = ("LISTEN " ++ quoted)%string /\
     PoolListener.unlisten_text name = ("UNLISTEN " ++ quoted)%string /\
     Quoting.read_literal (ascii_of_nat 34) quoted = Some (name, EmptyString)) /\
  (exists quoted,
     Conn.text (Envelope.reset_statement name) = ("RESET " ++ quoted)%string /\
     Quoting.read_literal (ascii_of_nat 34) quoted = Some (name, EmptyString)).
Proof.
  split; eexists; repeat split;
    apply FormatProperties.quoted_identifier_reads_back.
Qed.

End ServiceProperties.

(** ** The cache of [withPgClient] functions *)

Module ServiceCacheProperties.
Import ServiceCache.
Local Open Scope list_scope.

Lemma cache_get_in key m v : cache_get key m = Some v -> In key (map fst m).
Proof.
  induction m as [|[k x] rest IH]; simpl; [discriminate|].
  destruct (Nat.eqb_spec k key) as [->|Hne]; [now left|].
  intros H. right. now apply IH.
Qed.

Lemma cache_get_not_in key m : ~ In key (map fst m) -> cache_get key m = None.
Proof.
  induction m as [|[k x] rest IH]; simpl; [reflexivity|].
  intros H. destruct (Nat.eqb_spec k key) as [->|Hne].
  - elim H. now left.
  - apply IH. intros Hin. apply H. now right.
Qed.

Lemma cache_get_none key m : cache_get key m = None -> ~ In key (map fst m).
Proof.
  induction m as [|[k x] rest IH]; simpl; [tauto|].
  destruct (Nat.eqb_spec k key) as [->|Hne]; [discriminate|].
  intros H [Heq|Hin]; [congruence | now apply IH].
Qed.

Lemma cache_set_new key value m :
  cache_get key m = None -> cache_set key value m = m ++ [(key, value)].
Proof.
  induction m as [|[k x] rest IH]; simpl; [reflexivity|].
  destruct (k =? key)%nat; [discriminate|].
  intros H. now rewrite IH.
Qed.

Lemma cache_get_app key m m' :
  cache_get key (m ++ m')
  = match cache_get key m with
    | Some v => Some v
    | None => cache_get key m'
    end.
Proof.
  induction m as [|[k x] rest IH]; simpl; [reflexivity|].
  now destruct (k =? key)%nat.
Qed.

Lemma cache_delete_keys key m k :
  In k (map fst (cache_delete key m)) -> In k (map fst m).
Proof.
  induction m as [|[k0 v] rest IH]; simpl; [tauto|].
  destruct (k0 =? key)%nat; simpl; [now right|].
  intros [->|H]; [now left | right; now apply IH].
Qed.

Lemma cache_delete_NoDup key m :
  NoDup (map fst m) -> NoDup (map fst (cache_delete key m)).
Proof.
  induction m as [|[k v] rest IH]; simpl; [trivial|].
  intros H. inversion H as [|? ? Hnot Hrest]; subst.
  destruct (k =? key)%nat; simpl; [assumption|].
  constructor; [|now apply IH].
  intros Hin. apply Hnot. eapply cache_delete_keys; eassumption.
Qed.

Lemma cache_get_delete_same key m :
  NoDup (map fst m) -> cache_get key (cache_delete key m) = None.
Proof.
  induction m as [|[k v] rest IH]; simpl; [reflexivity|].
  intros H. inversion H as [|? ? Hnot Hrest]; subst.
  destruct (Nat.eqb_spec k key) as [->|Hne].
  - now apply cache_get_not_in.
  - simpl. destruct (Nat.eqb_spec k key); [congruence|]. now apply IH.
Qed.

Lemma cache_get_delete_other key key' m :
  key' <> key -> cache_get key' (cache_delete key m) = cache_get key' m.
Proof.
  intros Hne. induction m as [|[k v] rest IH]; simpl; [reflexivity|].
  destruct (Nat.eqb_spec k key) as [->|Hk]; simpl.
  - destruct (Nat.eqb_spec key key'); [congruence | reflexivity].
  - destruct (k =? key')%nat; [reflexivity | exact IH].
Qed.

Lemma nth_error_adjust h change l : forall h',
  nth_error (adjust h change l) h'
  = if (h =? h')%nat then option_map change (nth_error l h')
    else nth_error l h'.
Proof.
  revert h. induction l as [|x l IH]; intros h h'.
  - destruct h as [|h], h' as [|h']; cbn; try reflexivity.
    now destruct (h =? h')%nat.
  - destruct h as [|h], h' as [|h']; try reflexivity. simpl. apply IH.
Qed.

Lemma length_adjust h change l : length (adjust h change l) = length l.
Proof.
  revert h. induction l as [|x l IH]; intros [|h]; simpl; try reflexivity.
  now rewrite IH.
Qed.

Lemma issued_app h l e :
  issued h (l ++ [e])
  = (issued h l + match e with
                  | Issued h' => if (h' =? h)%nat then 1 else 0
                  | _ => 0
                  end)%Z.
Proof.
  unfold issued. rewrite filter_app, length_app. cbn [filter].
  destruct e as [h'|h'|c h']; cbn [length]; try lia.
  destruct (h' =? h)%nat; cbn [length]; lia.
Qed.

Lemma dropped_app h l e :
  dropped h (l ++ [e])
  = (dropped h l + match e with
                   | Dropped h' => if (h' =? h)%nat then 1 else 0
                   | _ => 0
                   end)%Z.
Proof.
  unfold dropped. rewrite filter_app, length_app. cbn [filter].
  destruct e as [h'|h'|c h']; cbn [length]; try lia.
  destruct (h' =? h)%nat; cbn [length]; lia.
Qed.

Lemma consistent_empty : consistent empty.
Proof.
  unfold consistent, empty. cbn.
  split; [constructor|]. split; [discriminate|].
  split; [intros [|h] r; discriminate|].
  split; [intros [|h] r; discriminate|]. now split.
Qed.

Lemma consistent_get c w :
  consistent w -> consistent (snd (getWithPgClientFromPgService c w)).
Proof.
  intros (Hkeys & Hcached & Hlive & Hcount & Hnew).
  unfold consistent, getWithPgClientFromPgService.
  destruct (cache_get (identity c) (cache w)) as [existing|] eqn:Hget.
  - cbn [snd cache functions log].
    destruct (Hcached _ _ Hget) as (r0 & Hr0 & _ & _).
    split; [exact Hkeys|]. split; [|split; [|split]].
    + intros k h Hk. destruct (Hcached _ _ Hk) as (r & Hr & Hc & Hrel).
      rewrite nth_error_adjust, Hr.
      destruct (existing =? h)%nat; eexists; (split; [reflexivity|]);
        now split.
    + intros h r. rewrite nth_error_adjust.
      destruct (existing =? h)%nat.
      * destruct (nth_error (functions w) h) as [r'|] eqn:Hr'; [|discriminate].
        intros [= <-]. cbn [released config retain]. now apply Hlive.
      * apply Hlive.
    + intros h r. rewrite nth_error_adjust, issued_app, dropped_app.
      destruct (Nat.eqb_spec existing h) as [->|Hne].
      * destruct (nth_error (functions w) h) as [r'|] eqn:Hr'; [|discriminate].
        intros [= <-]. cbn [retainers retain]. rewrite (Hcount _ _ Hr'). lia.
      * intros Hr. rewrite (Hcount _ _ Hr). lia.
    + intros h Hh. rewrite length_adjust in Hh.
      rewrite issued_app, dropped_app. destruct (Hnew h Hh) as [-> ->].
      destruct (Nat.eqb_spec existing h) as [->|Hne]; [|now split].
      assert (h < length (functions w))%nat
        by (apply nth_error_Some; congruence).
      lia.
  - destruct (pgPool c);
      [|exact (conj Hkeys (conj Hcached (conj Hlive (conj Hcount Hnew))))].
    cbn [snd cache functions log].
    rewrite cache_set_new by assumption.
    split; [|split; [|split; [|split]]].
    + rewrite map_app. cbn [map fst].
      apply NoDup_app; [assumption | repeat constructor; intros [] |].
      intros k Hk [<-|[]]. now apply cache_get_none in Hget.
    + intros k h. rewrite cache_get_app.
      destruct (cache_get k (cache w)) as [h'|] eqn:Hk.
      * intros [= <-]. destruct (Hcached _ _ Hk) as (r & Hr & Hc & Hrel).
        exists r. rewrite nth_error_app1 by (apply nth_error_Some; congruence).
        now repeat split.
      * cbn [cache_get]. destruct (Nat.eqb_spec (identity c) k) as [<-|Hne];
          [|discriminate].
        intros [= <-]. eexists. rewrite nth_error_app2, Nat.sub_diag by lia.
        now repeat split.
    + intros h r Hr Hrel. rewrite cache_get_app.
      destruct (Nat.lt_ge_cases h (length (functions w))) as [Hold|Hfresh].
      * rewrite nth_error_app1 in Hr by assumption.
        now rewrite (Hlive _ _ Hr Hrel).
      * rewrite nth_error_app2 in Hr by assumption.
        destruct (h - length (functions w)) as [|n] eqn:Hn;
          [|destruct n; discriminate].
        injection Hr as <-. cbn [config]. rewrite Hget. cbn [cache_get].
        rewrite Nat.eqb_refl. f_equal. lia.
    + intros h r Hr. rewrite issued_app, dropped_app.
      destruct (Nat.lt_ge_cases h (length (functions w))) as [Hold|Hfresh].
      * rewrite nth_error_app1 in Hr by assumption.
        rewrite (Hcount _ _ Hr).
        destruct (Nat.eqb_spec (length (functions w)) h); [lia | lia].
      * rewrite nth_error_app2 in Hr by assumption.
        destruct (h - length (functions w)) as [|n] eqn:Hn;
          [|destruct n; discriminate].
        injection Hr as <-. cbn [retainers].
        destruct (Hnew h Hfresh) as [-> ->].
        destruct (Nat.eqb_spec (length (functions w)) h); lia.
    + intros h Hh. rewrite length_app in Hh. cbn [length] in Hh.
      rewrite issued_app, dropped_app.
      destruct (Hnew h ltac:(lia)) as [-> ->].
      destruct (Nat.eqb_spec (length (functions w)) h); [lia | now split].
Qed.

Lemma consistent_release h w :
  (h < length (functions w))%nat -> consistent w -> consistent (release h w).
Proof.
  intros Hh (Hkeys & Hcached & Hlive & Hcount & Hnew).
  unfold consistent, release. cbn [cache functions log].
  split; [exact Hkeys|].
  split; [|split; [|split]].
  - intros k h' Hk. destruct (Hcached _ _ Hk) as (r & Hr & Hc & Hrel).
    rewrite nth_error_adjust, Hr.
    destruct (h =? h')%nat; eexists; (split; [reflexivity|]); now split.
  - intros h' r. rewrite nth_error_adjust.
    destruct (h =? h')%nat; [|apply Hlive].
    destruct (nth_error (functions w) h') as [r'|] eqn:Hr'; [|discriminate].
    intros [= <-]. cbn [released config unretain]. now apply Hlive.
  - intros h' r. rewrite nth_error_adjust, issued_app, dropped_app.
    destruct (Nat.eqb_spec h h') as [->|Hne].
    + destruct (nth_error (functions w) h') as [r'|] eqn:Hr'; [|discriminate].
      intros [= <-]. cbn [retainers unretain]. rewrite (Hcount _ _ Hr'). lia.
    + intros Hr. rewrite (Hcount _ _ Hr). lia.
  - intros h' Hh'. rewrite length_adjust in Hh'.
    rewrite issued_app, dropped_app. destruct (Hnew h' Hh') as [-> ->].
    destruct (Nat.eqb_spec h h'); [lia | now split].
Qed.

Lemma consistent_timeout w : consistent w -> consistent (timeout w).
Proof.
  intros (Hkeys & Hcached & Hlive & Hcount & Hnew).
  unfold consistent, timeout.
  destruct (timers w) as [|h rest];
    [exact (conj Hkeys (conj Hcached (conj Hlive (conj Hcount Hnew))))|].
  destruct (nth_error (functions w) h) as [r|] eqn:Hr;
    [|exact (conj Hkeys (conj Hcached (conj Hlive (conj Hcount Hnew))))].
  destruct ((retainers r =? 0)%Z && negb (released r)) eqn:Hforget;
    [|exact (conj Hkeys (conj Hcached (conj Hlive (conj Hcount Hnew))))].
  apply andb_prop in Hforget as [Hzero Hrel].
  apply negb_true_iff in Hrel.
  pose proof (Hlive _ _ Hr Hrel) as Hmine.
  cbn [cache functions log].
  split; [now apply cache_delete_NoDup|]. split; [|split; [|split]].
  - intros k h' Hk.
    assert (Hne : k <> config r).
    { intros ->. now rewrite cache_get_delete_same in Hk. }
    rewrite cache_get_delete_other in Hk by assumption.
    destruct (Hcached _ _ Hk) as (r' & Hr' & Hc & Hrel').
    rewrite nth_error_adjust, Hr'.
    destruct (Nat.eqb_spec h h') as [->|_]; [|eexists; now repeat split].
    congruence.
  - intros h' r'. rewrite nth_error_adjust.
    destruct (Nat.eqb_spec h h') as [->|Hne].
    + rewrite Hr. cbn [option_map mark_released]. intros [= <-]. discriminate.
    + intros Hr' Hrel'. pose proof (Hlive _ _ Hr' Hrel') as Hcache.
      rewrite cache_get_delete_other; [assumption|].
      intros Hsame. rewrite Hsame, Hmine in Hcache. congruence.
  - intros h' r'. rewrite nth_error_adjust, issued_app, dropped_app.
    destruct (h =? h')%nat.
    + destruct (nth_error (functions w) h') as [r''|] eqn:Hr''; [|discriminate].
      intros [= <-]. cbn [retainers mark_released]. rewrite (Hcount _ _ Hr''). lia.
    + intros Hr'. rewrite (Hcount _ _ Hr'). lia.
  - intros h' Hh'. rewrite length_adjust in Hh'.
    rewrite issued_app, dropped_app. destruct (Hnew h' Hh') as [-> ->].
    now split.
Qed.

Lemma consistent_step op w : consistent w -> consistent (step op w).
Proof.
  destruct op as [c|h|]; cbn [step].
  - apply consistent_get.
  - destruct (Nat.ltb_spec h (length (functions w))); [|trivial].
    now apply consistent_release.
  - apply consistent_timeout.
Qed.

Lemma consistent_run ops : forall w, consistent w -> consistent (run ops w).
Proof.
  induction ops as [|op ops IH]; intros w Hw; [exact Hw|].
  apply IH, consistent_step, Hw.
Qed.

(** X26: the count of retainers is exact.  After any sequence of calls of
    [getWithPgClientFromPgService], of releases and of time-outs, the
    function that the cache holds for a configuration was made for that
    configuration and has not been dropped from the cache before, and its
    count of retainers is the number of times it has been handed out less
    the number of times it has been released; a configuration has one
    function in the cache at most. *)
Theorem cache_counts_retainers_exactly (ops : list Op) (c h : nat) :
  let w := run ops empty in
  cache_get c (cache w) = Some h ->
  exists r,
    nth_error (functions w) h = Some r /\
    config r = c /\ released r = false /\
    retainers r = (issued h (log w) - dropped h (log w))%Z /\
    forall h' r',
      nth_error (functions w) h' = Some r' -> config r' = c ->
      released r' = false -> h' = h.
Proof.
  intros w Hget.
  destruct (consistent_run ops empty consistent_empty)
    as (_ & Hcached & Hlive & Hcount & _).
  fold w in Hcached, Hlive, Hcount.
  destruct (Hcached _ _ Hget) as (r & Hr & Hc & Hrel).
  exists r. repeat split; try assumption; [now apply Hcount|].
  intros h' r' Hr' Hc' Hrel'.
  pose proof (Hlive _ _ Hr' Hrel') as Hcache. rewrite Hc', Hget in Hcache.
  congruence.
Qed.

(** X27: the cache forgets a function only when nobody retains it.  After
    any sequence of operations, a step that takes the function of a
    configuration out of the cache is a time-out, the oldest one, set by a
    release of that function, at a moment when the function has been
    released as often as it has been handed out; a call of
    [getWithPgClientFromPgService] and a release leave the functions of all
    configurations in the cache. *)
Theorem cache_forgets_only_unretained_functions
    (ops : list Op) (op : Op) (c h : nat) :
  let w := run ops empty in
  cache_get c (cache w) = Some h ->
  cache_get c (cache (step op w)) <> Some h ->
  op = Timeout /\
  hd_error (timers w) = Some h /\
  issued h (log w) = dropped h (log w) /\
  cache_get c (cache (step op w)) = None.
Proof.
  intros w Hget Hgone.
  destruct (consistent_run ops empty consistent_empty)
    as (Hkeys & Hcached & Hlive & Hcount & _).
  fold w in Hkeys, Hcached, Hlive, Hcount.
  destruct op as [cfg|h'|]; cbn [step] in *.
  - exfalso. apply Hgone. unfold getWithPgClientFromPgService.
    destruct (cache_get (identity cfg) (cache w)) as [existing|] eqn:Hcfg;
      [exact Hget|].
    destruct (pgPool cfg); [|exact Hget]. cbn [snd cache].
    rewrite cache_set_new by assumption. rewrite cache_get_app. now rewrite Hget.
  - exfalso. apply Hgone.
    destruct (h' <? length (functions w))%nat; exact Hget.
  - unfold timeout in *.
    destruct (timers w) as [|h' rest]; [contradiction|].
    destruct (nth_error (functions w) h') as [r|] eqn:Hr; [|contradiction].
    destruct ((retainers r =? 0)%Z && negb (released r)) eqn:Hforget;
      [|contradiction].
    apply andb_prop in Hforget as [Hzero Hrel].
    apply negb_true_iff in Hrel. apply Z.eqb_eq in Hzero.
    cbn [cache] in *.
    destruct (Nat.eq_dec c (config r)) as [->|Hne];
      [|rewrite cache_get_delete_other in Hgone by assumption; contradiction].
    pose proof (Hlive _ _ Hr Hrel) as Hmine. rewrite Hget in Hmine.
    injection Hmine as ->.
    split; [reflexivity|]. split; [reflexivity|].
    split; [|now apply cache_get_delete_same].
    pose proof (Hcount _ _ Hr). lia.
Qed.

(** X26 after two callers have taken the function of one configuration and
    one of them has released it. *)
Lemma cache_counts_retainers_exactly_witness :
  let c := mkConfiguration 7 "main" true in
  let w := run [Get c; Get c; Release 0; Timeout] empty in
  cache_get 7 (cache w) = Some 0 /\
  exists r,
    nth_error (functions w) 0 = Some r /\
    config r = 7 /\ released r = false /\
    retainers r = 1%Z /\
    issued 0 (log w) = 2%Z /\ dropped 0 (log w) = 1%Z.
Proof.
  intros c w.
  destruct (cache_counts_retainers_exactly [Get c; Get c; Release 0; Timeout]
              7 0 eq_refl) as (r & Hr & Hc & Hrel & Hcount & _).
  split; [reflexivity|]. exists r.
  split; [exact Hr|]. split; [exact Hc|]. split; [exact Hrel|].
  split; [rewrite Hcount; reflexivity | split; reflexivity].
Defined.

(** X27 at the time-out after the only caller has released the function;
    when the function is taken again before the time-out, it stays. *)
Lemma cache_forgets_only_unretained_functions_witness :
  let c := mkConfiguration 7 "main" true in
  let w := run [Get c; Release 0] empty in
  cache_get 7 (cache w) = Some 0 /\
  cache_get 7 (cache (step Timeout w)) = None /\
  hd_error (timers w) = Some 0 /\
  issued 0 (log w) = dropped 0 (log w) /\
  cache_get 7 (cache (run [Get c; Release 0; Get c; Timeout] empty)) = Some 0.
Proof.
  intros c w.
  destruct (cache_forgets_only_unretained_functions [Get c; Release 0] Timeout
              7 0 eq_refl ltac:(discriminate))
    as (_ & Htimer & Hcount & Hgone).
  split; [reflexivity|]. split; [exact Hgone|]. split; [exact Htimer|].
  split; [exact Hcount | reflexivity].
Defined.

End ServiceCacheProperties.
